(** * Memory hierarchy simulator: a shallow embedding of [Source1.cpp]

    The development follows the C++ source class by class: [Cache], [TLB],
    [PerformanceAnalyzer] and [MemoryHierarchy].  Member functions become
    functions on records, with the object passed in and the updated object
    returned.  Operations whose behaviour the C++ standard leaves undefined
    (integer division by zero, indexing a [std::vector] out of range) or
    that throw return a [Fault] instead of a value.

    An [int] is an integer of [Z].  The program divides, takes remainders,
    compares and counts up by one; [INT_MIN / -1] is a [Fault], and the
    counters are unbounded, a run long enough to overflow one being outside
    the model.  A [double] is a primitive binary64 float.

    The environment is made explicit: every reading of [std::time], every
    outcome of [std::shuffle] and every draw of [std::rand] is supplied by
    an [Oracle], and the addresses of a run, which the program generates
    from the pattern the user chose, are given as a list.  Console input
    and output and the running [totalTime], which only feeds the console,
    are not part of the model. *)

From Stdlib Require Import ZArith Floats.
From Stdlib Require Uint63.
From stdpp Require Import gmap list sorting.

Local Open Scope Z_scope.

(** ** Machine integers, faults and vectors *)

Definition INT_MIN : Z := -2147483648.

Inductive Fault : Set :=
  | DivisionByZero   (* [a / 0] or [a % 0] on [int] *)
  | SignedOverflow   (* [INT_MIN / -1] *)
  | OutOfRange       (* [v[i]] outside [0 .. v.size()), [front()] of an empty deque *)
  | LengthError.     (* [resize] to a negative [int] converted to [size_t] *)

Inductive result (A : Type) : Type :=
  | Ok (a : A)
  | Err (f : Fault).
Arguments Ok {A} a.
Arguments Err {A} f.

#[global] Instance result_ret : MRet result := λ A a, Ok a.
#[global] Instance result_bind : MBind result :=
  λ A B k m, match m with Ok a => k a | Err f => Err f end.

(** [a / b] on [int]: truncation towards zero. *)
Definition int_div (a b : Z) : result Z :=
  if bool_decide (b = 0) then Err DivisionByZero
  else if bool_decide (a = INT_MIN ∧ b = -1) then Err SignedOverflow
  else Ok (Z.quot a b).

(** [a % b] on [int]: the sign follows the dividend. *)
Definition int_rem (a b : Z) : result Z :=
  if bool_decide (b = 0) then Err DivisionByZero
  else if bool_decide (a = INT_MIN ∧ b = -1) then Err SignedOverflow
  else Ok (Z.rem a b).

(** [v[i]] as an rvalue. *)
Definition vec_get {A : Type} (v : list A) (i : Z) : result A :=
  if bool_decide (0 ≤ i) then
    match v !! Z.to_nat i with
    | Some x => Ok x
    | None => Err OutOfRange
    end
  else Err OutOfRange.

(** [v[i] = x]. *)
Definition vec_set {A : Type} (v : list A) (i : Z) (x : A) : result (list A) :=
  if bool_decide (0 ≤ i < Z.of_nat (length v)) then Ok (<[Z.to_nat i := x]> v)
  else Err OutOfRange.

(** [v.resize(n)] on an empty vector, [n] an [int]. *)
Definition vec_resize {A : Type} (n : Z) (x : A) : result (list A) :=
  if bool_decide (0 ≤ n) then Ok (replicate (Z.to_nat n) x) else Err LengthError.

(** ** Enumerations and blocks *)

Inductive ReplacementPolicy : Set := FIFO | LRU | RANDOM.

#[global] Instance ReplacementPolicy_eq_dec : EqDecision ReplacementPolicy.
Proof. solve_decision. Defined.

Record CacheBlock : Set := mkCacheBlock { tag : Z; valid : bool }.

#[global] Instance CacheBlock_eq_dec : EqDecision CacheBlock.
Proof. solve_decision. Defined.

(** [CacheBlock() : tag(-1), valid(false)] *)
Definition empty_block : CacheBlock := mkCacheBlock (-1) false.

(** ** The environment of one probe

    A probe reads the clock at most twice (once for [oldestTime], once for
    the stamp it stores), shuffles [randomIndices] at most once and draws at
    most one [std::rand] number. *)

Record Oracle : Type := mkOracle {
  time_scan : Z;        (* [int oldestTime = std::time(nullptr)] *)
  time_stamp : Z;       (* [static_cast<int>(std::time(nullptr))] stored in [lruMap] *)
  shuffled : list Z;    (* [randomIndices] after [std::shuffle] *)
  rand : Z              (* [std::rand()] *)
}.

(** The [lruMap] scan of [replace]: [lruTag] starts at [-1], [oldestTime] at
    the current time, and an entry replaces the candidate when its stamp is
    strictly older.  [std::unordered_map] fixes no iteration order; the model
    iterates in the order of [map_to_list].  The order decides the scan only
    between entries that tie for the oldest stamp ([lru_scan_min],
    [lru_scan_none]), and no statement below rests on such a tie. *)
Definition lru_step (acc : Z * Z) (e : Z * Z) : Z * Z :=
  if bool_decide (e.2 < acc.2) then e else acc.

Definition lru_scan (entries : list (Z * Z)) (now : Z) : Z * Z :=
  foldl lru_step (-1, now) entries.

Definition lru_victim (m : gmap Z Z) (now : Z) : Z :=
  (lru_scan (map_to_list m) now).1.

(** [for (i = 0; i < numBlocks; ++i) if (blocks[i].tag == t) ...]: the first
    index whose block carries tag [t] (the [valid] bit is not consulted). *)
Fixpoint find_tag (bs : list CacheBlock) (t : Z) (idx : list Z) : result (option Z) :=
  match idx with
  | [] => Ok None
  | i :: idx' =>
      b ← vec_get bs i;
      if bool_decide (tag b = t) then Ok (Some i) else find_tag bs t idx'
  end.

(** [for (i = 0; i < numBlocks; ++i) if (!blocks[randomIndices[i]].valid) ...]:
    the first slot, in shuffled order, that is not valid. *)
Fixpoint find_free (bs : list CacheBlock) (ri : list Z) (idx : list Z) : result (option Z) :=
  match idx with
  | [] => Ok None
  | i :: idx' =>
      r ← vec_get ri i;
      b ← vec_get bs r;
      if valid b then find_free bs ri idx' else Ok (Some r)
  end.

(** ** class Cache *)

Module Cache.

Record t : Type := mk {
  size : Z;
  blockSize : Z;
  numBlocks : Z;
  policy : ReplacementPolicy;
  accessTime : Z;
  blocks : list CacheBlock;
  fifoQueue : list Z;
  lruMap : gmap Z Z;
  randomIndices : list Z
}.

Definition set_blocks (c : t) (bs : list CacheBlock) : t :=
  mk (size c) (blockSize c) (numBlocks c) (policy c) (accessTime c)
     bs (fifoQueue c) (lruMap c) (randomIndices c).
Definition set_fifoQueue (c : t) (q : list Z) : t :=
  mk (size c) (blockSize c) (numBlocks c) (policy c) (accessTime c)
     (blocks c) q (lruMap c) (randomIndices c).
Definition set_lruMap (c : t) (m : gmap Z Z) : t :=
  mk (size c) (blockSize c) (numBlocks c) (policy c) (accessTime c)
     (blocks c) (fifoQueue c) m (randomIndices c).
Definition set_randomIndices (c : t) (ri : list Z) : t :=
  mk (size c) (blockSize c) (numBlocks c) (policy c) (accessTime c)
     (blocks c) (fifoQueue c) (lruMap c) ri.

(** [Cache(int s, int bs, int at, ReplacementPolicy rp)] *)
Definition Cache (s bs at_ : Z) (rp : ReplacementPolicy) : result t :=
  n ← int_div s bs;
  blks ← vec_resize n empty_block;
  Ok (mk s bs n rp at_ blks [] ∅
         (if decide (rp = RANDOM) then seqZ 0 n else [])).

(** [int getIndex(int address)] *)
Definition getIndex (c : t) (address : Z) : result Z :=
  q ← int_div address (blockSize c);
  int_rem q (numBlocks c).

(** [void replace(int index, int tag)] *)
Definition replace (c : t) (o : Oracle) (index tg : Z) : result t :=
  match policy c with
  | FIFO =>
      if bool_decide (Z.of_nat (length (fifoQueue c)) = numBlocks c) then
        match fifoQueue c with
        | [] => Err OutOfRange
        | oldIndex :: q =>
            bs ← vec_set (blocks c) oldIndex (mkCacheBlock tg true);
            Ok (set_fifoQueue (set_blocks c bs) (q ++ [index]))
        end
      else
        bs ← vec_set (blocks c) index (mkCacheBlock tg true);
        Ok (set_fifoQueue (set_blocks c bs) (fifoQueue c ++ [index]))
  | LRU =>
      if bool_decide (Z.of_nat (base.size (lruMap c)) = numBlocks c) then
        let lruTag := lru_victim (lruMap c) (time_scan o) in
        let m := delete lruTag (lruMap c) in
        r ← find_tag (blocks c) lruTag (seqZ 0 (numBlocks c));
        match r with
        | Some i =>
            bs ← vec_set (blocks c) i (mkCacheBlock tg true);
            Ok (set_lruMap (set_blocks c bs) (<[tg := time_stamp o]> m))
        | None => Ok (set_lruMap c m)
        end
      else
        bs ← vec_set (blocks c) index (mkCacheBlock tg true);
        Ok (set_lruMap (set_blocks c bs) (<[tg := time_stamp o]> (lruMap c)))
  | RANDOM =>
      let c1 := set_randomIndices c (shuffled o) in
      r ← find_free (blocks c1) (randomIndices c1) (seqZ 0 (numBlocks c1));
      match r with
      | Some j =>
          bs ← vec_set (blocks c1) j (mkCacheBlock tg true);
          Ok (set_blocks c1 bs)
      | None =>
          randomIndex ← int_rem (rand o) (numBlocks c1);
          bs ← vec_set (blocks c1) randomIndex (mkCacheBlock tg true);
          Ok (set_blocks c1 bs)
      end
  end.

(** [int access(int address)]: the access time on a hit, [-1] on a miss. *)
Definition access (c : t) (o : Oracle) (address : Z) : result (t * Z) :=
  index ← getIndex c address;
  tg ← int_div address (blockSize c);
  b ← vec_get (blocks c) index;
  if valid b && bool_decide (tag b = tg) then
    Ok (match policy c with
        | LRU => set_lruMap c (<[tg := time_stamp o]> (lruMap c))
        | _ => c
        end, accessTime c)
  else
    c' ← replace c o index tg;
    Ok (c', -1).

(** A trace-driven run of one level: the addresses are probed in order,
    each with its own oracle; the result lists what [access] returned. *)
Fixpoint run (c : t) (probes : list (Oracle * Z)) : result (t * list Z) :=
  match probes with
  | [] => Ok (c, [])
  | (o, a) :: rest =>
      '(c1, r) ← access c o a;
      '(c2, rs) ← run c1 rest;
      Ok (c2, r :: rs)
  end.

End Cache.

(** ** class TLB

    The class repeats [Cache] member for member, without a block size: the
    page number is both the tag and the dividend of the index. *)

Module TLB.

Record t : Type := mk {
  size : Z;
  numBlocks : Z;
  accessTime : Z;
  policy : ReplacementPolicy;
  blocks : list CacheBlock;
  fifoQueue : list Z;
  lruMap : gmap Z Z;
  randomIndices : list Z
}.

Definition set_blocks (c : t) (bs : list CacheBlock) : t :=
  mk (size c) (numBlocks c) (accessTime c) (policy c)
     bs (fifoQueue c) (lruMap c) (randomIndices c).
Definition set_fifoQueue (c : t) (q : list Z) : t :=
  mk (size c) (numBlocks c) (accessTime c) (policy c)
     (blocks c) q (lruMap c) (randomIndices c).
Definition set_lruMap (c : t) (m : gmap Z Z) : t :=
  mk (size c) (numBlocks c) (accessTime c) (policy c)
     (blocks c) (fifoQueue c) m (randomIndices c).
Definition set_randomIndices (c : t) (ri : list Z) : t :=
  mk (size c) (numBlocks c) (accessTime c) (policy c)
     (blocks c) (fifoQueue c) (lruMap c) ri.

(** [TLB(int s, int at, ReplacementPolicy rp)] *)
Definition TLB (s at_ : Z) (rp : ReplacementPolicy) : result t :=
  blks ← vec_resize s empty_block;
  Ok (mk s s at_ rp blks [] ∅
         (if decide (rp = RANDOM) then seqZ 0 s else [])).

(** [int getIndex(int page)] *)
Definition getIndex (c : t) (page : Z) : result Z :=
  int_rem page (numBlocks c).

Definition getSize (c : t) : Z := size c.
Definition getAccessTime (c : t) : Z := accessTime c.

(** [void replace(int index, int page)] *)
Definition replace (c : t) (o : Oracle) (index page : Z) : result t :=
  match policy c with
  | FIFO =>
      if bool_decide (Z.of_nat (length (fifoQueue c)) = numBlocks c) then
        match fifoQueue c with
        | [] => Err OutOfRange
        | oldIndex :: q =>
            bs ← vec_set (blocks c) oldIndex (mkCacheBlock page true);
            Ok (set_fifoQueue (set_blocks c bs) (q ++ [index]))
        end
      else
        bs ← vec_set (blocks c) index (mkCacheBlock page true);
        Ok (set_fifoQueue (set_blocks c bs) (fifoQueue c ++ [index]))
  | LRU =>
      if bool_decide (Z.of_nat (base.size (lruMap c)) = numBlocks c) then
        let lruPage := lru_victim (lruMap c) (time_scan o) in
        let m := delete lruPage (lruMap c) in
        r ← find_tag (blocks c) lruPage (seqZ 0 (numBlocks c));
        match r with
        | Some i =>
            bs ← vec_set (blocks c) i (mkCacheBlock page true);
            Ok (set_lruMap (set_blocks c bs) (<[page := time_stamp o]> m))
        | None => Ok (set_lruMap c m)
        end
      else
        bs ← vec_set (blocks c) index (mkCacheBlock page true);
        Ok (set_lruMap (set_blocks c bs) (<[page := time_stamp o]> (lruMap c)))
  | RANDOM =>
      let c1 := set_randomIndices c (shuffled o) in
      r ← find_free (blocks c1) (randomIndices c1) (seqZ 0 (numBlocks c1));
      match r with
      | Some j =>
          bs ← vec_set (blocks c1) j (mkCacheBlock page true);
          Ok (set_blocks c1 bs)
      | None =>
          randomIndex ← int_rem (rand o) (numBlocks c1);
          bs ← vec_set (blocks c1) randomIndex (mkCacheBlock page true);
          Ok (set_blocks c1 bs)
      end
  end.

(** [int access(int page)] *)
Definition access (c : t) (o : Oracle) (page : Z) : result (t * Z) :=
  index ← getIndex c page;
  b ← vec_get (blocks c) index;
  if valid b && bool_decide (tag b = page) then
    Ok (match policy c with
        | LRU => set_lruMap c (<[page := time_stamp o]> (lruMap c))
        | _ => c
        end, accessTime c)
  else
    c' ← replace c o index page;
    Ok (c', -1).

End TLB.

(** ** class PerformanceAnalyzer

    The counters are [int]s; they are kept as unbounded integers here, since
    a counter only grows by one per logged outcome. *)

(** [static_cast<double>(n)] for an [int] [n]; every [int] is exactly
    representable. *)
Definition double_of_int (z : Z) : float :=
  if bool_decide (0 ≤ z) then PrimFloat.of_uint63 (Uint63.of_Z z)
  else PrimFloat.opp (PrimFloat.of_uint63 (Uint63.of_Z (- z))).

(** An [int] converted to [size_t] for a comparison with [size()]. *)
Definition size_t_of_int (z : Z) : Z := z mod 2 ^ 64.

(** [v[i]++] for an index already checked against [v.size()]. *)
Definition incr (v : list Z) (i : Z) : list Z :=
  alter (λ x, x + 1) (Z.to_nat i) v.

Module PerformanceAnalyzer.

Record t : Type := mk {
  totalAccesses : Z;
  hits : Z;
  misses : Z;
  cacheHits : list Z;
  cacheMisses : list Z
}.

(** [PerformanceAnalyzer(int numCaches)] *)
Definition PerformanceAnalyzer (numCaches : Z) : result t :=
  h ← vec_resize numCaches 0;
  m ← vec_resize numCaches 0;
  Ok (mk 0 0 0 h m).

(** [void logAccess(bool hit, int cacheLevel)] *)
Definition logAccess (hit : bool) (cacheLevel : Z) (a : t) : t :=
  if hit then
    mk (totalAccesses a + 1) (hits a + 1) (misses a)
       (if bool_decide (size_t_of_int cacheLevel < Z.of_nat (length (cacheHits a))) then
          foldl incr (incr (cacheHits a) cacheLevel)
                (seqZ (cacheLevel + 1)
                      (Z.of_nat (length (cacheHits a)) - (cacheLevel + 1)))
        else cacheHits a)
       (cacheMisses a)
  else
    mk (totalAccesses a + 1) (hits a) (misses a + 1)
       (cacheHits a)
       (if bool_decide (size_t_of_int cacheLevel < Z.of_nat (length (cacheMisses a))) then
          incr (cacheMisses a) cacheLevel
        else cacheMisses a).

(** What [report] sends to the console, as values: the three totals, the
    two overall rates and, for [i = 0, 1, 2], the pair of rates computed
    from [cacheHits[i]]. *)
Record Report : Type := mkReport {
  shownTotalAccesses : Z;
  shownHits : Z;
  shownMisses : Z;
  overallHitRate : float;
  overallMissRate : float;
  levelRates : list (float * float)
}.

(** [static_cast<double>(n) / totalAccesses * 100] *)
Definition percentage (n total : Z) : float :=
  PrimFloat.mul (PrimFloat.div (double_of_int n) (double_of_int total))
                (double_of_int 100).

(** [(1 - static_cast<double>(n) / totalAccesses) * 100] *)
Definition complement_percentage (n total : Z) : float :=
  PrimFloat.mul
    (PrimFloat.sub (double_of_int 1)
                   (PrimFloat.div (double_of_int n) (double_of_int total)))
    (double_of_int 100).

(** The indices [report] reads from [cacheHits]: [for (size_t i = 0; i < 3; ++i)]. *)
Definition report_indices : list Z := seqZ 0 3.

(** [void report()] *)
Definition report (a : t) : result Report :=
  rates ← mapM (λ i, h ← vec_get (cacheHits a) i;
                     Ok (percentage h (totalAccesses a),
                         complement_percentage h (totalAccesses a)))
               report_indices;
  Ok (mkReport (totalAccesses a) (hits a) (misses a)
               (percentage (hits a) (totalAccesses a))
               (percentage (misses a) (totalAccesses a))
               rates).

End PerformanceAnalyzer.

(** ** class MemoryHierarchy *)

(** The level a logged outcome reports on, as named in the message printed
    next to the [logAccess] call ("TLB Hit", "Miss in L2 Cache", "Hit in
    RAM", "Accessing Disk"); [AtCache i] is cache [caches[i]], printed as
    L(i+1). *)
Inductive HierarchyLevel : Set :=
  | AtTLB
  | AtCache (i : nat)
  | AtRAM
  | AtDISK.

#[global] Instance HierarchyLevel_eq_dec : EqDecision HierarchyLevel.
Proof. solve_decision. Defined.

(** One [analyzer.logAccess(hit, loggedAs)] call together with the level it
    reports on. *)
Record AccessOutcome : Set := mkOutcome {
  level : HierarchyLevel;
  hit : bool;
  loggedAs : Z
}.

(** The oracles of one [simulateAccess] call, one per probe site. *)
Record AccessOracles : Type := mkAccessOracles {
  for_tlb : Oracle;
  for_translation : Oracle;     (* [ram.access] after a TLB miss *)
  for_cache : nat → Oracle;     (* [caches[i].access] *)
  for_ram : Oracle              (* [ram.access] after the cache loop *)
}.

Module MemoryHierarchy.

Record t : Type := mk {
  caches : list Cache.t;
  tlb : TLB.t;
  ram : Cache.t;
  diskAccessTime : Z;
  analyzer : PerformanceAnalyzer.t
}.

(** The constructor's loop
    [caches.emplace_back(cacheSizes[i], blockSizes[i], accessTimes[i], policies[i])]. *)
Fixpoint emplace_caches (cacheSizes blockSizes accessTimes : list Z)
    (policies : list ReplacementPolicy) (idx : list Z) : result (list Cache.t) :=
  match idx with
  | [] => Ok []
  | i :: idx' =>
      s ← vec_get cacheSizes i;
      bs ← vec_get blockSizes i;
      at_ ← vec_get accessTimes i;
      rp ← vec_get policies i;
      c ← Cache.Cache s bs at_ rp;
      cs ← emplace_caches cacheSizes blockSizes accessTimes policies idx';
      Ok (c :: cs)
  end.

(** [MemoryHierarchy(cacheSizes, blockSizes, accessTimes, policies, ramSize,
    ramBlockSize, ramAt, ramPolicy, diskSize, diskAt, tlbSize, tlbAt,
    tlbPolicy)] *)
Definition MemoryHierarchy (cacheSizes blockSizes accessTimes : list Z)
    (policies : list ReplacementPolicy)
    (ramSize ramBlockSize ramAt : Z) (ramPolicy : ReplacementPolicy)
    (diskSize diskAt tlbSize tlbAt : Z) (tlbPolicy : ReplacementPolicy) : result t :=
  r ← Cache.Cache ramSize ramBlockSize ramAt ramPolicy;
  an ← PerformanceAnalyzer.PerformanceAnalyzer (Z.of_nat (length cacheSizes) + 1);
  cs ← emplace_caches cacheSizes blockSizes accessTimes policies
         (seqZ 0 (Z.of_nat (length cacheSizes)));
  tl ← TLB.TLB tlbSize tlbAt tlbPolicy;
  Ok (mk cs tl r diskAt an).

(** The cache loop of [simulateAccess]
    [for (size_t i = 0; i < caches.size(); ++i)], entered at cache [i] with
    [cs] the caches from [i] on.  It returns the caches as the probes left
    them, the analyzer, the outcomes logged and whether a cache hit (in
    which case [simulateAccess] returns at once). *)
Fixpoint probe_caches (oc : nat → Oracle) (address : Z) (i : nat)
    (cs : list Cache.t) (an : PerformanceAnalyzer.t)
    : result (list Cache.t * PerformanceAnalyzer.t * list AccessOutcome * bool) :=
  match cs with
  | [] => Ok ([], an, [], false)
  | c :: rest =>
      '(c', time) ← Cache.access c (oc i) address;
      if bool_decide (time ≠ -1) then
        Ok (c' :: rest,
            PerformanceAnalyzer.logAccess true (Z.of_nat i + 1) an,
            [mkOutcome (AtCache i) true (Z.of_nat i + 1)], true)
      else
        '(rest', an', tr, h) ←
           probe_caches oc address (S i) rest
             (PerformanceAnalyzer.logAccess false (Z.of_nat i + 1) an);
        Ok (c' :: rest', an',
            mkOutcome (AtCache i) false (Z.of_nat i + 1) :: tr, h)
  end.

(** The tail shared by the three branches of [simulateAccess] (after a TLB
    hit, after a TLB miss with a RAM hit, after a TLB miss with a RAM
    miss): the cache loop, then "If all caches miss, access RAM", then
    "Access disk". *)
Definition data_path (h : t) (os : AccessOracles) (address : Z)
    : result (t * list AccessOutcome) :=
  '(cs, an, tr, found) ← probe_caches (for_cache os) address 0%nat (caches h) (analyzer h);
  if (found : bool) then Ok (mk cs (tlb h) (ram h) (diskAccessTime h) an, tr)
  else
    '(r, time) ← Cache.access (ram h) (for_ram os) address;
    let n := Z.of_nat (length cs) in
    if bool_decide (time ≠ -1) then
      Ok (mk cs (tlb h) r (diskAccessTime h)
             (PerformanceAnalyzer.logAccess true n an),
          tr ++ [mkOutcome AtRAM true n])
    else
      Ok (mk cs (tlb h) r (diskAccessTime h)
             (PerformanceAnalyzer.logAccess true (n + 1)
                (PerformanceAnalyzer.logAccess false (n + 1)
                   (PerformanceAnalyzer.logAccess false n an))),
          tr ++ [mkOutcome AtRAM false n;
                 mkOutcome AtDISK false (n + 1);
                 mkOutcome AtDISK true (n + 1)]).

Definition set_tlb (h : t) (tl : TLB.t) : t :=
  mk (caches h) tl (ram h) (diskAccessTime h) (analyzer h).
Definition set_ram (h : t) (r : Cache.t) : t :=
  mk (caches h) (tlb h) r (diskAccessTime h) (analyzer h).
Definition log (hit : bool) (lvl : Z) (h : t) : t :=
  mk (caches h) (tlb h) (ram h) (diskAccessTime h)
     (PerformanceAnalyzer.logAccess hit lvl (analyzer h)).

(** [void simulateAccess(int address)], returning the hierarchy and the
    outcomes logged, in order. *)
Definition simulateAccess (h : t) (os : AccessOracles) (address : Z)
    : result (t * list AccessOutcome) :=
  page ← int_div address (TLB.getSize (tlb h));
  '(tl, time) ← TLB.access (tlb h) (for_tlb os) page;
  let h := set_tlb h tl in
  let n := Z.of_nat (length (caches h)) in
  if bool_decide (time ≠ -1) then
    '(h', tr) ← data_path (log true 0 h) os address;
    Ok (h', mkOutcome AtTLB true 0 :: tr)
  else
    let h := log false 0 h in
    '(r, time) ← Cache.access (ram h) (for_translation os) address;
    let h := set_ram h r in
    if bool_decide (time ≠ -1) then
      '(h', tr) ← data_path (log true n h) os address;
      Ok (h', mkOutcome AtTLB false 0 :: mkOutcome AtRAM true n :: tr)
    else
      '(h', tr) ← data_path (log false (n + 1) (log false n h)) os address;
      Ok (h', mkOutcome AtTLB false 0 :: mkOutcome AtRAM false n
                :: mkOutcome AtDISK false (n + 1) :: tr).

(** The loop of [runSimulation] over the generated addresses, each access
    with its own oracles, followed by [analyzer.report()]. *)
Fixpoint simulateAll (h : t) (accesses : list (AccessOracles * Z))
    : result (t * list (list AccessOutcome)) :=
  match accesses with
  | [] => Ok (h, [])
  | (os, a) :: rest =>
      '(h1, tr) ← simulateAccess h os a;
      '(h2, trs) ← simulateAll h1 rest;
      Ok (h2, tr :: trs)
  end.

Definition runSimulation (h : t) (accesses : list (AccessOracles * Z))
    : result PerformanceAnalyzer.Report :=
  '(h', _) ← simulateAll h accesses;
  PerformanceAnalyzer.report (analyzer h').

End MemoryHierarchy.

(** ** Address patterns

    The three generators build the address vector of a run.  Their loops run
    on [int] counters; an addition that leaves the range of [int] is a
    [Fault].  The two loops whose exit depends on the arguments take fuel,
    one unit per test of the loop condition, and return [None] when it runs
    out; the draws of [std::rand] are given as a function of the round. *)

Definition INT_MAX : Z := 2147483647.

(** [a + b] on [int]. *)
Definition int_add (a b : Z) : result Z :=
  if bool_decide (INT_MIN ≤ a + b ≤ INT_MAX) then Ok (a + b) else Err SignedOverflow.

(** [a - b] on [int]. *)
Definition int_sub (a b : Z) : result Z :=
  if bool_decide (INT_MIN ≤ a - b ≤ INT_MAX) then Ok (a - b) else Err SignedOverflow.

(** [for (int addr = ...; addr <= endAddress; addr += step)
      addresses.push_back(addr);], entered with [addr] and the vector built
    so far. *)
Fixpoint sequential_loop (fuel : nat) (addr endAddress step : Z) (addresses : list Z)
    : option (result (list Z)) :=
  match fuel with
  | O => None
  | S fuel' =>
      if bool_decide (addr ≤ endAddress) then
        match int_add addr step with
        | Ok addr' => sequential_loop fuel' addr' endAddress step (addresses ++ [addr])
        | Err f => Some (Err f)
        end
      else Some (Ok addresses)
  end.

(** [std::vector<int> generateSequentialAccess(int startAddress, int endAddress,
    int step)] *)
Definition generateSequentialAccess (fuel : nat) (startAddress endAddress step : Z)
    : option (result (list Z)) :=
  sequential_loop fuel startAddress endAddress step [].

(** [for (int i = ...; i < count; ++i)
      addresses.push_back(rangeStart + std::rand() % (rangeEnd - rangeStart + 1));],
    entered at round [i] with [n] rounds to go. *)
Fixpoint random_loop (draw : nat → Z) (i n : nat) (rangeStart rangeEnd : Z)
    (addresses : list Z) : result (list Z) :=
  match n with
  | O => Ok addresses
  | S n' =>
      width ← int_sub rangeEnd rangeStart;
      m ← int_add width 1;
      r ← int_rem (draw i) m;
      addr ← int_add rangeStart r;
      random_loop draw (S i) n' rangeStart rangeEnd (addresses ++ [addr])
  end.

(** [std::vector<int> generateRandomAccess(int rangeStart, int rangeEnd, int count)] *)
Definition generateRandomAccess (draw : nat → Z) (rangeStart rangeEnd count : Z)
    : result (list Z) :=
  random_loop draw 0 (Z.to_nat count) rangeStart rangeEnd [].

(** [for (int loop = ...; loop < loopCount; ++loop)
      for (int addr = startAddress; addr <= endAddress; ++addr)
        addresses.push_back(addr);], with [rounds] rounds of the outer loop to
    go; the inner loop is the loop of [generateSequentialAccess] at step
    one, run on the vector built so far. *)
Fixpoint loop_rounds (fuel rounds : nat) (startAddress endAddress : Z)
    (addresses : list Z) : option (result (list Z)) :=
  match rounds with
  | O => Some (Ok addresses)
  | S rounds' =>
      match sequential_loop fuel startAddress endAddress 1 addresses with
      | Some (Ok addresses') =>
          loop_rounds fuel rounds' startAddress endAddress addresses'
      | stopped => stopped
      end
  end.

(** [std::vector<int> generateLoopAccess(int startAddress, int endAddress,
    int loopCount)] *)
Definition generateLoopAccess (fuel : nat) (startAddress endAddress loopCount : Z)
    : option (result (list Z)) :=
  loop_rounds fuel (Z.to_nat loopCount) startAddress endAddress [].

(** [std::vector<int> generateAddresses(int patternChoice, int startAddress,
    int endAddress)] *)
Definition generateAddresses (fuel : nat) (draw : nat → Z)
    (patternChoice startAddress endAddress : Z) : option (result (list Z)) :=
  if bool_decide (patternChoice = 1) then
    generateSequentialAccess fuel startAddress endAddress 10
  else if bool_decide (patternChoice = 2) then
    Some (generateRandomAccess draw startAddress endAddress 20)
  else if bool_decide (patternChoice = 3) then
    generateLoopAccess fuel startAddress endAddress 5
  else
    generateSequentialAccess fuel startAddress endAddress 10.


(** * Specification vocabulary *)

(** ** Residency *)

(** Slot [i] holds tag [tg] and is occupied. *)
Definition resident_at (bs : list CacheBlock) (i : nat) (tg : Z) : Prop :=
  bs !! i = Some (mkCacheBlock tg true).

Definition resident (bs : list CacheBlock) (tg : Z) : Prop :=
  ∃ i, resident_at bs i tg.

Definition no_duplicate_residency (bs : list CacheBlock) : Prop :=
  ∀ i j tg, resident_at bs i tg → resident_at bs j tg → i = j.

(** The tags of the occupied blocks, in slot order. *)
Definition resident_tags (bs : list CacheBlock) : list Z :=
  tag <$> filter (λ b, Is_true (valid b)) bs.



(** Every occupied block sits in the slot in which [access] looks its tag
    up. *)
Definition at_home (c : Cache.t) : Prop :=
  ∀ i b, Cache.blocks c !! i = Some b → valid b = true →
         Z.rem (tag b) (Cache.numBlocks c) = Z.of_nat i.

(** The next admission takes the branch of [replace] that writes the slot
    it was handed, the home slot of the probed tag. *)
Definition fills_home_slot (c : Cache.t) : Prop :=
  match Cache.policy c with
  | FIFO => Z.of_nat (length (Cache.fifoQueue c)) ≠ Cache.numBlocks c
  | LRU => Z.of_nat (base.size (Cache.lruMap c)) ≠ Cache.numBlocks c
  | RANDOM => False
  end.

(** ** Well-formed levels and admissible environments *)

(** What the constructor establishes, for a positive block size and at
    least one block, and what every probe of a non-negative address keeps. *)
Definition well_formed (c : Cache.t) : Prop :=
  0 < Cache.blockSize c
  ∧ 0 < Cache.numBlocks c
  ∧ Z.of_nat (length (Cache.blocks c)) = Cache.numBlocks c
  ∧ Forall (λ i, 0 ≤ i < Cache.numBlocks c) (Cache.fifoQueue c)
  ∧ Z.of_nat (length (Cache.fifoQueue c)) ≤ Cache.numBlocks c
  ∧ (Cache.policy c = RANDOM → Cache.randomIndices c ≡ₚ seqZ 0 (Cache.numBlocks c)).

(** [std::shuffle] leaves a permutation of [randomIndices], which in a
    well-formed Random level hold the indices [0 .. numBlocks), and
    [std::rand] draws a number in [0 .. RAND_MAX]. *)
Definition fair (c : Cache.t) (o : Oracle) : Prop :=
  Cache.policy c = RANDOM →
  shuffled o ≡ₚ seqZ 0 (Cache.numBlocks c) ∧ 0 ≤ rand o.

(** The unchanging members of a level. *)
Definition same_shape (c c' : Cache.t) : Prop :=
  Cache.size c' = Cache.size c
  ∧ Cache.blockSize c' = Cache.blockSize c
  ∧ Cache.numBlocks c' = Cache.numBlocks c
  ∧ Cache.policy c' = Cache.policy c
  ∧ Cache.accessTime c' = Cache.accessTime c.

(** ** The TLB as a cache of block size one *)

Definition TLB_as_cache (t : TLB.t) : Cache.t :=
  Cache.mk (TLB.size t) 1 (TLB.numBlocks t) (TLB.policy t) (TLB.accessTime t)
    (TLB.blocks t) (TLB.fifoQueue t) (TLB.lruMap t) (TLB.randomIndices t).

Definition cache_as_TLB (c : Cache.t) : TLB.t :=
  TLB.mk (Cache.size c) (Cache.numBlocks c) (Cache.accessTime c) (Cache.policy c)
    (Cache.blocks c) (Cache.fifoQueue c) (Cache.lruMap c) (Cache.randomIndices c).

(** ** Well-formed hierarchies *)

Definition hierarchy_well_formed (h : MemoryHierarchy.t) : Prop :=
  Forall well_formed (MemoryHierarchy.caches h)
  ∧ well_formed (MemoryHierarchy.ram h)
  ∧ well_formed (TLB_as_cache (MemoryHierarchy.tlb h))
  ∧ 0 < TLB.size (MemoryHierarchy.tlb h).


(** ** Clocks and recency orders *)

(** The clock readings of successive probes advance: each probe reads the
    clock later than [last], the reading stored as a stamp is not earlier
    than the one taken for [oldestTime], and the next probe reads later
    still. *)
Fixpoint advances_from (last : Z) (os : list Oracle) : Prop :=
  match os with
  | [] => True
  | o :: os' =>
      last < time_scan o ∧ time_scan o ≤ time_stamp o
      ∧ advances_from (time_stamp o) os'
  end.

(** Two stamp maps record the same relative recency order. *)
Definition same_order (m1 m2 : gmap Z Z) : Prop :=
  dom m1 = dom m2
  ∧ ∀ k k' v1 v1' v2 v2',
      m1 !! k = Some v1 → m1 !! k' = Some v1' →
      m2 !! k = Some v2 → m2 !! k' = Some v2' →
      (v1 < v1' ↔ v2 < v2').

(** No stamp is later than [t], and no two tags carry the same stamp. *)
Definition stamped_by (m : gmap Z Z) (t : Z) : Prop :=
  (∀ k v, m !! k = Some v → v ≤ t)
  ∧ (∀ k k' v, m !! k = Some v → m !! k' = Some v → k = k').

(** ** Outcome traces and counters *)

(** The fixed order TLB < L1 < L2 < ... < RAM < DISK. *)
Definition level_le (a b : HierarchyLevel) : Prop :=
  match a, b with
  | AtTLB, _ => True
  | AtCache i, AtCache j => (i ≤ j)%nat
  | AtCache _, (AtRAM | AtDISK) => True
  | AtRAM, (AtRAM | AtDISK) => True
  | AtDISK, AtDISK => True
  | _, _ => False
  end.

Definition non_decreasing (ls : list HierarchyLevel) : Prop := Sorted level_le ls.

(** The levels below the TLB in probing order, for [n] cache levels; the
    disk is logged twice, once as the miss that reaches it and once as its
    hit. *)
Definition full_chain (n : nat) : list HierarchyLevel :=
  (AtCache <$> seq 0 n) ++ [AtRAM; AtDISK; AtDISK].

(** The analyzer after the [logAccess] calls of a trace. *)
Definition replay (tr : list AccessOutcome) (a : PerformanceAnalyzer.t)
    : PerformanceAnalyzer.t :=
  foldl (λ a e, PerformanceAnalyzer.logAccess (hit e) (loggedAs e) a) a tr.

(** How many outcomes of a trace satisfy [P]. *)
Definition count (P : AccessOutcome → Prop) `{∀ e, Decision (P e)}
    (tr : list AccessOutcome) : Z :=
  Z.of_nat (length (filter P tr)).


(** The counter index [simulateAccess] logs a level with, in a hierarchy of
    [n] caches. *)
Definition counter_index (n : nat) (l : HierarchyLevel) : Z :=
  match l with
  | AtTLB => 0
  | AtCache i => Z.of_nat i + 1
  | AtRAM => Z.of_nat n
  | AtDISK => Z.of_nat n + 1
  end.

(** An outcome is logged with the index of its level, and a cache it
    reports on is one of the [n] caches. *)
Definition logged_at (n : nat) (e : AccessOutcome) : Prop :=
  loggedAs e = counter_index n (level e)
  ∧ ∀ i, level e = AtCache i → (i < n)%nat.

(** A rate is reported as zero. *)
Definition zero_rate (x : float) : Prop := PrimFloat.eqb x 0%float = true.

(** A rate is not a number. *)
Definition nan_rate (x : float) : Prop := PrimFloat.is_nan x = true.

(** * Concrete levels, hierarchies and environments *)

(** The value of a computation known to succeed. *)
Definition unwrap {A : Type} (d : A) (r : result A) : A :=
  match r with Ok a => a | Err _ => d end.

Definition no_cache : Cache.t := Cache.mk 0 0 0 FIFO 0 [] [] ∅ [].

Definition no_hierarchy : MemoryHierarchy.t :=
  MemoryHierarchy.mk [] (TLB.mk 0 0 0 FIFO [] [] ∅ []) no_cache 0
    (PerformanceAnalyzer.mk 0 0 0 [] []).

(** A probe during which the clock reads [t] throughout. *)
Definition at_time (t : Z) : Oracle := mkOracle t t [] 0.

(** Every probe of one access made while the clock reads [t]. *)
Definition steady (t : Z) : AccessOracles :=
  mkAccessOracles (at_time t) (at_time t) (λ _, at_time t) (at_time t).

(** A two-block FIFO level and a trace on which it ends up holding one tag
    twice. *)
Definition fifo_demo : Cache.t := unwrap no_cache (Cache.Cache 2 1 1 FIFO).
Definition fifo_trace : list (Oracle * Z) :=
  [(at_time 0, 0); (at_time 0, 2); (at_time 0, 1); (at_time 0, 1); (at_time 0, 1)].

(** [fifo_demo] after probes of 0 and 2: slot 0 was written twice and is
    twice in the queue, which is full. *)
Definition fifo_full : Cache.t :=
  Cache.mk 2 1 2 FIFO 1 [mkCacheBlock 2 true; empty_block] [0; 0] ∅ [].

(** A two-block and a one-block LRU level, and a trace that leaves a stale
    tag in [lruMap]. *)
Definition lru_demo : Cache.t := unwrap no_cache (Cache.Cache 2 1 1 LRU).
Definition lru_single : Cache.t := unwrap no_cache (Cache.Cache 1 1 1 LRU).
Definition stale_trace : list (Oracle * Z) :=
  [(at_time 1, 0); (at_time 2, 2); (at_time 3, 1)].

(** [lru_demo] once both of its blocks are filled: tag 0 was used last, at
    time 3, and tag 1 at time 2. *)
Definition lru_warm : Cache.t :=
  Cache.mk 2 1 2 LRU 1 [mkCacheBlock 0 true; mkCacheBlock 1 true] []
    (<[0 := 3]> (<[1 := 2]> ∅)) [].

(** [lru_demo] after a first probe, of address 1 at time 2. *)
Definition lru_first : Cache.t :=
  Cache.mk 2 1 2 LRU 1 [empty_block; mkCacheBlock 1 true] [] (<[1 := 2]> ∅) [].

(** The scenario trace 0, 1, 0, 2, once within one clock second and once
    with the clock advancing by a second per probe. *)
Definition same_second_trace : list (Oracle * Z) :=
  [(at_time 5, 0); (at_time 5, 1); (at_time 5, 0); (at_time 5, 2)].
Definition advancing_trace : list (Oracle * Z) :=
  [(at_time 1, 0); (at_time 2, 1); (at_time 3, 0); (at_time 4, 2)].



(** Hierarchies of three, two and one cache levels, with a FIFO RAM and a
    two-entry FIFO TLB. *)
Definition three_level_demo : MemoryHierarchy.t :=
  unwrap no_hierarchy
    (MemoryHierarchy.MemoryHierarchy [4; 8; 16] [1; 1; 1] [1; 2; 3] [FIFO; LRU; RANDOM]
       32 1 5 FIFO 100 9 2 1 FIFO).
Definition two_level_demo : MemoryHierarchy.t :=
  unwrap no_hierarchy
    (MemoryHierarchy.MemoryHierarchy [4; 8] [1; 1] [1; 2] [FIFO; LRU]
       32 1 5 FIFO 100 9 2 1 FIFO).
Definition one_level_demo : MemoryHierarchy.t :=
  unwrap no_hierarchy
    (MemoryHierarchy.MemoryHierarchy [4] [1] [3] [FIFO] 8 1 5 FIFO 100 9 2 1 FIFO).

(** [one_level_demo] after a first access to address 0. *)
Definition warmed_up : MemoryHierarchy.t :=
  Eval vm_compute in
  unwrap no_hierarchy
    ('(h, _) ← MemoryHierarchy.simulateAccess one_level_demo (steady 1) 0; Ok h).

(** A one-level hierarchy whose cache and TLB have access time -1, and the
    same after a first access to address 0, which leaves page 0 in the TLB
    and address 0 in the cache and in RAM. *)
Definition silent_demo : MemoryHierarchy.t :=
  unwrap no_hierarchy
    (MemoryHierarchy.MemoryHierarchy [4] [1] [-1] [FIFO] 8 1 5 FIFO 100 9 2 (-1) FIFO).
Definition silent_warmed : MemoryHierarchy.t :=
  Eval vm_compute in
  unwrap no_hierarchy
    ('(h, _) ← MemoryHierarchy.simulateAccess silent_demo (steady 1) 0; Ok h).

(** * Properties *)

(** ** Vectors and integers *)

Lemma vec_get_Ok {A : Type} (v : list A) (i : Z) (x : A) :
  vec_get v i = Ok x ↔ 0 ≤ i ∧ v !! Z.to_nat i = Some x.
Proof.
  unfold vec_get. case_bool_decide as Hi.
  - destruct (v !! Z.to_nat i); split; [| intros [_ [= ->]] | | intros [_ [=]]];
      first [done | by intros [= ->] | by intros [=]].
  - split; [done | intros [? _]; lia].
Qed.

Lemma vec_set_Ok {A : Type} (v : list A) (i : Z) (x : A) :
  0 ≤ i < Z.of_nat (length v) → vec_set v i x = Ok (<[Z.to_nat i := x]> v).
Proof. intros Hi. unfold vec_set. by rewrite bool_decide_eq_true_2. Qed.

Lemma vec_set_inv {A : Type} (v v' : list A) (i : Z) (x : A) :
  vec_set v i x = Ok v' →
  0 ≤ i < Z.of_nat (length v) ∧ v' = <[Z.to_nat i := x]> v.
Proof. unfold vec_set. case_bool_decide; [by intros [= <-] | done]. Qed.

Lemma vec_resize_Ok {A : Type} (n : Z) (x : A) :
  0 ≤ n → vec_resize n x = Ok (replicate (Z.to_nat n) x).
Proof. intros H. unfold vec_resize. by rewrite bool_decide_eq_true_2. Qed.

Lemma int_div_Ok (a b : Z) : 0 < b → int_div a b = Ok (a ÷ b).
Proof.
  intros H. unfold int_div.
  rewrite bool_decide_eq_false_2 by lia. by rewrite bool_decide_eq_false_2 by lia.
Qed.

Lemma int_rem_Ok (a b : Z) : 0 < b → int_rem a b = Ok (Z.rem a b).
Proof.
  intros H. unfold int_rem.
  rewrite bool_decide_eq_false_2 by lia. by rewrite bool_decide_eq_false_2 by lia.
Qed.

Lemma int_div_inv (a b q : Z) : int_div a b = Ok q → b ≠ 0 ∧ q = a ÷ b.
Proof.
  unfold int_div. repeat case_bool_decide; intros [=]. by subst.
Qed.

Lemma int_rem_inv (a b r : Z) : int_rem a b = Ok r → b ≠ 0 ∧ r = Z.rem a b.
Proof.
  unfold int_rem. repeat case_bool_decide; intros [=]. by subst.
Qed.

Lemma elem_of_seqZ_bounds (n i : Z) : i ∈ seqZ 0 n ↔ 0 ≤ i < n.
Proof. rewrite elem_of_seqZ. lia. Qed.

(** ** The error monad *)

Lemma bind_Ok {A B : Type} (m : result A) (k : A → result B) (b : B) :
  m ≫= k = Ok b ↔ ∃ a, m = Ok a ∧ k a = Ok b.
Proof.
  destruct m as [a | f]; simpl; split.
  - intros H. by exists a.
  - by intros (a' & [= <-] & H).
  - intros [=].
  - by intros (a' & [=] & _).
Qed.

Ltac inv_bind H :=
  repeat match type of H with
  | _ ≫= _ = Ok _ =>
      let x := fresh "x" in let Hx := fresh "Hx" in
      apply bind_Ok in H as (x & Hx & H)
  end.

(** ** Construction *)

Lemma Cache_Ok (s bs at_ : Z) (rp : ReplacementPolicy) :
  0 < bs → 0 ≤ s →
  Cache.Cache s bs at_ rp =
    Ok (Cache.mk s bs (s ÷ bs) rp at_ (replicate (Z.to_nat (s ÷ bs)) empty_block) [] ∅
          (if decide (rp = RANDOM) then seqZ 0 (s ÷ bs) else [])).
Proof.
  intros Hbs Hs. unfold Cache.Cache. rewrite int_div_Ok by done. simpl.
  rewrite vec_resize_Ok; [done |]. apply Z.quot_pos; lia.
Qed.

(** A level constructed with a positive block size and at least one block
    is well formed. *)
Lemma fresh_well_formed (s bs at_ : Z) (rp : ReplacementPolicy) :
  0 < bs → bs ≤ s →
  ∃ c, Cache.Cache s bs at_ rp = Ok c ∧ well_formed c
    ∧ Cache.policy c = rp ∧ Cache.lruMap c = ∅.
Proof.
  intros Hbs Hs. eexists. split; [apply Cache_Ok; lia |].
  assert (0 < s ÷ bs) by (apply Z.quot_str_pos; lia).
  unfold well_formed. simpl. rewrite length_replicate.
  repeat split; try lia; try done.
  intros ->. by rewrite decide_True.
Qed.

(** A fresh level has no occupied block, so none is away from home. *)
Lemma fresh_at_home (s bs at_ : Z) (rp : ReplacementPolicy) (c : Cache.t) :
  Cache.Cache s bs at_ rp = Ok c → at_home c.
Proof.
  unfold Cache.Cache. intros H. inv_bind H. injection H as <-.
  unfold vec_resize in Hx0. case_bool_decide; [| done]. injection Hx0 as <-.
  intros i b Hb Hv. simpl in Hb.
  apply lookup_replicate in Hb as [-> _]. done.
Qed.

(** C7, as the specification states it, fails: a cache of capacity zero is
    constructed without complaint, with no block at all, and the first
    index computation on it divides by zero. *)
Lemma zero_capacity_is_constructed :
  ∃ c, Cache.Cache 0 1 0 FIFO = Ok c ∧ Cache.numBlocks c = 0 ∧ Cache.blocks c = []
       ∧ Cache.getIndex c 0 = Err DivisionByZero.
Proof. eexists. repeat split; reflexivity. Qed.

(** C7, amended: for a positive block size and a non-negative capacity the
    constructor always succeeds, with [capacity / blockSize] blocks.  Below
    the block size that is no block, and then every index computation
    divides by zero; from the block size on it is at least one block, and
    then the index of every non-negative address lies within the blocks. *)
Theorem construction_block_count (s bs at_ : Z) (rp : ReplacementPolicy) :
  0 < bs → 0 ≤ s →
  ∃ c, Cache.Cache s bs at_ rp = Ok c
    ∧ Cache.numBlocks c = s ÷ bs
    ∧ Z.of_nat (length (Cache.blocks c)) = Cache.numBlocks c
    ∧ (s < bs → Cache.numBlocks c = 0
                ∧ ∀ a, Cache.getIndex c a = Err DivisionByZero)
    ∧ (bs ≤ s → 0 < Cache.numBlocks c
                ∧ ∀ a, 0 ≤ a → ∃ i, Cache.getIndex c a = Ok i
                                     ∧ 0 ≤ i < Cache.numBlocks c).
Proof.
  intros Hbs Hs. eexists. split; [by apply Cache_Ok |]. simpl.
  assert (0 ≤ s ÷ bs) by (apply Z.quot_pos; lia).
  split; [done |]. split; [rewrite length_replicate; lia |]. split.
  - intros Hlt. rewrite Z.quot_small by lia. split; [done |].
    intros a. unfold Cache.getIndex. simpl. by rewrite int_div_Ok.
  - intros Hle.
    assert (0 < s ÷ bs) by (apply Z.quot_str_pos; lia).
    split; [done |]. intros a Ha. exists (Z.rem (a ÷ bs) (s ÷ bs)).
    unfold Cache.getIndex. simpl. rewrite int_div_Ok by done. simpl.
    split; [by apply int_rem_Ok |].
    apply Z.rem_bound_pos; [apply Z.quot_pos; lia | done].
Qed.

Lemma construction_block_count_witness :
  ∃ c, Cache.Cache 8 2 1 LRU = Ok c
    ∧ Cache.numBlocks c = 8 ÷ 2
    ∧ Z.of_nat (length (Cache.blocks c)) = Cache.numBlocks c
    ∧ (8 < 2 → Cache.numBlocks c = 0
                ∧ ∀ a, Cache.getIndex c a = Err DivisionByZero)
    ∧ (2 ≤ 8 → 0 < Cache.numBlocks c
                ∧ ∀ a, 0 ≤ a → ∃ i, Cache.getIndex c a = Ok i
                                     ∧ 0 ≤ i < Cache.numBlocks c).
Proof. apply (construction_block_count 8 2 1 LRU); lia. Defined.

(** ** Searching the blocks *)

(** With all indices in range the scan for a free slot never faults: it
    returns a slot that is not occupied, or finds every slot it visited
    occupied. *)
Lemma find_free_spec (bs : list CacheBlock) (ri idx : list Z) :
  (∀ i, i ∈ idx → 0 ≤ i < Z.of_nat (length ri)) →
  (∀ r, r ∈ ri → 0 ≤ r < Z.of_nat (length bs)) →
  (∃ r b, find_free bs ri idx = Ok (Some r)
          ∧ 0 ≤ r < Z.of_nat (length bs)
          ∧ bs !! Z.to_nat r = Some b ∧ valid b = false)
  ∨ (find_free bs ri idx = Ok None
     ∧ ∀ i r b, i ∈ idx → ri !! Z.to_nat i = Some r →
                bs !! Z.to_nat r = Some b → valid b = true).
Proof.
  intros Hidx Hri. induction idx as [| i idx IH]; simpl.
  { right. split; [done |]. intros i r b Hi. by apply elem_of_nil in Hi. }
  destruct (Hidx i) as [Hi0 Hi1]; [by left |].
  destruct (lookup_lt_is_Some_2 ri (Z.to_nat i)) as [r Hr]; [lia |].
  assert (vec_get ri i = Ok r) as -> by (by apply vec_get_Ok).
  simpl. destruct (Hri r) as [Hr0 Hr1]; [by eapply list_elem_of_lookup_2 |].
  destruct (lookup_lt_is_Some_2 bs (Z.to_nat r)) as [b Hb]; [lia |].
  assert (vec_get bs r = Ok b) as -> by (by apply vec_get_Ok).
  simpl. destruct (valid b) eqn:Hv.
  - destruct IH as [IH | [IH1 IH2]].
    + intros i' Hi'. apply Hidx. by right.
    + by left.
    + right. split; [done |]. intros i' r' b' Hi' Hr' Hb'.
      apply elem_of_cons in Hi' as [-> | Hi']; [| by eapply IH2].
      congruence.
  - left. by exists r, b.
Qed.

(** Likewise for the scan for the block holding a given tag. *)
Lemma find_tag_spec (bs : list CacheBlock) (t : Z) (idx : list Z) :
  (∀ i, i ∈ idx → 0 ≤ i < Z.of_nat (length bs)) →
  (∃ i b, find_tag bs t idx = Ok (Some i) ∧ i ∈ idx
          ∧ bs !! Z.to_nat i = Some b ∧ tag b = t)
  ∨ (find_tag bs t idx = Ok None
     ∧ ∀ i b, i ∈ idx → bs !! Z.to_nat i = Some b → tag b ≠ t).
Proof.
  intros Hidx. induction idx as [| i idx IH]; simpl.
  { right. split; [done |]. intros i b Hi. by apply elem_of_nil in Hi. }
  destruct (Hidx i) as [Hi0 Hi1]; [by left |].
  destruct (lookup_lt_is_Some_2 bs (Z.to_nat i)) as [b Hb]; [lia |].
  assert (vec_get bs i = Ok b) as -> by (by apply vec_get_Ok).
  simpl. case_bool_decide as Ht.
  - left. exists i, b. repeat split; [by left | done | done].
  - destruct IH as [(i' & b' & IH & Hi' & Hb' & Ht') | [IH1 IH2]].
    + intros i' Hi'. apply Hidx. by right.
    + left. exists i', b'. repeat split; [done | by right | done | done].
    + right. split; [done |]. intros i' b' Hi' Hb'.
      apply elem_of_cons in Hi' as [-> | Hi']; [| by eapply IH2].
      congruence.
Qed.

(** ** Probes never fault on a well-formed level *)


(** On a well-formed level, in a fair environment and for an index within
    the blocks, [replace] returns, and the level stays well formed. *)
Lemma replace_total (c : Cache.t) (o : Oracle) (index tg : Z) :
  well_formed c → fair c o → 0 ≤ index < Cache.numBlocks c →
  ∃ c', Cache.replace c o index tg = Ok c' ∧ well_formed c' ∧ same_shape c c'.
Proof.
  intros (Hbs & Hn & Hlen & Hq & Hqlen & Hri) Hfair Hindex.
  unfold Cache.replace. destruct (Cache.policy c) eqn:Hpol.
  - (* FIFO *)
    case_bool_decide as Hfull.
    + destruct (Cache.fifoQueue c) as [| oldIndex q] eqn:Hqueue; simpl in *; [lia |].
      apply Forall_cons in Hq as [Hold Hq].
      rewrite vec_set_Ok by lia. simpl. eexists. split; [done |].
      split; [| by repeat split].
      unfold well_formed. simpl. rewrite length_insert, length_app. simpl.
      repeat split; try lia; try done.
      * apply Forall_app. split; [done |]. by apply Forall_singleton.
      * intros ?. congruence.
    + rewrite vec_set_Ok by lia. simpl. eexists. split; [done |].
      split; [| by repeat split].
      unfold well_formed. simpl. rewrite length_insert, length_app. simpl.
      repeat split; try lia; try done.
      * apply Forall_app. split; [done |]. by apply Forall_singleton.
      * intros ?. congruence.
  - (* LRU *)
    case_bool_decide as Hfull.
    + simpl.
      destruct (find_tag_spec (Cache.blocks c)
                  (lru_victim (Cache.lruMap c) (time_scan o))
                  (seqZ 0 (Cache.numBlocks c)))
        as [(i & b & -> & Hi & _) | [-> _]].
      * intros i Hi. apply elem_of_seqZ_bounds in Hi. lia.
      * apply elem_of_seqZ_bounds in Hi. simpl.
        rewrite vec_set_Ok by lia. simpl. eexists. split; [done |].
        split; [| by repeat split].
        unfold well_formed. simpl. rewrite length_insert.
        repeat split; try lia; try done. intros ?. congruence.
      * simpl. eexists. split; [done |]. split; [| by repeat split].
        unfold well_formed. simpl.
        repeat split; try lia; try done. intros ?. congruence.
    + rewrite vec_set_Ok by lia. simpl. eexists. split; [done |].
      split; [| by repeat split].
      unfold well_formed. simpl. rewrite length_insert.
      repeat split; try lia; try done. intros ?. congruence.
  - (* RANDOM *)
    destruct (Hfair Hpol) as [Hperm Hrand].
    simpl.
    assert (∀ j, 0 ≤ j < Cache.numBlocks c →
      well_formed (Cache.set_blocks (Cache.set_randomIndices c (shuffled o))
                     (<[Z.to_nat j := mkCacheBlock tg true]> (Cache.blocks c)))) as Hwf.
    { intros j Hj. unfold well_formed. simpl. rewrite length_insert.
      repeat split; try lia; try done. }
    destruct (find_free_spec (Cache.blocks c) (shuffled o) (seqZ 0 (Cache.numBlocks c)))
      as [(r & b' & -> & Hr & _) | [-> _]].
    + intros i Hi. apply elem_of_seqZ_bounds in Hi. rewrite Hperm, length_seqZ. lia.
    + intros r Hr. rewrite Hperm in Hr. apply elem_of_seqZ_bounds in Hr. lia.
    + simpl. rewrite vec_set_Ok by done. simpl. eexists. split; [done |].
      split; [apply Hwf; lia | by repeat split].
    + simpl. rewrite int_rem_Ok by done. simpl.
      pose proof (Z.rem_bound_pos (rand o) (Cache.numBlocks c) Hrand Hn) as Hrem.
      rewrite vec_set_Ok by lia. simpl. eexists. split; [done |].
      split; [apply Hwf; lia | by repeat split].
Qed.

Lemma getIndex_Ok (c : Cache.t) (address : Z) :
  well_formed c → 0 ≤ address →
  Cache.getIndex c address = Ok (Z.rem (address ÷ Cache.blockSize c) (Cache.numBlocks c))
  ∧ 0 ≤ Z.rem (address ÷ Cache.blockSize c) (Cache.numBlocks c) < Cache.numBlocks c.
Proof.
  intros (Hbs & Hn & _) Ha. unfold Cache.getIndex.
  rewrite int_div_Ok by done. simpl. split; [by apply int_rem_Ok |].
  apply Z.rem_bound_pos; [apply Z.quot_pos; lia | done].
Qed.

(** Hence so does [access], for every non-negative address. *)
Lemma access_total (c : Cache.t) (o : Oracle) (address : Z) :
  well_formed c → fair c o → 0 ≤ address →
  ∃ c' r, Cache.access c o address = Ok (c', r) ∧ well_formed c' ∧ same_shape c c'.
Proof.
  intros Hwf Hfair Ha.
  destruct (getIndex_Ok c address Hwf Ha) as [Hidx Hrange].
  unfold Cache.access. rewrite Hidx. simpl.
  destruct Hwf as (Hbs & Hn & Hlen & Hq & Hqlen & Hri).
  rewrite int_div_Ok by done. simpl.
  destruct (lookup_lt_is_Some_2 (Cache.blocks c)
              (Z.to_nat (Z.rem (address ÷ Cache.blockSize c) (Cache.numBlocks c))))
    as [b Hb]; [lia |].
  assert (vec_get (Cache.blocks c)
            (Z.rem (address ÷ Cache.blockSize c) (Cache.numBlocks c)) = Ok b) as ->.
  { apply vec_get_Ok. split; [lia | done]. }
  simpl. destruct (valid b && bool_decide (tag b = address ÷ Cache.blockSize c)).
  - eexists _, _. split; [done |].
    assert (∀ m, well_formed (Cache.set_lruMap c m)) as Hwf by (by repeat split).
    assert (well_formed c) as Hwf0 by (by repeat split).
    destruct (Cache.policy c); (split; [| by repeat split]);
      first [apply Hwf | apply Hwf0].
  - destruct (replace_total c o
                (Z.rem (address ÷ Cache.blockSize c) (Cache.numBlocks c))
                (address ÷ Cache.blockSize c)) as (c' & -> & Hwf' & Hshape);
      [by repeat split | done | done |].
    simpl. by eexists _, _.
Qed.

Lemma run_total (c : Cache.t) (probes : list (Oracle * Z)) :
  well_formed c → Cache.policy c ≠ RANDOM →
  Forall (λ p, 0 ≤ p.2) probes →
  ∃ c' rs, Cache.run c probes = Ok (c', rs).
Proof.
  revert c. induction probes as [| [o a] probes IH]; intros c Hwf Hpol Hpos; simpl.
  { by eexists _, _. }
  apply Forall_cons in Hpos as [Ha Hpos]. simpl in Ha.
  destruct (access_total c o a) as (c1 & r & -> & Hwf1 & Hshape); [done | | done |].
  { intros ?. done. }
  simpl. destruct (IH c1) as (c2 & rs & ->); [done | | done |].
  { destruct Hshape as (_ & _ & _ & -> & _). done. }
  simpl. by eexists _, _.
Qed.


(** ** The TLB probes like a cache of block size one *)

Lemma cache_as_TLB_as_cache (t : TLB.t) : cache_as_TLB (TLB_as_cache t) = t.
Proof. by destruct t. Qed.

Lemma TLB_replace_as_cache (t : TLB.t) (o : Oracle) (index page : Z) :
  TLB.replace t o index page =
    c ← Cache.replace (TLB_as_cache t) o index page; Ok (cache_as_TLB c).
Proof.
  unfold TLB.replace, Cache.replace. simpl. destruct (TLB.policy t).
  - case_bool_decide.
    + destruct (TLB.fifoQueue t); [done |]. simpl.
      by destruct (vec_set (TLB.blocks t) z _).
    + by destruct (vec_set (TLB.blocks t) index _).
  - case_bool_decide.
    + simpl. destruct (find_tag (TLB.blocks t) _ _) as [[i |] |]; simpl; try done.
      by destruct (vec_set (TLB.blocks t) i _).
    + by destruct (vec_set (TLB.blocks t) index _).
  - simpl. destruct (find_free (TLB.blocks t) _ _) as [[j |] |]; simpl; try done.
    + by destruct (vec_set (TLB.blocks t) j _).
    + destruct (int_rem (rand o) (TLB.numBlocks t)) as [r |]; simpl; [| done].
      by destruct (vec_set (TLB.blocks t) r _).
Qed.

(** [TLB::access] is [Cache::access] at block size one. *)
Lemma TLB_access_as_cache (t : TLB.t) (o : Oracle) (page : Z) :
  TLB.access t o page =
    '(c, r) ← Cache.access (TLB_as_cache t) o page; Ok (cache_as_TLB c, r).
Proof.
  unfold TLB.access, Cache.access, TLB.getIndex, Cache.getIndex. simpl.
  rewrite int_div_Ok by lia. rewrite Z.quot_1_r. simpl.
  destruct (int_rem page (TLB.numBlocks t)) as [index |]; simpl; [| done].
  destruct (vec_get (TLB.blocks t) index) as [b |]; simpl; [| done].
  destruct (valid b && bool_decide (tag b = page)).
  - simpl. by destruct (TLB.policy t), t.
  - rewrite TLB_replace_as_cache.
    by destruct (Cache.replace (TLB_as_cache t) o index page).
Qed.

(** ** Residency *)

Lemma at_home_no_duplicate (c : Cache.t) :
  at_home c → no_duplicate_residency (Cache.blocks c).
Proof.
  intros Hhome i j tg Hi Hj.
  pose proof (Hhome i _ Hi eq_refl) as Hi'.
  pose proof (Hhome j _ Hj eq_refl) as Hj'.
  simpl in *. lia.
Qed.

Lemma at_home_insert (c : Cache.t) (bs : list CacheBlock) (index tg : Z) :
  at_home c → 0 ≤ index → Z.rem tg (Cache.numBlocks c) = index →
  bs = <[Z.to_nat index := mkCacheBlock tg true]> (Cache.blocks c) →
  ∀ i b, bs !! i = Some b → valid b = true →
         Z.rem (tag b) (Cache.numBlocks c) = Z.of_nat i.
Proof.
  intros Hhome Hidx Hrem -> i b Hb Hv.
  destruct (decide (i = Z.to_nat index)) as [-> | Hne].
  - apply list_lookup_insert_Some in Hb as [(_ & <- & _) | [? _]]; [| done].
    simpl. lia.
  - rewrite list_lookup_insert_ne in Hb by done. by apply Hhome.
Qed.

(** C1, as the specification states it, fails: a two-block FIFO level
    probed with addresses 0, 2, 1, 1, 1 ends with tag 1 in both blocks. *)
Lemma fifo_duplicates_a_tag :
  ∃ c rs, Cache.run fifo_demo fifo_trace = Ok (c, rs)
    ∧ resident_at (Cache.blocks c) 0 1
    ∧ resident_at (Cache.blocks c) 1 1
    ∧ ¬ no_duplicate_residency (Cache.blocks c).
Proof.
  eexists _, _. split; [reflexivity |].
  split; [reflexivity |]. split; [reflexivity |].
  intros Hno. by specialize (Hno 0%nat 1%nat 1 eq_refl eq_refl).
Qed.

Lemma cache_home_admission
    (c c' : Cache.t) (o : Oracle) (address r : Z) :
  at_home c → fills_home_slot c →
  Cache.access c o address = Ok (c', r) →
  at_home c' ∧ no_duplicate_residency (Cache.blocks c').
Proof.
  intros Hhome Hadm Hacc.
  cut (at_home c'); [intros H; split; [done | by apply at_home_no_duplicate] |].
  unfold Cache.access in Hacc. inv_bind Hacc.
  unfold Cache.getIndex in Hx. inv_bind Hx.
  apply int_div_inv in Hx2 as [_ ->]. apply int_div_inv in Hx0 as [_ ->].
  apply int_rem_inv in Hx as [_ ->].
  destruct (valid x1 && bool_decide (tag x1 = address ÷ Cache.blockSize c)).
  { injection Hacc as <- <-. by destruct (Cache.policy c). }
  inv_bind Hacc. injection Hacc as <- <-.
  unfold Cache.replace in Hx. unfold fills_home_slot in Hadm.
  destruct (Cache.policy c); [| | done].
  - rewrite bool_decide_eq_false_2 in Hx by done.
    inv_bind Hx. injection Hx as <-.
    apply vec_set_inv in Hx0 as [Hrange ->].
    unfold at_home. simpl.
    eapply (at_home_insert c _ _ _ Hhome); [| reflexivity | reflexivity]. lia.
  - rewrite bool_decide_eq_false_2 in Hx by done.
    inv_bind Hx. injection Hx as <-.
    apply vec_set_inv in Hx0 as [Hrange ->].
    unfold at_home. simpl.
    eapply (at_home_insert c _ _ _ Hhome); [| reflexivity | reflexivity]. lia.
Qed.

(** C1, amended: in a level, cache or TLB, whose occupied blocks all sit in
    the home slot of their tag, as they do after construction, a probe
    let in through the branch that writes the home slot (a FIFO queue
    shorter than numBlocks, an LRU map whose size differs from numBlocks)
    leaves every occupied block in its home slot, and then no tag is
    resident in more than one occupied block. *)
Theorem home_admission_keeps_tags_unique :
  (∀ (c c' : Cache.t) (o : Oracle) (address r : Z),
     at_home c → fills_home_slot c →
     Cache.access c o address = Ok (c', r) →
     at_home c' ∧ no_duplicate_residency (Cache.blocks c'))
  ∧ (∀ (t t' : TLB.t) (o : Oracle) (page r : Z),
       at_home (TLB_as_cache t) → fills_home_slot (TLB_as_cache t) →
       TLB.access t o page = Ok (t', r) →
       at_home (TLB_as_cache t') ∧ no_duplicate_residency (TLB.blocks t')).
Proof.
  split; [apply cache_home_admission |].
  intros t t' o page r Hhome Hadm Hacc.
  rewrite TLB_access_as_cache in Hacc.
  apply bind_Ok in Hacc as ([c' r'] & Hacc & [= <- <-]).
  by apply (cache_home_admission _ _ _ _ _ Hhome Hadm) in Hacc.
Qed.

Lemma home_admission_keeps_tags_unique_witness :
  ∃ c, Cache.access fifo_demo (at_time 0) 3 = Ok (c, -1)
    ∧ at_home c ∧ no_duplicate_residency (Cache.blocks c).
Proof.
  eexists. split; [reflexivity |].
  apply (proj1 home_admission_keeps_tags_unique fifo_demo _ (at_time 0) 3 (-1)).
  - apply (fresh_at_home 2 1 1 FIFO). reflexivity.
  - vm_compute. discriminate.
  - reflexivity.
Defined.

(** ** Admission *)

(** Every branch of [replace] other than the full-map branch of LRU
    installs the tag it was given. *)
Lemma replace_installs (c c' : Cache.t) (o : Oracle) (index tg : Z) :
  Cache.replace c o index tg = Ok c' →
  (Cache.policy c = LRU → Z.of_nat (base.size (Cache.lruMap c)) ≠ Cache.numBlocks c) →
  resident (Cache.blocks c') tg.
Proof.
  assert (∀ bs bs' i, vec_set bs i (mkCacheBlock tg true) = Ok bs' →
                      resident bs' tg) as Hset.
  { intros bs bs' i [Hi ->]%vec_set_inv. exists (Z.to_nat i).
    unfold resident_at. apply list_lookup_insert_eq. lia. }
  unfold Cache.replace. intros Hrep Hlru. destruct (Cache.policy c).
  - case_bool_decide.
    + destruct (Cache.fifoQueue c); [done |].
      inv_bind Hrep. injection Hrep as <-. simpl. eauto.
    + inv_bind Hrep. injection Hrep as <-. simpl. eauto.
  - rewrite bool_decide_eq_false_2 in Hrep by auto.
    inv_bind Hrep. injection Hrep as <-. simpl. eauto.
  - simpl in Hrep. inv_bind Hrep. destruct x.
    + inv_bind Hrep. injection Hrep as <-. simpl. eauto.
    + inv_bind Hrep. injection Hrep as <-. simpl. eauto.
Qed.

(** C3: the full-map branch of the LRU [replace] installs the new tag only
    if it finds a block holding the victim tag, and otherwise returns with
    the probed tag in no block.  That happens when no stamp is older than
    the current second: a one-block level probed with 0 and then 1 within
    one second keeps tag 0.  It also happens when the victim is a stale
    entry of [lruMap]: on a two-block level probed with 0, 2, 1 at clock
    readings 1, 2, 3 the victim, tag 0, was overwritten by tag 2 earlier. *)
Theorem lru_miss_drops_the_tag :
  (∃ c, Cache.run lru_single [(at_time 5, 0); (at_time 5, 1)] = Ok (c, [-1; -1])
     ∧ Cache.blocks c = [mkCacheBlock 0 true]
     ∧ ¬ resident (Cache.blocks c) 1)
  ∧ (∃ c, Cache.run lru_demo stale_trace = Ok (c, [-1; -1; -1])
       ∧ Cache.blocks c = [mkCacheBlock 2 true; empty_block]
       ∧ ¬ resident (Cache.blocks c) 1).
Proof.
  split; (eexists; split; [reflexivity |]; split; [reflexivity |]);
    intros [i Hi]; unfold resident_at in Hi; simpl in Hi.
  - destruct i as [| i]; discriminate Hi.
  - destruct i as [| [| i]]; discriminate Hi.
Qed.

(** ** Random replacement *)

Ltac solve_well_formed :=
  unfold well_formed; simpl; repeat split; try lia; try done;
  repeat (constructor; [simpl; lia |]); constructor.




(** ** The LRU scan *)

Lemma lru_scan_from (l : list (Z * Z)) (acc e : Z * Z) :
  (acc = e ∨ e.2 < acc.2) →
  (e ∈ l ∨ acc = e) →
  (∀ e', e' ∈ l → e' ≠ e → e.2 < e'.2) →
  foldl lru_step acc l = e.
Proof.
  revert acc. induction l as [| x l IH]; intros acc Hacc Hin Hmin; simpl.
  { destruct Hin as [Hin | Hin]; [by apply elem_of_nil in Hin | done]. }
  apply IH.
  - unfold lru_step. case_bool_decide as Hlt; [| done].
    destruct (decide (x = e)) as [-> | Hne]; [by left |].
    right. apply Hmin; [by left | done].
  - unfold lru_step. destruct (decide (x = e)) as [-> | Hne].
    + right. case_bool_decide as Hlt; [done |].
      destruct Hacc as [Hacc | Hacc]; [done | lia].
    + destruct Hin as [Hin | ->].
      * apply elem_of_cons in Hin as [-> | Hin]; [done | by left].
      * right. rewrite bool_decide_eq_false_2; [done |].
        assert (e.2 < x.2) by (apply Hmin; [by left | done]). lia.
  - intros e' He' Hne. apply Hmin; [by right | done].
Qed.

(** The scan picks the entry with the strictly smallest stamp, whatever the
    iteration order, provided that stamp is older than the current time. *)
Lemma lru_scan_min (l : list (Z * Z)) (now k v : Z) :
  (k, v) ∈ l → v < now →
  (∀ e', e' ∈ l → e' ≠ (k, v) → v < e'.2) →
  lru_scan l now = (k, v).
Proof.
  intros Hin Hnow Hmin. unfold lru_scan.
  apply lru_scan_from; [by right | by left | done].
Qed.

(** With no stamp older than the current time the scan keeps its initial
    candidate, [-1]. *)
Lemma lru_scan_none (l : list (Z * Z)) (now : Z) :
  (∀ e, e ∈ l → now ≤ e.2) → lru_scan l now = (-1, now).
Proof.
  unfold lru_scan. generalize (-1). induction l as [| x l IH]; intros k Hall; [done |].
  simpl. unfold lru_step at 2. simpl.
  rewrite bool_decide_eq_false_2.
  - apply IH. intros e He. apply Hall. by right.
  - assert (now ≤ x.2) by (apply Hall; by left). lia.
Qed.

Lemma lru_victim_min (m : gmap Z Z) (now k v : Z) :
  m !! k = Some v → v < now →
  (∀ k' v', m !! k' = Some v' → k' ≠ k → v < v') →
  lru_victim m now = k.
Proof.
  intros Hk Hnow Hmin. unfold lru_victim.
  rewrite (lru_scan_min _ now k v); [done | by apply elem_of_map_to_list | done |].
  intros [k' v'] He' Hne. apply elem_of_map_to_list in He'. simpl.
  apply (Hmin k' v' He'). intros ->. congruence.
Qed.

Lemma lru_victim_none (m : gmap Z Z) (now : Z) :
  (∀ k v, m !! k = Some v → now ≤ v) → lru_victim m now = -1.
Proof.
  intros Hall. unfold lru_victim. rewrite lru_scan_none; [done |].
  intros [k v] He. apply elem_of_map_to_list in He. simpl. by eapply Hall.
Qed.

(** ** The LRU scenario *)




(** ** Recency orders under advancing clocks *)

Lemma stamped_by_mono (m : gmap Z Z) (t t' : Z) :
  stamped_by m t → t ≤ t' → stamped_by m t'.
Proof.
  intros [Hle Hinj] Htt'. split; [| done].
  intros k v Hk. specialize (Hle k v Hk). lia.
Qed.

Lemma stamped_by_insert (m : gmap Z Z) (t s k : Z) :
  stamped_by m t → t < s → stamped_by (<[k := s]> m) s.
Proof.
  intros [Hle Hinj] Hts. split.
  - intros k' v [[<- <-] | [_ Hk']]%lookup_insert_Some; [lia |].
    specialize (Hle k' v Hk'). lia.
  - intros k1 k2 v [[<- <-] | [Hne1 Hk1]]%lookup_insert_Some
                    [[<- Hv] | [Hne2 Hk2]]%lookup_insert_Some; try done.
    + specialize (Hle k2 _ Hk2). lia.
    + specialize (Hle k1 _ Hk1). lia.
    + by eapply Hinj.
Qed.

Lemma stamped_by_delete (m : gmap Z Z) (t k : Z) :
  stamped_by m t → stamped_by (delete k m) t.
Proof.
  intros [Hle Hinj]. split.
  - intros k' v [_ Hk']%lookup_delete_Some. by eapply Hle.
  - intros k1 k2 v [_ Hk1]%lookup_delete_Some [_ Hk2]%lookup_delete_Some.
    by eapply Hinj.
Qed.

Lemma same_order_empty : same_order ∅ ∅.
Proof. split; [done |]. intros k k' v1 v1' v2 v2' Hk. by rewrite lookup_empty in Hk. Qed.

Lemma same_order_insert (m1 m2 : gmap Z Z) (t1 t2 s1 s2 k : Z) :
  same_order m1 m2 → stamped_by m1 t1 → stamped_by m2 t2 → t1 < s1 → t2 < s2 →
  same_order (<[k := s1]> m1) (<[k := s2]> m2).
Proof.
  intros [Hdom Hord] [Hle1 _] [Hle2 _] Hs1 Hs2. split.
  { by rewrite !dom_insert_L, Hdom. }
  intros ka kb v1 v1' v2 v2'
    [[<- <-] | [Hna Ha1]]%lookup_insert_Some
    [[<- <-] | [Hnb Hb1]]%lookup_insert_Some
    [[? <-] | [? Ha2]]%lookup_insert_Some
    [[? <-] | [? Hb2]]%lookup_insert_Some; try done.
  - lia.
  - specialize (Hle1 _ _ Hb1). specialize (Hle2 _ _ Hb2). lia.
  - specialize (Hle1 _ _ Ha1). specialize (Hle2 _ _ Ha2). lia.
  - by eapply Hord.
Qed.

Lemma same_order_delete (m1 m2 : gmap Z Z) (k : Z) :
  same_order m1 m2 → same_order (delete k m1) (delete k m2).
Proof.
  intros [Hdom Hord]. split.
  { by rewrite !dom_delete_L, Hdom. }
  intros ka kb v1 v1' v2 v2'
    [_ Ha1]%lookup_delete_Some [_ Hb1]%lookup_delete_Some
    [_ Ha2]%lookup_delete_Some [_ Hb2]%lookup_delete_Some.
  by eapply Hord.
Qed.

Lemma same_order_size (m1 m2 : gmap Z Z) :
  same_order m1 m2 → base.size m1 = base.size m2.
Proof. intros [Hdom _]. by rewrite <- !size_dom, Hdom. Qed.

(** A non-empty map with pairwise distinct stamps has a strictly oldest
    entry. *)
Lemma oldest_entry (m : gmap Z Z) :
  (∀ k k' v, m !! k = Some v → m !! k' = Some v → k = k') →
  m ≠ ∅ →
  ∃ k v, m !! k = Some v ∧ ∀ k' v', m !! k' = Some v' → k' ≠ k → v < v'.
Proof.
  induction m as [| k v m Hk _ IH] using map_first_key_ind; [done |].
  intros Hinj _.
  destruct (decide (m = ∅)) as [-> | Hne].
  { exists k, v. split; [apply lookup_insert_eq |].
    intros k' v' [[<- <-] | [_ Hk']]%lookup_insert_Some Hkk; [done |].
    by rewrite lookup_empty in Hk'. }
  destruct IH as (k0 & v0 & Hk0 & Hmin); [| done |].
  { intros k1 k2 w Hk1 Hk2.
    apply (Hinj k1 k2 w); rewrite lookup_insert_ne; try done; congruence. }
  assert (k ≠ k0) as Hkk0 by congruence.
  assert (v ≠ v0) as Hvv0.
  { intros ->. apply Hkk0. apply (Hinj k k0 v0); [apply lookup_insert_eq |].
    by rewrite lookup_insert_ne. }
  destruct (decide (v < v0)) as [Hlt | Hge].
  - exists k, v. split; [apply lookup_insert_eq |].
    intros k' v' [[<- <-] | [_ Hk']]%lookup_insert_Some Hkk; [done |].
    destruct (decide (k' = k0)) as [-> | Hne0]; [naive_solver lia |].
    specialize (Hmin k' v' Hk' Hne0). lia.
  - exists k0, v0. split; [by rewrite lookup_insert_ne |].
    intros k' v' [[<- <-] | [_ Hk']]%lookup_insert_Some Hkk; [lia |].
    by apply (Hmin k' v').
Qed.

(** Under advancing clocks the victim depends on the recency order only. *)
Lemma lru_victim_same_order (m1 m2 : gmap Z Z) (t1 t2 now1 now2 : Z) :
  same_order m1 m2 → stamped_by m1 t1 → stamped_by m2 t2 →
  t1 < now1 → t2 < now2 →
  lru_victim m1 now1 = lru_victim m2 now2.
Proof.
  intros [Hdom Hord] [Hle1 Hinj1] [Hle2 Hinj2] Hnow1 Hnow2.
  destruct (decide (m1 = ∅)) as [-> | Hne].
  { rewrite dom_empty_L in Hdom. symmetry in Hdom.
    apply dom_empty_inv_L in Hdom as ->. done. }
  destruct (oldest_entry m1 Hinj1 Hne) as (k & v & Hk & Hmin).
  assert (is_Some (m2 !! k)) as [w Hw].
  { apply elem_of_dom. rewrite <- Hdom. apply elem_of_dom. eauto. }
  rewrite (lru_victim_min m1 now1 k v); [| done | specialize (Hle1 _ _ Hk); lia | done].
  rewrite (lru_victim_min m2 now2 k w); [done | done | specialize (Hle2 _ _ Hw); lia |].
  intros k' w' Hw' Hkk.
  assert (is_Some (m1 !! k')) as [v' Hv'].
  { apply elem_of_dom. rewrite Hdom. apply elem_of_dom. eauto. }
  apply (Hord k k' v v' w w'); try done. by apply (Hmin k' v').
Qed.

Section advancing_probe.

Context (c1 : Cache.t) (m2 : gmap Z Z) (o1 o2 : Oracle) (t1 t2 : Z).
Hypothesis lru_policy : Cache.policy c1 = LRU.
Hypothesis recency : same_order (Cache.lruMap c1) m2.
Hypothesis stamps1 : stamped_by (Cache.lruMap c1) t1.
Hypothesis stamps2 : stamped_by m2 t2.
Hypothesis scan1 : t1 < time_scan o1.
Hypothesis stamp1 : time_scan o1 ≤ time_stamp o1.
Hypothesis scan2 : t2 < time_scan o2.
Hypothesis stamp2 : time_scan o2 ≤ time_stamp o2.

Lemma replace_same_order (c1' : Cache.t) (index tg : Z) :
  Cache.replace c1 o1 index tg = Ok c1' →
  ∃ m2', Cache.replace (Cache.set_lruMap c1 m2) o2 index tg
           = Ok (Cache.set_lruMap c1' m2')
    ∧ Cache.policy c1' = LRU
    ∧ same_order (Cache.lruMap c1') m2'
    ∧ stamped_by (Cache.lruMap c1') (time_stamp o1)
    ∧ stamped_by m2' (time_stamp o2).
Proof.
  unfold Cache.replace. simpl. rewrite lru_policy.
  rewrite <- (same_order_size _ _ recency).
  rewrite <- (lru_victim_same_order _ _ t1 t2 (time_scan o1) (time_scan o2) recency)
    by done.
  set (victim := lru_victim (Cache.lruMap c1) (time_scan o1)).
  assert (same_order (delete victim (Cache.lruMap c1)) (delete victim m2)) as Hord_del
    by (by apply same_order_delete).
  assert (stamped_by (delete victim (Cache.lruMap c1)) t1) as Hst1_del
    by (by apply stamped_by_delete).
  assert (stamped_by (delete victim m2) t2) as Hst2_del
    by (by apply stamped_by_delete).
  case_bool_decide as Hfull.
  - destruct (find_tag (Cache.blocks c1) victim (seqZ 0 (Cache.numBlocks c1)))
      as [[i |] | f]; simpl; [| | done].
    + destruct (vec_set (Cache.blocks c1) i (mkCacheBlock tg true)) as [bs |];
        simpl; [| done].
      intros [= <-]. eexists. split; [reflexivity |]. simpl.
      split; [done |]. split; [| split].
      * eapply same_order_insert; [done | done | done | lia | lia].
      * eapply stamped_by_insert; [done | lia].
      * eapply stamped_by_insert; [done | lia].
    + intros [= <-]. eexists. split; [reflexivity |]. simpl.
      split; [done |]. split; [done |]. split.
      * eapply stamped_by_mono; [done | lia].
      * eapply stamped_by_mono; [done | lia].
  - destruct (vec_set (Cache.blocks c1) index (mkCacheBlock tg true)) as [bs |];
      simpl; [| done].
    intros [= <-]. eexists. split; [reflexivity |]. simpl.
    split; [done |]. split; [| split].
    * eapply same_order_insert; [done | done | done | lia | lia].
    * eapply stamped_by_insert; [done | lia].
    * eapply stamped_by_insert; [done | lia].
Qed.

Lemma access_same_order (c1' : Cache.t) (address r : Z) :
  Cache.access c1 o1 address = Ok (c1', r) →
  ∃ m2', Cache.access (Cache.set_lruMap c1 m2) o2 address
           = Ok (Cache.set_lruMap c1' m2', r)
    ∧ Cache.policy c1' = LRU
    ∧ same_order (Cache.lruMap c1') m2'
    ∧ stamped_by (Cache.lruMap c1') (time_stamp o1)
    ∧ stamped_by m2' (time_stamp o2).
Proof.
  unfold Cache.access, Cache.getIndex. simpl.
  destruct (int_div address (Cache.blockSize c1)) as [tg |]; simpl; [| done].
  destruct (int_rem tg (Cache.numBlocks c1)) as [index |]; simpl; [| done].
  destruct (vec_get (Cache.blocks c1) index) as [b |]; simpl; [| done].
  destruct (valid b && bool_decide (tag b = tg)).
  - rewrite lru_policy. intros [= <- <-]. eexists. split; [reflexivity |]. simpl.
    split; [done |]. split; [| split].
    + eapply same_order_insert; [done | done | done | lia | lia].
    + eapply stamped_by_insert; [done | lia].
    + eapply stamped_by_insert; [done | lia].
  - destruct (Cache.replace c1 o1 index tg) as [c1r |] eqn:Hrep; simpl; [| done].
    intros [= <- <-].
    destruct (replace_same_order c1r index tg) as (m2' & -> & Hrest); [done |].
    simpl. by exists m2'.
Qed.

End advancing_probe.

(** Two runs over the same addresses whose clocks both advance stay in
    step: same outcomes, same blocks, same recency order. *)
Lemma run_same_order (addrs : list Z) :
  ∀ (os1 os2 : list Oracle) (c1 c1' : Cache.t) (m2 : gmap Z Z) (t1 t2 : Z) (rs : list Z),
  Cache.policy c1 = LRU →
  same_order (Cache.lruMap c1) m2 →
  stamped_by (Cache.lruMap c1) t1 → stamped_by m2 t2 →
  length os1 = length addrs → length os2 = length addrs →
  advances_from t1 os1 → advances_from t2 os2 →
  Cache.run c1 (zip os1 addrs) = Ok (c1', rs) →
  ∃ m2', Cache.run (Cache.set_lruMap c1 m2) (zip os2 addrs)
           = Ok (Cache.set_lruMap c1' m2', rs)
    ∧ same_order (Cache.lruMap c1') m2'.
Proof.
  induction addrs as [| a addrs IH];
    intros os1 os2 c1 c1' m2 t1 t2 rs Hpol Hord Hst1 Hst2 Hlen1 Hlen2 Hadv1 Hadv2.
  { destruct os1; [| done]. destruct os2; [| done]. simpl.
    intros [= <- <-]. exists m2. done. }
  destruct os1 as [| o1 os1]; [done |]. destruct os2 as [| o2 os2]; [done |].
  simpl in *. destruct Hadv1 as (Hs1 & Hp1 & Hadv1). destruct Hadv2 as (Hs2 & Hp2 & Hadv2).
  destruct (Cache.access c1 o1 a) as [[c1a r] |] eqn:Hacc; simpl; [| done].
  destruct (Cache.run c1a (zip os1 addrs)) as [[c1b rs'] |] eqn:Hrun; simpl; [| done].
  intros [= <- <-].
  destruct (access_same_order c1 m2 o1 o2 t1 t2 Hpol Hord Hst1 Hst2 Hs1 Hp1 Hs2 Hp2
              c1a a r Hacc)
    as (m2a & -> & Hpol' & Hord' & Hst1' & Hst2').
  simpl.
  destruct (IH os1 os2 c1a c1b m2a (time_stamp o1) (time_stamp o2) rs')
    as (m2b & -> & Hord''); try done; try lia.
  simpl. by exists m2b.
Qed.

(** C5, as the specification states it, fails: the stamps are readings of
    the wall clock.  The same level probed with the same addresses keeps
    tags 0 and 2 when the clock advances between the probes and tags 0 and
    1 when all four probes fall within one second. *)
Lemma lru_runs_differ_with_the_clock :
  ∃ c1 c2 rs,
    advancing_trace.*2 = same_second_trace.*2
    ∧ Cache.run lru_demo advancing_trace = Ok (c1, rs)
    ∧ Cache.run lru_demo same_second_trace = Ok (c2, rs)
    ∧ resident_tags (Cache.blocks c1) = [0; 2]
    ∧ resident_tags (Cache.blocks c2) = [0; 1]
    ∧ Cache.lruMap c2 !! 0 = Some 5 ∧ Cache.lruMap c2 !! 1 = Some 5.
Proof. eexists _, _, _. repeat split; reflexivity. Qed.

(** C5, amended: the LRU stamps are readings of the wall clock, and when
    the readings advance from each probe to the next, two runs of one
    configuration over one address stream make the same hit, miss and
    eviction decisions whatever the readings are: both complete, with the
    same outcomes, the same blocks and the same relative recency order. *)
Theorem lru_runs_agree_when_clocks_advance
    (s bs at_ : Z) (addrs : list Z) (os1 os2 : list Oracle) (t1 t2 : Z) :
  0 < bs → bs ≤ s → Forall (λ a, 0 ≤ a) addrs →
  length os1 = length addrs → length os2 = length addrs →
  advances_from t1 os1 → advances_from t2 os2 →
  ∃ c c1 c2 rs,
    Cache.Cache s bs at_ LRU = Ok c
    ∧ Cache.run c (zip os1 addrs) = Ok (c1, rs)
    ∧ Cache.run c (zip os2 addrs) = Ok (c2, rs)
    ∧ Cache.blocks c1 = Cache.blocks c2
    ∧ same_order (Cache.lruMap c1) (Cache.lruMap c2).
Proof.
  intros Hbs Hs Hpos Hlen1 Hlen2 Hadv1 Hadv2.
  destruct (fresh_well_formed s bs at_ LRU) as (c & Hc & Hwf & Hpol & Hmap); [done.. |].
  destruct (run_total c (zip os1 addrs)) as (c1 & rs & Hrun1); [done | by rewrite Hpol | |].
  { apply Forall_forall. intros [o a] Hin. simpl.
    apply elem_of_zip_r in Hin. by eapply (proj1 (Forall_forall _ _) Hpos). }
  assert (stamped_by (∅ : gmap Z Z) t1 ∧ stamped_by (∅ : gmap Z Z) t2) as [He1 He2].
  { split; (split; intros k; intros; by rewrite lookup_empty in *). }
  destruct (run_same_order addrs os1 os2 c c1 ∅ t1 t2 rs) as (m2 & Hrun2 & Hord);
    try done.
  { rewrite Hmap. apply same_order_empty. }
  { by rewrite Hmap. }
  assert (Cache.set_lruMap c ∅ = c) as Hc0 by (destruct c; simpl in *; by subst).
  rewrite Hc0 in Hrun2.
  exists c, c1, (Cache.set_lruMap c1 m2), rs. done.
Qed.

Lemma lru_runs_agree_when_clocks_advance_witness :
  ∃ c c1 c2 rs,
    Cache.Cache 2 1 1 LRU = Ok c
    ∧ Cache.run c (zip [at_time 1; at_time 2; at_time 3; at_time 4] [0; 1; 0; 2])
      = Ok (c1, rs)
    ∧ Cache.run c (zip [at_time 10; at_time 25; at_time 26; at_time 90] [0; 1; 0; 2])
      = Ok (c2, rs)
    ∧ Cache.blocks c1 = Cache.blocks c2
    ∧ same_order (Cache.lruMap c1) (Cache.lruMap c2).
Proof.
  apply (lru_runs_agree_when_clocks_advance 2 1 1 [0; 1; 0; 2]
           [at_time 1; at_time 2; at_time 3; at_time 4]
           [at_time 10; at_time 25; at_time 26; at_time 90] 0 0).
  - lia.
  - lia.
  - repeat constructor; lia.
  - reflexivity.
  - reflexivity.
  - simpl. lia.
  - simpl. lia.
Defined.

(** ** Counters *)

Lemma lookup_incr (v : list Z) (i : Z) (l : nat) :
  0 ≤ i →
  incr v i !! l = (λ x, x + (if decide (i = Z.of_nat l) then 1 else 0)) <$> v !! l.
Proof.
  intros Hi. unfold incr. case_decide as Heq.
  - replace (Z.to_nat i) with l by lia. rewrite list_lookup_alter_eq.
    by destruct (v !! l).
  - rewrite list_lookup_alter_ne by lia.
    destruct (v !! l); simpl; [f_equal; lia | done].
Qed.

Lemma lookup_foldl_incr (idx : list Z) (v : list Z) (l : nat) :
  Forall (λ i, 0 ≤ i) idx → NoDup idx →
  foldl incr v idx !! l
  = (λ x, x + (if decide (Z.of_nat l ∈ idx) then 1 else 0)) <$> v !! l.
Proof.
  revert v. induction idx as [| i idx IH]; intros v Hpos Hnd; simpl.
  { destruct (v !! l); simpl; [f_equal; lia | done]. }
  apply Forall_cons in Hpos as [Hi Hpos]. apply NoDup_cons in Hnd as [Hni Hnd].
  rewrite IH by done. rewrite lookup_incr by done.
  destruct (v !! l) as [x |]; simpl; [f_equal | done].
  destruct (decide (i = Z.of_nat l)) as [-> | Hne].
  - rewrite (decide_False (P := Z.of_nat l ∈ idx)) by done.
    rewrite decide_True by (by left). lia.
  - destruct (decide (Z.of_nat l ∈ idx)) as [Hin | Hnin].
    + rewrite decide_True by (by right). lia.
    + rewrite decide_False; [lia |]. by intros [? | ?]%elem_of_cons.
Qed.

Lemma size_t_of_int_small (z : Z) : 0 ≤ z < 2 ^ 31 → size_t_of_int z = z.
Proof. intros Hz. unfold size_t_of_int. apply Z.mod_small. lia. Qed.

(** A logged hit raises the hit counter at its index and at every later
    index; a logged miss leaves the hit counters alone. *)
Lemma cacheHits_logAccess (hit : bool) (k : Z) (a : PerformanceAnalyzer.t) (l : nat) :
  0 ≤ k < 2 ^ 31 →
  PerformanceAnalyzer.cacheHits (PerformanceAnalyzer.logAccess hit k a) !! l
  = (λ x, x + (if decide (hit = true ∧ k ≤ Z.of_nat l) then 1 else 0))
      <$> PerformanceAnalyzer.cacheHits a !! l.
Proof.
  intros Hk. unfold PerformanceAnalyzer.logAccess.
  destruct hit; simpl.
  2: { destruct (_ !! l); simpl; [f_equal; lia | done]. }
  rewrite size_t_of_int_small by done.
  set (v := PerformanceAnalyzer.cacheHits a).
  case_bool_decide as Hlt.
  - change (foldl incr (incr v k) ?idx) with (foldl incr v (k :: idx)).
    replace (k :: seqZ (k + 1) (Z.of_nat (length v) - (k + 1)))
      with (seqZ k (Z.of_nat (length v) - k)).
    2: { rewrite (seqZ_cons k) by lia. do 2 f_equal; lia. }
    rewrite lookup_foldl_incr.
    + destruct (v !! l) as [x |] eqn:Hl; simpl; [f_equal | done].
      apply lookup_lt_Some in Hl.
      destruct (decide (k ≤ Z.of_nat l)) as [Hkl | Hkl].
      * rewrite decide_True by (apply elem_of_seqZ; lia).
        by rewrite decide_True.
      * rewrite decide_False by (rewrite elem_of_seqZ; lia).
        rewrite decide_False; [done | intros [_ ?]; lia].
    + apply Forall_forall. intros i Hi. apply elem_of_seqZ in Hi. lia.
    + apply NoDup_seqZ.
  - destruct (v !! l) as [x |] eqn:Hl; simpl; [f_equal | done].
    apply lookup_lt_Some in Hl. rewrite decide_False; lia.
Qed.

(** A logged miss raises the miss counter at its index only. *)
Lemma cacheMisses_logAccess (hit : bool) (k : Z) (a : PerformanceAnalyzer.t) (l : nat) :
  0 ≤ k < 2 ^ 31 →
  PerformanceAnalyzer.cacheMisses (PerformanceAnalyzer.logAccess hit k a) !! l
  = (λ x, x + (if decide (hit = false ∧ k = Z.of_nat l) then 1 else 0))
      <$> PerformanceAnalyzer.cacheMisses a !! l.
Proof.
  intros Hk. unfold PerformanceAnalyzer.logAccess.
  destruct hit; simpl.
  { destruct (_ !! l); simpl; [f_equal; lia | done]. }
  rewrite size_t_of_int_small by done.
  set (v := PerformanceAnalyzer.cacheMisses a).
  case_bool_decide as Hlt.
  - rewrite lookup_incr by lia.
    destruct (v !! l) as [x |]; simpl; [f_equal | done].
    destruct (decide (k = Z.of_nat l)) as [Hkl | Hkl].
    + by rewrite decide_True.
    + rewrite decide_False; [done | intros [_ ?]; lia].
  - destruct (v !! l) as [x |] eqn:Hl; simpl; [f_equal | done].
    apply lookup_lt_Some in Hl. rewrite decide_False; lia.
Qed.

Lemma logAccess_length_cacheHits (hit : bool) (lvl : Z) (a : PerformanceAnalyzer.t) :
  length (PerformanceAnalyzer.cacheHits (PerformanceAnalyzer.logAccess hit lvl a))
  = length (PerformanceAnalyzer.cacheHits a).
Proof.
  unfold PerformanceAnalyzer.logAccess. destruct hit; simpl; [| done].
  case_bool_decide; [| done].
  generalize (seqZ (lvl + 1)
    (Z.of_nat (length (PerformanceAnalyzer.cacheHits a)) - (lvl + 1))).
  intros l. unfold incr.
  assert (∀ v, length (foldl incr v l) = length v) as Hfold.
  { induction l as [| i l IH]; intros v; simpl; [done |].
    rewrite IH. unfold incr. by rewrite length_alter. }
  rewrite Hfold. unfold incr. by rewrite length_alter.
Qed.

Lemma replay_length_cacheHits (tr : list AccessOutcome) (a : PerformanceAnalyzer.t) :
  length (PerformanceAnalyzer.cacheHits (replay tr a))
  = length (PerformanceAnalyzer.cacheHits a).
Proof.
  revert a. induction tr as [| e tr IH]; intros a; [done |].
  change (replay (e :: tr) a)
    with (replay tr (PerformanceAnalyzer.logAccess (hit e) (loggedAs e) a)).
  rewrite IH. apply logAccess_length_cacheHits.
Qed.

Lemma count_cons (P : AccessOutcome → Prop) `{∀ e, Decision (P e)}
    (e : AccessOutcome) (tr : list AccessOutcome) :
  count P (e :: tr) = (if decide (P e) then 1 else 0) + count P tr.
Proof.
  unfold count. rewrite filter_cons. case_decide; simpl; lia.
Qed.

Lemma replay_app (tr1 tr2 : list AccessOutcome) (a : PerformanceAnalyzer.t) :
  replay (tr1 ++ tr2) a = replay tr2 (replay tr1 a).
Proof. unfold replay. apply foldl_app. Qed.

(** The counters after a trace, in terms of the counters before it. *)
Lemma replay_counters (tr : list AccessOutcome) :
  ∀ a : PerformanceAnalyzer.t,
  Forall (λ e, 0 ≤ loggedAs e < 2 ^ 31) tr →
  PerformanceAnalyzer.totalAccesses (replay tr a)
    = PerformanceAnalyzer.totalAccesses a + Z.of_nat (length tr)
  ∧ PerformanceAnalyzer.hits (replay tr a)
    = PerformanceAnalyzer.hits a + count (λ e, hit e = true) tr
  ∧ PerformanceAnalyzer.misses (replay tr a)
    = PerformanceAnalyzer.misses a + count (λ e, hit e = false) tr
  ∧ (∀ (l : nat) (x : Z),
       PerformanceAnalyzer.cacheMisses a !! l = Some x →
       PerformanceAnalyzer.cacheMisses (replay tr a) !! l
       = Some (x + count (λ e, hit e = false ∧ loggedAs e = Z.of_nat l) tr))
  ∧ (∀ (l : nat) (x : Z),
       PerformanceAnalyzer.cacheHits a !! l = Some x →
       PerformanceAnalyzer.cacheHits (replay tr a) !! l
       = Some (x + count (λ e, hit e = true ∧ loggedAs e ≤ Z.of_nat l) tr)).
Proof.
  induction tr as [| e tr IH]; intros a Hlog.
  { simpl. unfold count. simpl. repeat split; try lia.
    - intros l x ->. f_equal. lia.
    - intros l x ->. f_equal. lia. }
  apply Forall_cons in Hlog as [He Hlog].
  change (replay (e :: tr) a)
    with (replay tr (PerformanceAnalyzer.logAccess (hit e) (loggedAs e) a)).
  destruct (IH (PerformanceAnalyzer.logAccess (hit e) (loggedAs e) a) Hlog)
    as (Htot & Hhits & Hmisses & Hcm & Hch).
  rewrite Htot, Hhits, Hmisses, !count_cons. simpl length.
  repeat split.
  - unfold PerformanceAnalyzer.logAccess. destruct (hit e); simpl; lia.
  - unfold PerformanceAnalyzer.logAccess. destruct (hit e); simpl; lia.
  - unfold PerformanceAnalyzer.logAccess. destruct (hit e); simpl; lia.
  - intros l x Hl. rewrite count_cons.
    erewrite Hcm; [| rewrite cacheMisses_logAccess by done; rewrite Hl; reflexivity].
    f_equal. lia.
  - intros l x Hl. rewrite count_cons.
    erewrite Hch; [| rewrite cacheHits_logAccess by done; rewrite Hl; reflexivity].
    f_equal. lia.
Qed.

(** ** The performance report *)

(** C10: with a single cache level the counter vectors have two entries,
    and [report], whose loop is fixed at three rounds, reads a third one:
    whatever has been logged, the read at index 2 is out of range. *)
Theorem report_reads_past_the_counters (tr : list AccessOutcome) :
  ∃ a, PerformanceAnalyzer.PerformanceAnalyzer (1 + 1) = Ok a
    ∧ length (PerformanceAnalyzer.cacheHits (replay tr a)) = 2%nat
    ∧ 2 ∈ PerformanceAnalyzer.report_indices
    ∧ PerformanceAnalyzer.report (replay tr a) = Err OutOfRange.
Proof.
  eexists. split; [reflexivity |].
  set (a := PerformanceAnalyzer.mk _ _ _ _ _).
  assert (length (PerformanceAnalyzer.cacheHits (replay tr a)) = 2%nat) as Hlen.
  { by rewrite replay_length_cacheHits. }
  split; [done |]. split; [by vm_compute; set_solver |].
  unfold PerformanceAnalyzer.report.
  destruct (PerformanceAnalyzer.cacheHits (replay tr a)) as [| x [| y [| z l]]];
    try discriminate Hlen.
  reflexivity.
Qed.

Lemma MemoryHierarchy_analyzer
    (cacheSizes blockSizes accessTimes : list Z) (policies : list ReplacementPolicy)
    (ramSize ramBlockSize ramAt : Z) (ramPolicy : ReplacementPolicy)
    (diskSize diskAt tlbSize tlbAt : Z) (tlbPolicy : ReplacementPolicy)
    (h : MemoryHierarchy.t) :
  MemoryHierarchy.MemoryHierarchy cacheSizes blockSizes accessTimes policies
    ramSize ramBlockSize ramAt ramPolicy diskSize diskAt tlbSize tlbAt tlbPolicy = Ok h →
  MemoryHierarchy.analyzer h =
    PerformanceAnalyzer.mk 0 0 0 (replicate (S (length cacheSizes)) 0)
                                 (replicate (S (length cacheSizes)) 0).
Proof.
  unfold MemoryHierarchy.MemoryHierarchy. intros H. inv_bind H.
  injection H as <-. simpl.
  unfold PerformanceAnalyzer.PerformanceAnalyzer in Hx0.
  rewrite vec_resize_Ok in Hx0 by lia. simpl in Hx0. injection Hx0 as <-.
  by replace (Z.to_nat (Z.of_nat (length cacheSizes) + 1))
    with (S (length cacheSizes)) by lia.
Qed.

(** C6, as the specification states it, fails: on an empty address stream
    the report shows zero accesses, but the overall hit rate it computes,
    [0.0 / 0 * 100], is not zero. *)
Lemma empty_stream_rate_is_not_zero :
  ∃ r, MemoryHierarchy.runSimulation three_level_demo [] = Ok r
    ∧ PerformanceAnalyzer.shownTotalAccesses r = 0
    ∧ ¬ zero_rate (PerformanceAnalyzer.overallHitRate r).
Proof.
  eexists. split; [reflexivity |].
  split; [reflexivity |]. unfold zero_rate. vm_compute. discriminate.
Qed.

(** C6, amended: on an empty address stream, in a hierarchy of at least two
    cache levels, [report] shows zero accesses, zero hits and zero misses
    and completes; the divisions are floating-point divisions of zero by
    zero, so every rate it shows, overall and per level, is not a number. *)
Theorem empty_stream_report
    (cacheSizes blockSizes accessTimes : list Z) (policies : list ReplacementPolicy)
    (ramSize ramBlockSize ramAt : Z) (ramPolicy : ReplacementPolicy)
    (diskSize diskAt tlbSize tlbAt : Z) (tlbPolicy : ReplacementPolicy)
    (h : MemoryHierarchy.t) :
  MemoryHierarchy.MemoryHierarchy cacheSizes blockSizes accessTimes policies
    ramSize ramBlockSize ramAt ramPolicy diskSize diskAt tlbSize tlbAt tlbPolicy = Ok h →
  (2 ≤ length cacheSizes)%nat →
  ∃ r, MemoryHierarchy.runSimulation h [] = Ok r
    ∧ PerformanceAnalyzer.shownTotalAccesses r = 0
    ∧ PerformanceAnalyzer.shownHits r = 0
    ∧ PerformanceAnalyzer.shownMisses r = 0
    ∧ nan_rate (PerformanceAnalyzer.overallHitRate r)
    ∧ nan_rate (PerformanceAnalyzer.overallMissRate r)
    ∧ length (PerformanceAnalyzer.levelRates r) = 3%nat
    ∧ Forall (λ p, nan_rate p.1 ∧ nan_rate p.2) (PerformanceAnalyzer.levelRates r).
Proof.
  intros Hh Hn. apply MemoryHierarchy_analyzer in Hh.
  unfold MemoryHierarchy.runSimulation. simpl.
  unfold PerformanceAnalyzer.report. rewrite Hh. simpl.
  destruct cacheSizes as [| s1 [| s2 l]]; simpl in Hn; try lia.
  eexists. split; [reflexivity |]. simpl.
  repeat split; try reflexivity.
  repeat constructor.
Qed.

Lemma empty_stream_report_witness :
  ∃ r, MemoryHierarchy.runSimulation two_level_demo [] = Ok r
    ∧ PerformanceAnalyzer.shownTotalAccesses r = 0
    ∧ PerformanceAnalyzer.shownHits r = 0
    ∧ PerformanceAnalyzer.shownMisses r = 0
    ∧ nan_rate (PerformanceAnalyzer.overallHitRate r)
    ∧ nan_rate (PerformanceAnalyzer.overallMissRate r)
    ∧ length (PerformanceAnalyzer.levelRates r) = 3%nat
    ∧ Forall (λ p, nan_rate p.1 ∧ nan_rate p.2) (PerformanceAnalyzer.levelRates r).
Proof.
  apply (empty_stream_report [4; 8] [1; 1] [1; 2] [FIFO; LRU]
           32 1 5 FIFO 100 9 2 1 FIFO).
  - reflexivity.
  - simpl. lia.
Defined.

(** ** The hierarchy walk *)

(** What the cache loop logs: one outcome per cache probed, in order, the
    last one a hit if the loop stopped early. *)
Lemma probe_caches_trace (oc : nat → Oracle) (address : Z) (cs : list Cache.t) :
  ∀ (i : nat) (an : PerformanceAnalyzer.t) cs' an' tr (found : bool),
  MemoryHierarchy.probe_caches oc address i cs an = Ok (cs', an', tr, found) →
  length cs' = length cs
  ∧ an' = replay tr an
  ∧ (level <$> tr) `prefix_of` (AtCache <$> seq i (length cs))
  ∧ (found = false → level <$> tr = AtCache <$> seq i (length cs))
  ∧ Forall (λ e, 0 ≤ loggedAs e ≤ Z.of_nat (i + length cs)) tr.
Proof.
  induction cs as [| c rest IH]; intros i an cs' an' tr found; simpl.
  { intros [= <- <- <- <-]. repeat split; done. }
  intros H. apply bind_Ok in H as ([c1 time] & Hacc & H).
  case_bool_decide as Hhit.
  - injection H as <- <- <- <-. simpl. repeat split; try done.
    + by apply prefix_cons, prefix_nil.
    + repeat constructor; simpl; lia.
  - apply bind_Ok in H as ([[[rest' an1] tr1] h1] & Hrec & H).
    injection H as <- <- <- <-.
    apply IH in Hrec as (Hlen & Han & Hpre & Hall & Hlog).
    simpl. repeat split.
    + by rewrite Hlen.
    + done.
    + by apply prefix_cons.
    + intros Hf. f_equal. by apply Hall.
    + constructor; simpl; [lia |].
      eapply Forall_impl; [done |]. simpl. intros e He. lia.
Qed.

(** The levels logged on the data path are an initial part of the chain
    L1, ..., Ln, RAM, DISK, DISK. *)
Lemma data_path_trace (h h' : MemoryHierarchy.t) (os : AccessOracles)
    (address : Z) (tr : list AccessOutcome) :
  MemoryHierarchy.data_path h os address = Ok (h', tr) →
  length (MemoryHierarchy.caches h') = length (MemoryHierarchy.caches h)
  ∧ MemoryHierarchy.analyzer h' = replay tr (MemoryHierarchy.analyzer h)
  ∧ (level <$> tr) `prefix_of` full_chain (length (MemoryHierarchy.caches h))
  ∧ Forall (λ e, 0 ≤ loggedAs e ≤ Z.of_nat (length (MemoryHierarchy.caches h)) + 1) tr.
Proof.
  unfold MemoryHierarchy.data_path. intros H.
  apply bind_Ok in H as ([[[cs an] tr1] found] & Hprobe & H).
  apply probe_caches_trace in Hprobe as (Hlen & Han & Hpre & Hall & Hlog).
  assert (Forall (λ e, 0 ≤ loggedAs e
                       ≤ Z.of_nat (length (MemoryHierarchy.caches h)) + 1) tr1) as Hlog1.
  { eapply Forall_impl; [done |]. simpl. intros e He. lia. }
  destruct found.
  { injection H as <- <-. simpl. repeat split; try done.
    unfold full_chain. by apply prefix_app_r. }
  specialize (Hall eq_refl).
  apply bind_Ok in H as ([r time] & Hram & H).
  case_bool_decide as Hhit; injection H as <- <-; simpl.
  - repeat split; [done | | |].
    + rewrite replay_app. by rewrite Han.
    + rewrite fmap_app, Hall. unfold full_chain. simpl.
      by exists [AtDISK; AtDISK]; rewrite <- app_assoc.
    + apply Forall_app. split; [done |]. repeat constructor; simpl; lia.
  - repeat split; [done | | |].
    + rewrite replay_app. by rewrite Han.
    + rewrite fmap_app, Hall. unfold full_chain. simpl. done.
    + apply Forall_app. split; [done |]. repeat constructor; simpl; lia.
Qed.

Lemma simulateAccess_trace (h h' : MemoryHierarchy.t) (os : AccessOracles)
    (address : Z) (tr : list AccessOutcome) :
  MemoryHierarchy.simulateAccess h os address = Ok (h', tr) →
  MemoryHierarchy.analyzer h' = replay tr (MemoryHierarchy.analyzer h)
  ∧ Forall (λ e, 0 ≤ loggedAs e ≤ Z.of_nat (length (MemoryHierarchy.caches h)) + 1) tr
  ∧ (length tr ≤ length (MemoryHierarchy.caches h) + 6)%nat.
Proof.
  unfold MemoryHierarchy.simulateAccess. intros H.
  apply bind_Ok in H as (page & _ & H).
  apply bind_Ok in H as ([tl time] & _ & H).
  assert (∀ ls, ls `prefix_of` full_chain (length (MemoryHierarchy.caches h)) →
                (length ls ≤ length (MemoryHierarchy.caches h) + 3)%nat) as Hbound.
  { intros ls Hls%prefix_length. unfold full_chain in Hls.
    rewrite length_app, length_fmap, length_seq in Hls. simpl in Hls. lia. }
  case_bool_decide as Htlb.
  - apply bind_Ok in H as ([h1 tr1] & Hdata & H). injection H as <- <-.
    apply data_path_trace in Hdata as (_ & Han & Hpre%Hbound & Hlog).
    simpl in *. rewrite length_fmap in Hpre. repeat split; [done | | lia].
    constructor; [simpl; lia | done].
  - apply bind_Ok in H as ([r time'] & _ & H).
    case_bool_decide as Hram.
    + apply bind_Ok in H as ([h1 tr1] & Hdata & H). injection H as <- <-.
      apply data_path_trace in Hdata as (_ & Han & Hpre%Hbound & Hlog).
      simpl in *. rewrite length_fmap in Hpre. repeat split; [done | | lia].
      repeat (constructor; [simpl; lia |]). done.
    + apply bind_Ok in H as ([h1 tr1] & Hdata & H). injection H as <- <-.
      apply data_path_trace in Hdata as (_ & Han & Hpre%Hbound & Hlog).
      simpl in *. rewrite length_fmap in Hpre. repeat split; [done | | lia].
      repeat (constructor; [simpl; lia |]). done.
Qed.

Lemma Sorted_prefix {A : Type} (R : relation A) (l k : list A) :
  Sorted R (l ++ k) → Sorted R l.
Proof.
  induction l as [| x l IH]; simpl; intros H; [constructor |].
  apply Sorted_inv in H as [Hs Hhd]. constructor; [by apply IH |].
  destruct l; simpl in *; [constructor |].
  apply HdRel_inv in Hhd. by constructor.
Qed.

Lemma cache_chain_sorted (n i : nat) :
  Sorted level_le ((AtCache <$> seq i n) ++ [AtRAM; AtDISK; AtDISK]).
Proof.
  revert i. induction n as [| n IH]; intros i; simpl.
  { repeat constructor. }
  constructor; [apply IH |].
  destruct n; simpl; constructor; simpl; [done | lia].
Qed.

Lemma below_the_tlb_sorted (n : nat) (ls : list HierarchyLevel) :
  ls `prefix_of` full_chain n → non_decreasing (AtTLB :: ls).
Proof.
  intros [k Hk]. constructor.
  - apply (Sorted_prefix _ ls k). rewrite <- Hk. apply cache_chain_sorted.
  - destruct ls; constructor. done.
Qed.

(** C2, as the specification states it, fails: on the first access the TLB
    misses, RAM is probed (and the disk logged) for the translation, and
    only then are cache L1 and RAM probed for the data. *)
Lemma translation_comes_before_the_caches :
  ∃ h tr, MemoryHierarchy.simulateAccess one_level_demo (steady 1) 0 = Ok (h, tr)
    ∧ level <$> tr = [AtTLB; AtRAM; AtDISK; AtCache 0; AtRAM]
    ∧ ¬ non_decreasing (level <$> tr).
Proof.
  eexists _, _. split; [reflexivity |]. split; [reflexivity |].
  simpl. intros H.
  apply Sorted_inv in H as [H _]. apply Sorted_inv in H as [H _].
  apply Sorted_inv in H as [_ H]. by apply HdRel_inv in H.
Qed.

(** C2, amended: the trace of an access starts with the TLB outcome.  On a
    TLB hit the levels recorded after it are L1, L2, ... up to the first
    cache hit, then RAM, then the disk: non-decreasing in the fixed order,
    with no level skipped.  On a TLB miss the translation probe of RAM, and
    a disk record if RAM misses, is recorded between the TLB outcome and
    that sequence. *)
Theorem levels_after_translation_follow_the_order
    (h h' : MemoryHierarchy.t) (os : AccessOracles) (address : Z)
    (tr : list AccessOutcome) :
  MemoryHierarchy.simulateAccess h os address = Ok (h', tr) →
  ∃ first translation data,
    tr = first :: translation ++ data
    ∧ level first = AtTLB
    ∧ (hit first = true → translation = [])
    ∧ (hit first = false →
         level <$> translation = [AtRAM] ∨ level <$> translation = [AtRAM; AtDISK])
    ∧ (level <$> data) `prefix_of` full_chain (length (MemoryHierarchy.caches h))
    ∧ non_decreasing (AtTLB :: (level <$> data))
    ∧ (hit first = true → non_decreasing (level <$> tr)).
Proof.
  unfold MemoryHierarchy.simulateAccess. intros H.
  apply bind_Ok in H as (page & _ & H).
  apply bind_Ok in H as ([tl time] & _ & H).
  case_bool_decide as Htlb.
  - apply bind_Ok in H as ([h1 tr1] & Hdata & H). injection H as <- <-.
    apply data_path_trace in Hdata as (_ & _ & Hpre & _). simpl in Hpre.
    pose proof (below_the_tlb_sorted _ _ Hpre) as Hsorted.
    eexists _, [], tr1. repeat split; try done.
  - apply bind_Ok in H as ([r time'] & _ & H).
    case_bool_decide as Hram.
    + apply bind_Ok in H as ([h1 tr1] & Hdata & H). injection H as <- <-.
      apply data_path_trace in Hdata as (_ & _ & Hpre & _). simpl in Hpre.
      pose proof (below_the_tlb_sorted _ _ Hpre) as Hsorted.
      eexists _, [_], tr1. repeat split; try done. intros _. by left.
    + apply bind_Ok in H as ([h1 tr1] & Hdata & H). injection H as <- <-.
      apply data_path_trace in Hdata as (_ & _ & Hpre & _). simpl in Hpre.
      pose proof (below_the_tlb_sorted _ _ Hpre) as Hsorted.
      eexists _, [_; _], tr1. repeat split; try done. intros _. by right.
Qed.

Lemma levels_after_translation_follow_the_order_witness :
  ∃ first translation data,
    [mkOutcome AtTLB true 0; mkOutcome (AtCache 0) true 1]
      = first :: translation ++ data
    ∧ level first = AtTLB
    ∧ (hit first = true → translation = [])
    ∧ (hit first = false →
         level <$> translation = [AtRAM] ∨ level <$> translation = [AtRAM; AtDISK])
    ∧ (level <$> data) `prefix_of` full_chain (length (MemoryHierarchy.caches warmed_up))
    ∧ non_decreasing (AtTLB :: (level <$> data))
    ∧ (hit first = true →
         non_decreasing (level <$> [mkOutcome AtTLB true 0; mkOutcome (AtCache 0) true 1])).
Proof.
  eapply (levels_after_translation_follow_the_order warmed_up _ (steady 2) 0).
  reflexivity.
Defined.

(** ** An access to a well-formed hierarchy never faults *)

Arguments PerformanceAnalyzer.logAccess : simpl never.




(** ** Logging *)






(** * Further properties *)

(** ** Address patterns *)

Lemma int_add_Ok (a b : Z) :
  INT_MIN ≤ a + b ≤ INT_MAX → int_add a b = Ok (a + b).
Proof. intros H. unfold int_add. by rewrite bool_decide_eq_true_2. Qed.

Lemma int_sub_Ok (a b : Z) :
  INT_MIN ≤ a - b ≤ INT_MAX → int_sub a b = Ok (a - b).
Proof. intros H. unfold int_sub. by rewrite bool_decide_eq_true_2. Qed.

(** The addresses [addr], [addr + step], ... that do not exceed
    [endAddress]. *)
Lemma strides_cons (addr endAddress step : Z) :
  0 < step → addr ≤ endAddress →
  (λ k, addr + k * step) <$> seqZ 0 ((endAddress - addr) / step + 1)
  = addr :: ((λ k, addr + step + k * step)
               <$> seqZ 0 ((endAddress - (addr + step)) / step + 1)).
Proof.
  intros Hstep Hle.
  assert (0 ≤ (endAddress - addr) / step) by (apply Z.div_pos; lia).
  replace ((endAddress - (addr + step)) / step + 1) with ((endAddress - addr) / step).
  2: { replace (endAddress - (addr + step)) with (endAddress - addr + (-1) * step) by lia.
       rewrite Z.div_add by lia. lia. }
  rewrite seqZ_cons by lia. simpl. f_equal; [lia |].
  replace (Z.pred ((endAddress - addr) / step + 1)) with ((endAddress - addr) / step) by lia.
  replace (Z.succ 0) with (1 + 0) by lia.
  rewrite <- (fmap_add_seqZ 1 0), <- list_fmap_compose.
  apply list_fmap_ext. intros _ k _. simpl. lia.
Qed.

Lemma sequential_loop_strides (fuel : nat) :
  ∀ (addr endAddress step : Z) (addresses : list Z),
  0 < step → INT_MIN ≤ addr → endAddress + step ≤ INT_MAX →
  (Z.to_nat ((endAddress - addr) / step + 1) < fuel)%nat →
  sequential_loop fuel addr endAddress step addresses
  = Some (Ok (addresses
              ++ ((λ k, addr + k * step) <$> seqZ 0 ((endAddress - addr) / step + 1)))).
Proof.
  induction fuel as [| fuel IH]; intros addr endAddress step addresses Hstep Hmin Hmax Hfuel;
    [lia |].
  simpl. case_bool_decide as Hle.
  - assert (0 ≤ (endAddress - addr) / step) by (apply Z.div_pos; lia).
    rewrite int_add_Ok by lia.
    rewrite IH; try lia.
    + rewrite (strides_cons addr endAddress step) by done. by rewrite <- app_assoc.
    + replace (endAddress - (addr + step)) with (endAddress - addr + (-1) * step) by lia.
      rewrite Z.div_add by lia. lia.
  - assert ((endAddress - addr) / step < 0) by (apply Z.div_lt_upper_bound; lia).
    rewrite seqZ_nil by lia. by rewrite app_nil_r.
Qed.

(** X1: for a positive step and an end address at least a step below
    INT_MAX, generateSequentialAccess returns, given fuel for its
    (end - start) / step + 2 loop tests, the addresses start, start + step,
    start + 2 step, ... up to the last one that does not exceed the end
    address; above the end address it returns the empty vector. *)
Theorem sequential_addresses (fuel : nat) (startAddress endAddress step : Z) :
  0 < step → INT_MIN ≤ startAddress → endAddress + step ≤ INT_MAX →
  (Z.to_nat ((endAddress - startAddress) / step + 1) < fuel)%nat →
  generateSequentialAccess fuel startAddress endAddress step
  = Some (Ok ((λ k, startAddress + k * step)
                <$> seqZ 0 ((endAddress - startAddress) / step + 1)))
  ∧ (endAddress < startAddress →
     generateSequentialAccess fuel startAddress endAddress step = Some (Ok [])).
Proof.
  intros Hstep Hmin Hmax Hfuel. unfold generateSequentialAccess.
  rewrite sequential_loop_strides by done. split; [done |].
  intros Hlt.
  assert ((endAddress - startAddress) / step < 0) by (apply Z.div_lt_upper_bound; lia).
  by rewrite seqZ_nil by lia.
Qed.

Lemma sequential_addresses_witness :
  generateSequentialAccess 6 3 47 10
  = Some (Ok ((λ k, 3 + k * 10) <$> seqZ 0 ((47 - 3) / 10 + 1)))
  ∧ (47 < 3 → generateSequentialAccess 6 3 47 10 = Some (Ok [])).
Proof.
  apply (sequential_addresses 6 3 47 10); [lia | vm_compute; discriminate | vm_compute; discriminate | vm_compute; lia].
Defined.

(** X2: with step 0 and a start address that does not exceed the end
    address the loop of generateSequentialAccess never ends: no amount of
    fuel makes it return. *)
Theorem sequential_access_with_step_zero_never_returns
    (fuel : nat) (startAddress endAddress : Z) :
  startAddress ≤ endAddress → INT_MIN ≤ startAddress ≤ INT_MAX →
  generateSequentialAccess fuel startAddress endAddress 0 = None.
Proof.
  intros Hle Hint. unfold generateSequentialAccess. generalize (@nil Z).
  induction fuel as [| fuel IH]; intros addresses; [done |].
  simpl. rewrite bool_decide_eq_true_2 by done.
  rewrite int_add_Ok by lia. rewrite Z.add_0_r. apply IH.
Qed.

Lemma sequential_access_with_step_zero_never_returns_witness :
  generateSequentialAccess 1000 3 7 0 = None.
Proof.
  apply (sequential_access_with_step_zero_never_returns 1000 3 7);
    [lia | split; vm_compute; discriminate].
Defined.

Lemma strides_of_one (addr endAddress : Z) :
  (λ k, addr + k * 1) <$> seqZ 0 ((endAddress - addr) / 1 + 1)
  = seqZ addr (endAddress - addr + 1).
Proof.
  rewrite Z.div_1_r.
  transitivity (Z.add addr <$> seqZ 0 (endAddress - addr + 1)).
  - apply list_fmap_ext. intros _ k _. lia.
  - rewrite fmap_add_seqZ. f_equal. lia.
Qed.

Lemma loop_rounds_repeat (fuel rounds : nat) :
  ∀ (startAddress endAddress : Z) (addresses : list Z),
  INT_MIN ≤ startAddress → endAddress < INT_MAX →
  (Z.to_nat (endAddress - startAddress + 1) < fuel)%nat →
  loop_rounds fuel rounds startAddress endAddress addresses
  = Some (Ok (addresses
              ++ concat (replicate rounds
                           (seqZ startAddress (endAddress - startAddress + 1))))).
Proof.
  induction rounds as [| rounds IH]; intros startAddress endAddress addresses Hmin Hmax Hfuel;
    simpl.
  { by rewrite app_nil_r. }
  rewrite sequential_loop_strides; [| lia | done | lia |].
  - rewrite IH by done. by rewrite strides_of_one, <- app_assoc.
  - by rewrite Z.div_1_r.
Qed.

(** X3: for an end address below INT_MAX, generateLoopAccess returns, given
    fuel for the end - start + 2 tests of one pass of its inner loop, the
    addresses start, start + 1, ..., end repeated loopCount times; it
    returns the empty vector when the start address exceeds the end address
    or when loopCount is not positive. *)
Theorem loop_addresses (fuel : nat) (startAddress endAddress loopCount : Z) :
  INT_MIN ≤ startAddress → endAddress < INT_MAX →
  (Z.to_nat (endAddress - startAddress + 1) < fuel)%nat →
  generateLoopAccess fuel startAddress endAddress loopCount
  = Some (Ok (concat (replicate (Z.to_nat loopCount)
                        (seqZ startAddress (endAddress - startAddress + 1)))))
  ∧ (endAddress < startAddress ∨ loopCount ≤ 0 →
     generateLoopAccess fuel startAddress endAddress loopCount = Some (Ok [])).
Proof.
  intros Hmin Hmax Hfuel. unfold generateLoopAccess.
  rewrite loop_rounds_repeat by done. simpl. split; [done |].
  intros [Hlt | Hcount].
  - rewrite seqZ_nil by lia. do 2 f_equal.
    induction (Z.to_nat loopCount) as [| n IH]; [done | by simpl].
  - by replace (Z.to_nat loopCount) with 0%nat by lia.
Qed.

Lemma loop_addresses_witness :
  generateLoopAccess 6 3 6 2
  = Some (Ok (concat (replicate (Z.to_nat 2) (seqZ 3 (6 - 3 + 1)))))
  ∧ (6 < 3 ∨ 2 ≤ 0 → generateLoopAccess 6 3 6 2 = Some (Ok [])).
Proof.
  apply (loop_addresses 6 3 6 2);
    [vm_compute; discriminate | vm_compute; reflexivity | vm_compute; lia].
Defined.

Lemma sequential_loop_runs_into_INT_MAX (fuel : nat) :
  ∀ (addr : Z) (addresses : list Z),
  INT_MIN ≤ addr ≤ INT_MAX →
  (Z.to_nat (INT_MAX - addr) < fuel)%nat →
  sequential_loop fuel addr INT_MAX 1 addresses = Some (Err SignedOverflow).
Proof.
  induction fuel as [| fuel IH]; intros addr addresses Hint Hfuel; [lia |].
  simpl. rewrite bool_decide_eq_true_2 by lia.
  destruct (decide (addr = INT_MAX)) as [-> | Hne]; [done |].
  rewrite int_add_Ok by lia. apply IH; lia.
Qed.

(** X4: with INT_MAX as the end address the inner loop of
    generateLoopAccess has no clean exit: for a positive loopCount and
    enough fuel to reach INT_MAX, the first pass ends in the signed
    overflow of ++addr. *)
Theorem loop_access_up_to_INT_MAX_overflows (fuel : nat) (startAddress loopCount : Z) :
  INT_MIN ≤ startAddress ≤ INT_MAX → 0 < loopCount →
  (Z.to_nat (INT_MAX - startAddress) < fuel)%nat →
  generateLoopAccess fuel startAddress INT_MAX loopCount = Some (Err SignedOverflow).
Proof.
  intros Hint Hcount Hfuel. unfold generateLoopAccess.
  destruct (Z.to_nat loopCount) as [| rounds] eqn:Hrounds; [lia |]. simpl.
  by rewrite sequential_loop_runs_into_INT_MAX.
Qed.

Lemma loop_access_up_to_INT_MAX_overflows_witness :
  generateLoopAccess 4 (INT_MAX - 2) INT_MAX 5 = Some (Err SignedOverflow).
Proof.
  apply (loop_access_up_to_INT_MAX_overflows 4 (INT_MAX - 2) 5);
    [split; vm_compute; discriminate | lia | vm_compute; lia].
Defined.

Lemma random_loop_draws (draw : nat → Z) (n : nat) :
  ∀ (i : nat) (rangeStart rangeEnd : Z) (addresses : list Z),
  INT_MIN ≤ rangeStart → rangeStart ≤ rangeEnd → rangeEnd ≤ INT_MAX →
  rangeEnd - rangeStart < INT_MAX →
  (∀ j, 0 ≤ draw j ≤ INT_MAX) →
  random_loop draw i n rangeStart rangeEnd addresses
  = Ok (addresses
        ++ ((λ j, rangeStart + Z.rem (draw j) (rangeEnd - rangeStart + 1)) <$> seq i n)).
Proof.
  induction n as [| n IH]; intros i rangeStart rangeEnd addresses Hmin Hle Hmax Hwidth Hdraw;
    simpl.
  { by rewrite app_nil_r. }
  assert (INT_MIN < 0 ∧ 0 < INT_MAX) as [? ?] by (by vm_compute).
  rewrite int_sub_Ok by lia. simpl. rewrite int_add_Ok by lia. simpl.
  rewrite int_rem_Ok by lia. simpl.
  pose proof (Z.rem_bound_pos (draw i) (rangeEnd - rangeStart + 1)
                (proj1 (Hdraw i)) ltac:(lia)) as Hrem.
  rewrite int_add_Ok by lia. simpl.
  rewrite IH by done. by rewrite <- app_assoc.
Qed.

(** X5: for a range rangeStart <= rangeEnd whose width fits an int and
    draws of std::rand between 0 and INT_MAX, generateRandomAccess returns
    count addresses (none for a count that is not positive), the i-th being
    rangeStart + rand_i % (rangeEnd - rangeStart + 1), and every one of
    them lies within the range. *)
Theorem random_addresses (draw : nat → Z) (rangeStart rangeEnd count : Z) :
  INT_MIN ≤ rangeStart → rangeStart ≤ rangeEnd → rangeEnd ≤ INT_MAX →
  rangeEnd - rangeStart < INT_MAX →
  (∀ j, 0 ≤ draw j ≤ INT_MAX) →
  ∃ addresses,
    generateRandomAccess draw rangeStart rangeEnd count = Ok addresses
    ∧ addresses = (λ j, rangeStart + Z.rem (draw j) (rangeEnd - rangeStart + 1))
                    <$> seq 0 (Z.to_nat count)
    ∧ length addresses = Z.to_nat count
    ∧ Forall (λ a, rangeStart ≤ a ≤ rangeEnd) addresses.
Proof.
  intros Hmin Hle Hmax Hwidth Hdraw. eexists. unfold generateRandomAccess.
  rewrite random_loop_draws by done. simpl. split; [done |]. split; [done |].
  split; [by rewrite length_fmap, length_seq |].
  apply Forall_fmap, Forall_forall. intros j _. simpl.
  pose proof (Z.rem_bound_pos (draw j) (rangeEnd - rangeStart + 1)
                (proj1 (Hdraw j)) ltac:(lia)). lia.
Qed.

Lemma random_addresses_witness :
  ∃ addresses,
    generateRandomAccess (λ j, (17 * Z.of_nat j + 5) `mod` 32768) 10 14 6 = Ok addresses
    ∧ addresses = (λ j, 10 + Z.rem ((17 * Z.of_nat j + 5) `mod` 32768) (14 - 10 + 1))
                    <$> seq 0 (Z.to_nat 6)
    ∧ length addresses = Z.to_nat 6
    ∧ Forall (λ a, 10 ≤ a ≤ 14) addresses.
Proof.
  apply (random_addresses (λ j, (17 * Z.of_nat j + 5) `mod` 32768) 10 14 6);
    [vm_compute; discriminate | lia | vm_compute; discriminate | vm_compute; reflexivity |].
  intros j. unfold INT_MAX.
  pose proof (Z.mod_pos_bound (17 * Z.of_nat j + 5) 32768). lia.
Defined.

Lemma loop_rounds_empty (fuel rounds : nat) (startAddress endAddress : Z)
    (addresses : list Z) :
  endAddress < startAddress → (0 < fuel)%nat →
  loop_rounds fuel rounds startAddress endAddress addresses = Some (Ok addresses).
Proof.
  intros Hlt Hfuel. destruct fuel as [| fuel]; [lia |].
  induction rounds as [| rounds IH]; [done |].
  simpl. by rewrite bool_decide_eq_false_2 by lia.
Qed.

(** X6: when the start address exceeds the end address, generateAddresses
    yields no address for the sequential pattern, the loop pattern and any
    unrecognised pattern choice, whatever the two addresses are. *)
Theorem generateAddresses_on_empty_range
    (fuel : nat) (draw : nat → Z) (patternChoice startAddress endAddress : Z) :
  endAddress < startAddress → (0 < fuel)%nat → patternChoice ≠ 2 →
  generateAddresses fuel draw patternChoice startAddress endAddress = Some (Ok []).
Proof.
  intros Hlt Hfuel Hne. unfold generateAddresses.
  assert (generateSequentialAccess fuel startAddress endAddress 10 = Some (Ok []))
    as Hseq.
  { destruct fuel as [| fuel]; [lia |]. unfold generateSequentialAccess.
    cbn [sequential_loop]. by rewrite bool_decide_eq_false_2 by lia. }
  rewrite Hseq. rewrite (bool_decide_eq_false_2 (patternChoice = 2)) by done.
  unfold generateLoopAccess. rewrite loop_rounds_empty by done.
  by repeat case_bool_decide.
Qed.

Lemma generateAddresses_on_empty_range_witness :
  generateAddresses 1 (λ _, 0) 3 8 7 = Some (Ok []).
Proof. apply (generateAddresses_on_empty_range 1 (λ _, 0) 3 8 7); lia. Defined.

Lemma random_loop_zero_width (draw : nat → Z) (i n : nat) (rangeStart : Z)
    (addresses : list Z) :
  random_loop draw i (S n) rangeStart (rangeStart - 1) addresses = Err DivisionByZero.
Proof.
  cbn [random_loop]. unfold int_sub.
  replace (rangeStart - 1 - rangeStart) with (-1) by lia.
  rewrite bool_decide_eq_true_2 by (unfold INT_MIN, INT_MAX; lia).
  done.
Qed.

(** X7: asked for at least one address of a range whose end is one below
    its start, generateRandomAccess divides by zero in its first round, the
    width of the range being zero; so does generateAddresses for the random
    pattern, which asks for twenty addresses. *)
Theorem random_access_on_a_zero_width_range
    (fuel : nat) (draw : nat → Z) (rangeStart count : Z) :
  0 < count →
  generateRandomAccess draw rangeStart (rangeStart - 1) count = Err DivisionByZero
  ∧ generateAddresses fuel draw 2 rangeStart (rangeStart - 1)
    = Some (Err DivisionByZero).
Proof.
  intros Hcount. split.
  - unfold generateRandomAccess.
    destruct (Z.to_nat count) as [| n] eqn:Hn; [lia |].
    apply random_loop_zero_width.
  - unfold generateAddresses, generateRandomAccess.
    rewrite bool_decide_eq_false_2 by done. rewrite bool_decide_eq_true_2 by done.
    change (Z.to_nat 20) with (S 19). by rewrite random_loop_zero_width.
Qed.

Lemma random_access_on_a_zero_width_range_witness :
  generateRandomAccess (λ _, 41) 8 (8 - 1) 3 = Err DivisionByZero
  ∧ generateAddresses 1 (λ _, 41) 2 8 (8 - 1) = Some (Err DivisionByZero).
Proof. apply (random_access_on_a_zero_width_range 1 (λ _, 41) 8 3). lia. Defined.

(** ** The replacement policies *)

Lemma foldl_lru_step_spec (l : list (Z * Z)) :
  ∀ acc : Z * Z,
  (foldl lru_step acc l = acc ∧ ∀ e, e ∈ l → acc.2 ≤ e.2)
  ∨ (foldl lru_step acc l ∈ l
     ∧ (foldl lru_step acc l).2 < acc.2
     ∧ ∀ e, e ∈ l → (foldl lru_step acc l).2 ≤ e.2).
Proof.
  induction l as [| x l IH]; intros acc; cbn [foldl].
  { left. split; [done |]. intros e He. by apply elem_of_nil in He. }
  destruct (decide (x.2 < acc.2)) as [Hlt | Hlt].
  - replace (lru_step acc x) with x
      by (unfold lru_step; by rewrite bool_decide_eq_true_2).
    right. destruct (IH x) as [[-> Hall] | (Hin & Hv & Hall)].
    + split; [by left |]. split; [done |].
      intros e [-> | He]%elem_of_cons; [done | by apply Hall].
    + split; [by right |]. split; [lia |].
      intros e [-> | He]%elem_of_cons; [lia | by apply Hall].
  - replace (lru_step acc x) with acc
      by (unfold lru_step; by rewrite bool_decide_eq_false_2).
    destruct (IH acc) as [[-> Hall] | (Hin & Hv & Hall)].
    + left. split; [done |].
      intros e [-> | He]%elem_of_cons; [lia | by apply Hall].
    + right. split; [by right |]. split; [done |].
      intros e [-> | He]%elem_of_cons; [lia | by apply Hall].
Qed.

(** X8: in whatever order the entries of lruMap are visited, the scan of
    replace either finds no stamp older than the current time and keeps its
    initial candidate -1, or ends on an entry of the map whose stamp is
    older than the current time and not newer than any other; two orders of
    the same entries end on the same stamp. *)
Theorem lru_scan_ends_on_an_oldest_stamp (l l' : list (Z * Z)) (now : Z) :
  ((lru_scan l now = (-1, now) ∧ ∀ e, e ∈ l → now ≤ e.2)
   ∨ (lru_scan l now ∈ l
      ∧ (lru_scan l now).2 < now
      ∧ ∀ e, e ∈ l → (lru_scan l now).2 ≤ e.2))
  ∧ (l ≡ₚ l' → (lru_scan l' now).2 = (lru_scan l now).2).
Proof.
  split; [apply (foldl_lru_step_spec l (-1, now)) |].
  intros Hperm. unfold lru_scan.
  assert (∀ e, e ∈ l ↔ e ∈ l') as Hmem by (intros e; by rewrite Hperm).
  destruct (foldl_lru_step_spec l (-1, now)) as [[-> Hall] | (Hin & Hv & Hall)],
           (foldl_lru_step_spec l' (-1, now)) as [[-> Hall'] | (Hin' & Hv' & Hall')];
    cbn [snd] in *; try done.
  - apply Hmem in Hin'. specialize (Hall _ Hin'). lia.
  - apply Hmem in Hin. specialize (Hall' _ Hin). lia.
  - apply Hmem in Hin'. apply Hmem in Hin.
    specialize (Hall _ Hin'). specialize (Hall' _ Hin). lia.
Qed.

Lemma lru_scan_ends_on_an_oldest_stamp_witness :
  (lru_scan [(4, 30); (9, 12); (2, 25)] 40).2 = (lru_scan [(2, 25); (4, 30); (9, 12)] 40).2.
Proof.
  apply (proj2 (lru_scan_ends_on_an_oldest_stamp
                  [(2, 25); (4, 30); (9, 12)] [(4, 30); (9, 12); (2, 25)] 40)).
  apply (Permutation_cons_append [(4, 30); (9, 12)] (2, 25)).
Defined.

Lemma find_tag_skip (bs : list CacheBlock) (t : Z) (pre rest : list Z) :
  (∀ j, j ∈ pre → ∃ b, vec_get bs j = Ok b ∧ tag b ≠ t) →
  find_tag bs t (pre ++ rest) = find_tag bs t rest.
Proof.
  induction pre as [| j pre IH]; intros Hpre; simpl; [done |].
  destruct (Hpre j) as (b & -> & Hne); [by left |]. simpl.
  rewrite bool_decide_eq_false_2 by done.
  apply IH. intros j' Hj'. apply Hpre. by right.
Qed.

Lemma find_tag_first (bs : list CacheBlock) (t n : Z) (i : nat) (b : CacheBlock) :
  bs !! i = Some b → tag b = t → Z.of_nat i < n →
  (∀ j b', (j < i)%nat → bs !! j = Some b' → tag b' ≠ t) →
  find_tag bs t (seqZ 0 n) = Ok (Some (Z.of_nat i)).
Proof.
  intros Hb Ht Hn Hfirst.
  replace n with (Z.of_nat i + (n - Z.of_nat i)) by lia.
  rewrite seqZ_app by lia. rewrite find_tag_skip.
  - rewrite seqZ_cons by lia. cbn [find_tag]. rewrite Z.add_0_l.
    assert (vec_get bs (Z.of_nat i) = Ok b) as ->.
    { apply vec_get_Ok. rewrite Nat2Z.id. split; [lia | done]. }
    simpl. by rewrite bool_decide_eq_true_2.
  - intros j [Hj0 Hji]%elem_of_seqZ.
    destruct (lookup_lt_is_Some_2 bs (Z.to_nat j)) as [b' Hb'].
    { apply lookup_lt_Some in Hb. lia. }
    exists b'. split; [apply vec_get_Ok; split; [lia | done] |].
    apply (Hfirst (Z.to_nat j)); [lia | done].
Qed.

(** X9: when the LRU map is full and one of its tags carries a stamp older
    than the current time and older than every other stamp, replace evicts
    exactly that tag: it erases it from the map, writes the new tag into
    the first block that holds it and stamps the new tag with the time
    read; every other block and stamp stays as it was. *)
Theorem lru_evicts_the_least_recently_used
    (c : Cache.t) (o : Oracle) (index tg k v : Z) (i : nat) (b : CacheBlock) :
  Cache.policy c = LRU →
  Z.of_nat (base.size (Cache.lruMap c)) = Cache.numBlocks c →
  Cache.lruMap c !! k = Some v → v < time_scan o →
  (∀ k' v', Cache.lruMap c !! k' = Some v' → k' ≠ k → v < v') →
  Cache.blocks c !! i = Some b → tag b = k → Z.of_nat i < Cache.numBlocks c →
  (∀ j b', (j < i)%nat → Cache.blocks c !! j = Some b' → tag b' ≠ k) →
  Cache.replace c o index tg
  = Ok (Cache.set_lruMap
          (Cache.set_blocks c (<[i := mkCacheBlock tg true]> (Cache.blocks c)))
          (<[tg := time_stamp o]> (delete k (Cache.lruMap c)))).
Proof.
  intros Hpol Hfull Hk Hv Hmin Hb Ht Hi Hfirst.
  unfold Cache.replace. rewrite Hpol. rewrite bool_decide_eq_true_2 by done.
  simpl. rewrite (lru_victim_min _ _ k v) by done.
  rewrite (find_tag_first _ _ _ i b) by done. simpl.
  rewrite vec_set_Ok; [by rewrite Nat2Z.id |].
  apply lookup_lt_Some in Hb. lia.
Qed.

Lemma lru_evicts_the_least_recently_used_witness :
  Cache.run lru_demo [(at_time 1, 0); (at_time 2, 1); (at_time 3, 0)]
  = Ok (lru_warm, [-1; -1; 1])
  ∧ Cache.replace lru_warm (at_time 4) 0 2
    = Ok (Cache.set_lruMap
            (Cache.set_blocks lru_warm
               (<[1%nat := mkCacheBlock 2 true]> (Cache.blocks lru_warm)))
            (<[2 := 4]> (delete 1 (Cache.lruMap lru_warm)))).
Proof.
  split; [by vm_compute |].
  apply (lru_evicts_the_least_recently_used lru_warm (at_time 4) 0 2 1 2 1%nat
           (mkCacheBlock 1 true)).
  - reflexivity.
  - by vm_compute.
  - by vm_compute.
  - simpl. lia.
  - intros k' v' Hk' Hne. unfold lru_warm in Hk'. cbn [Cache.lruMap] in Hk'.
    apply lookup_insert_Some in Hk' as [[<- <-] | [_ Hk']]; [lia |].
    apply lookup_insert_Some in Hk' as [[<- <-] | [_ Hk']]; [done |].
    by rewrite lookup_empty in Hk'.
  - reflexivity.
  - reflexivity.
  - simpl. lia.
  - intros [| [| j]] b' Hj; [| lia | lia]. intros [= <-]. simpl. lia.
Defined.

(** ** Probes *)

(** X10: a negative address whose block number is not a multiple of the
    number of blocks is looked up at a negative index, the remainder taking
    the sign of the dividend: the probe reads outside the blocks. *)
Theorem probe_of_a_negative_address_is_out_of_range
    (c : Cache.t) (o : Oracle) (address : Z) :
  0 < Cache.blockSize c → 0 < Cache.numBlocks c →
  address < 0 → Z.rem (address ÷ Cache.blockSize c) (Cache.numBlocks c) ≠ 0 →
  Cache.access c o address = Err OutOfRange.
Proof.
  intros Hbs Hn Ha Hrem. unfold Cache.access, Cache.getIndex.
  rewrite int_div_Ok by done. simpl. rewrite int_rem_Ok by done. simpl.
  assert (address ÷ Cache.blockSize c ≤ 0) as Hq.
  { rewrite <- (Z.opp_involutive address), Z.quot_opp_l by lia.
    pose proof (Z.quot_pos (- address) (Cache.blockSize c)). lia. }
  pose proof (Z.rem_nonpos (address ÷ Cache.blockSize c) (Cache.numBlocks c)
                ltac:(lia) Hq) as Hle.
  unfold vec_get. by rewrite bool_decide_eq_false_2 by lia.
Qed.

Lemma probe_of_a_negative_address_is_out_of_range_witness :
  Cache.access fifo_demo (at_time 0) (-1) = Err OutOfRange.
Proof.
  apply (probe_of_a_negative_address_is_out_of_range fifo_demo (at_time 0) (-1));
    [reflexivity | reflexivity | lia | vm_compute; discriminate].
Defined.

(** The block a probe consults, on a well-formed level. *)
Lemma access_unfold (c : Cache.t) (o : Oracle) (address : Z) :
  well_formed c → 0 ≤ address →
  let tg := address ÷ Cache.blockSize c in
  let index := Z.rem tg (Cache.numBlocks c) in
  ∃ b, Cache.blocks c !! Z.to_nat index = Some b
    ∧ 0 ≤ index < Cache.numBlocks c
    ∧ Cache.access c o address =
        if valid b && bool_decide (tag b = tg) then
          Ok (match Cache.policy c with
              | LRU => Cache.set_lruMap c (<[tg := time_stamp o]> (Cache.lruMap c))
              | _ => c
              end, Cache.accessTime c)
        else c' ← Cache.replace c o index tg; Ok (c', -1).
Proof.
  intros Hwf Ha tg index.
  destruct (getIndex_Ok c address Hwf Ha) as [Hidx Hrange].
  destruct Hwf as (Hbs & Hn & Hlen & _).
  destruct (lookup_lt_is_Some_2 (Cache.blocks c) (Z.to_nat index)) as [b Hb];
    [unfold index, tg; lia |].
  exists b. split; [done |]. split; [done |].
  unfold Cache.access. rewrite Hidx. simpl. rewrite int_div_Ok by done. simpl.
  assert (vec_get (Cache.blocks c) index = Ok b) as Hget.
  { apply vec_get_Ok. split; [unfold index, tg; lia | done]. }
  unfold index, tg in Hget. by rewrite Hget.
Qed.

Lemma same_shape_refl (c : Cache.t) : same_shape c c.
Proof. by repeat split. Qed.

Lemma same_shape_trans (c1 c2 c3 : Cache.t) :
  same_shape c1 c2 → same_shape c2 c3 → same_shape c1 c3.
Proof.
  intros (? & ? & ? & ? & ?) (? & ? & ? & ? & ?). repeat split; congruence.
Qed.

(** Whatever a probe does, it leaves the configuration of the level alone. *)
Lemma replace_same_shape (c c' : Cache.t) (o : Oracle) (index tg : Z) :
  Cache.replace c o index tg = Ok c' → same_shape c c'.
Proof.
  unfold Cache.replace. destruct (Cache.policy c) eqn:Hpol.
  - case_bool_decide as Hfull.
    + destruct (Cache.fifoQueue c); [done |]. intros H. inv_bind H.
      injection H as <-. by repeat split.
    + intros H. inv_bind H. injection H as <-. by repeat split.
  - case_bool_decide as Hfull.
    + simpl. intros H. inv_bind H. destruct x as [i |].
      * inv_bind H. injection H as <-. by repeat split.
      * injection H as <-. by repeat split.
    + intros H. inv_bind H. injection H as <-. by repeat split.
  - simpl. intros H. inv_bind H. destruct x as [j |].
    + inv_bind H. injection H as <-. by repeat split.
    + inv_bind H. injection H as <-. by repeat split.
Qed.

Lemma access_same_shape (c c' : Cache.t) (o : Oracle) (address r : Z) :
  Cache.access c o address = Ok (c', r) → same_shape c c'.
Proof.
  unfold Cache.access. intros H. inv_bind H.
  destruct (valid x1 && bool_decide (tag x1 = x0)).
  - injection H as <- _. destruct (Cache.policy c) eqn:Hpol; by repeat split.
  - inv_bind H. injection H as <- _. by eapply replace_same_shape.
Qed.

(** A probe that hits, or that misses while replace still writes the home
    slot, leaves a well-formed level with the probed tag in its home slot. *)
Lemma access_leaves_tag_at_home (c c' : Cache.t) (o : Oracle) (address r : Z) :
  well_formed c → 0 ≤ address →
  r ≠ -1 ∨ fills_home_slot c →
  Cache.access c o address = Ok (c', r) →
  well_formed c'
  ∧ resident_at (Cache.blocks c')
      (Z.to_nat (Z.rem (address ÷ Cache.blockSize c) (Cache.numBlocks c)))
      (address ÷ Cache.blockSize c).
Proof.
  intros Hwf Ha Hhome Hacc. split.
  { destruct (access_unfold c o address Hwf Ha) as (b & Hb & Hidx & Heq).
    rewrite Hacc in Heq.
    destruct Hwf as (Hbs & Hn & Hlen & Hq & Hqlen & Hri).
    destruct (valid b && bool_decide (tag b = address ÷ Cache.blockSize c)).
    - injection Heq as -> _.
      assert (∀ m, well_formed (Cache.set_lruMap c m)) as Hwfm by (by repeat split).
      assert (well_formed c) as Hwf0 by (by repeat split).
      destruct (Cache.policy c); first [apply Hwfm | apply Hwf0].
    - destruct Hhome as [Hr | Hfill].
      { destruct (Cache.replace c o _ _); simpl in Heq; [| done].
        injection Heq as _ ->. done. }
      unfold Cache.replace, fills_home_slot in *.
      destruct (Cache.policy c) eqn:Hpol; [| | done].
      + rewrite bool_decide_eq_false_2 in Heq by done.
        rewrite vec_set_Ok in Heq by lia. simpl in Heq. injection Heq as -> _.
        unfold well_formed. simpl. rewrite length_insert, length_app. simpl.
        repeat split; try lia; try done.
        * apply Forall_app. split; [done |]. by apply Forall_singleton.
        * intros ?. congruence.
      + rewrite bool_decide_eq_false_2 in Heq by done.
        rewrite vec_set_Ok in Heq by lia. simpl in Heq. injection Heq as -> _.
        unfold well_formed. simpl. rewrite length_insert.
        repeat split; try lia; try done. intros ?. congruence. }
  { destruct (access_unfold c o address Hwf Ha) as (b & Hb & Hidx & Heq).
    rewrite Hacc in Heq.
    destruct Hwf as (Hbs & Hn & Hlen & Hq & Hqlen & Hri).
    destruct (valid b && bool_decide (tag b = address ÷ Cache.blockSize c)) eqn:Hhit.
    - apply andb_true_iff in Hhit as [Hv Ht]. apply bool_decide_eq_true in Ht.
      injection Heq as -> _. unfold resident_at.
      assert (Cache.blocks
                match Cache.policy c with
                | LRU => Cache.set_lruMap c
                           (<[address ÷ Cache.blockSize c := time_stamp o]> (Cache.lruMap c))
                | _ => c
                end = Cache.blocks c) as -> by (by destruct (Cache.policy c)).
      rewrite Hb. destruct b as [t v]. simpl in *. by subst.
    - destruct Hhome as [Hr | Hfill].
      { destruct (Cache.replace c o _ _); simpl in Heq; [| done].
        injection Heq as _ ->. done. }
      unfold Cache.replace, fills_home_slot in *.
      destruct (Cache.policy c) eqn:Hpol; [| | done].
      + rewrite bool_decide_eq_false_2 in Heq by done.
        rewrite vec_set_Ok in Heq by lia. simpl in Heq. injection Heq as -> _.
        unfold resident_at. simpl. apply list_lookup_insert_eq. lia.
      + rewrite bool_decide_eq_false_2 in Heq by done.
        rewrite vec_set_Ok in Heq by lia. simpl in Heq. injection Heq as -> _.
        unfold resident_at. simpl. apply list_lookup_insert_eq. lia. }
Qed.

(** A probe of an address whose tag is in its home slot hits. *)
Lemma resident_at_home_hits (c : Cache.t) (o : Oracle) (address : Z) :
  well_formed c → 0 ≤ address →
  resident_at (Cache.blocks c)
    (Z.to_nat (Z.rem (address ÷ Cache.blockSize c) (Cache.numBlocks c)))
    (address ÷ Cache.blockSize c) →
  ∃ c', Cache.access c o address = Ok (c', Cache.accessTime c)
    ∧ Cache.blocks c' = Cache.blocks c.
Proof.
  intros Hwf Ha Hres.
  destruct (access_unfold c o address Hwf Ha) as (b & Hb & Hidx & Heq).
  unfold resident_at in Hres. rewrite Hres in Hb. injection Hb as <-.
  simpl in Heq. rewrite bool_decide_eq_true_2 in Heq by done. simpl in Heq.
  rewrite Heq. eexists. split; [done |]. by destruct (Cache.policy c).
Qed.

(** X11: on a well-formed level, a probe that hits, or that misses while
    replace still writes the home slot, leaves the probed tag in its home
    slot: the next probe of the same address, whatever the clock reads,
    hits, returns the access time and leaves the blocks as they are. *)
Theorem a_probe_that_fills_its_home_slot_is_followed_by_a_hit
    (c c' : Cache.t) (o o' : Oracle) (address r : Z) :
  well_formed c → 0 ≤ address →
  r ≠ -1 ∨ fills_home_slot c →
  Cache.access c o address = Ok (c', r) →
  resident_at (Cache.blocks c')
    (Z.to_nat (Z.rem (address ÷ Cache.blockSize c) (Cache.numBlocks c)))
    (address ÷ Cache.blockSize c)
  ∧ ∃ c'', Cache.access c' o' address = Ok (c'', Cache.accessTime c)
      ∧ Cache.blocks c'' = Cache.blocks c'.
Proof.
  intros Hwf Ha Hhome Hacc.
  destruct (access_leaves_tag_at_home c c' o address r) as [Hwf' Hres]; try done.
  split; [done |].
  apply access_same_shape in Hacc as (_ & Hbs' & Hn' & _ & Hat').
  rewrite <- Hbs', <- Hn', <- Hat' in *.
  by apply resident_at_home_hits.
Qed.

Lemma a_probe_that_fills_its_home_slot_is_followed_by_a_hit_witness :
  resident_at (Cache.blocks lru_first)
    (Z.to_nat (Z.rem (1 ÷ Cache.blockSize lru_demo) (Cache.numBlocks lru_demo)))
    (1 ÷ Cache.blockSize lru_demo)
  ∧ ∃ c'', Cache.access lru_first (at_time 9) 1 = Ok (c'', Cache.accessTime lru_demo)
      ∧ Cache.blocks c'' = Cache.blocks lru_first.
Proof.
  apply (a_probe_that_fills_its_home_slot_is_followed_by_a_hit
           lru_demo lru_first (at_time 2) (at_time 9) 1 (-1)).
  - unfold well_formed. vm_compute. repeat split; try done.
  - lia.
  - right. vm_compute. discriminate.
  - by vm_compute.
Defined.

(** X12: under FIFO with a full queue, replace writes the new tag into the
    slot at the front of the queue, not into the slot the probe looks at.
    When the two differ, a probe that misses makes its tag resident, and
    yet the next probe of the same address misses again. *)
Theorem fifo_admission_away_from_home_misses_again
    (c : Cache.t) (o o' : Oracle) (address oldIndex : Z) (q : list Z) :
  well_formed c → 0 ≤ address →
  Cache.policy c = FIFO →
  Cache.fifoQueue c = oldIndex :: q →
  Z.of_nat (length (Cache.fifoQueue c)) = Cache.numBlocks c →
  oldIndex ≠ Z.rem (address ÷ Cache.blockSize c) (Cache.numBlocks c) →
  ¬ resident_at (Cache.blocks c)
      (Z.to_nat (Z.rem (address ÷ Cache.blockSize c) (Cache.numBlocks c)))
      (address ÷ Cache.blockSize c) →
  ∃ c' c'',
    Cache.access c o address = Ok (c', -1)
    ∧ resident_at (Cache.blocks c') (Z.to_nat oldIndex) (address ÷ Cache.blockSize c)
    ∧ Cache.replace c' o' (Z.rem (address ÷ Cache.blockSize c) (Cache.numBlocks c))
        (address ÷ Cache.blockSize c) = Ok c''
    ∧ Cache.access c' o' address = Ok (c'', -1).
Proof.
  intros Hwf Ha Hpol Hqueue Hfull Hne Hout.
  set (tg := address ÷ Cache.blockSize c) in *.
  set (index := Z.rem tg (Cache.numBlocks c)) in *.
  assert (∀ b, Cache.blocks c !! Z.to_nat index = Some b →
               valid b && bool_decide (tag b = tg) = false) as Hmiss.
  { intros [t v] Hb. apply not_true_is_false. intros Hhit.
    apply andb_true_iff in Hhit as [Hv Ht]. apply bool_decide_eq_true in Ht.
    simpl in *. subst. by apply Hout. }
  destruct (access_unfold c o address Hwf Ha) as (b & Hb & Hidx & Heq).
  fold tg index in Hb, Hidx, Heq. rewrite (Hmiss b Hb) in Heq.
  pose proof Hwf as (Hbs & Hn & Hlen & Hq & Hqlen & Hri).
  rewrite Hqueue in Hq. apply Forall_cons in Hq as [Hold Hq].
  set (c' := Cache.set_fifoQueue
               (Cache.set_blocks c
                  (<[Z.to_nat oldIndex := mkCacheBlock tg true]> (Cache.blocks c)))
               (q ++ [index])).
  assert (Cache.replace c o index tg = Ok c') as Hrep.
  { unfold Cache.replace. rewrite Hpol, bool_decide_eq_true_2 by done.
    rewrite Hqueue. by rewrite vec_set_Ok by lia. }
  rewrite Hrep in Heq. simpl in Heq.
  assert (well_formed c') as Hwf'.
  { destruct (replace_total c o index tg) as (c1 & Hc1 & Hwf1 & _);
      [done | intros ?; congruence | done |].
    rewrite Hrep in Hc1. by injection Hc1 as ->. }
  destruct (replace_total c' o' index tg) as (c'' & Hrep' & _);
    [done | intros ?; simpl in *; congruence | done |].
  exists c', c''. split; [done |]. split.
  { unfold resident_at. simpl. apply list_lookup_insert_eq. lia. }
  split; [done |].
  destruct (access_unfold c' o' address Hwf' Ha) as (b' & Hb' & _ & Heq').
  simpl in Hb', Heq'. fold tg index in Hb', Heq'.
  rewrite list_lookup_insert_ne in Hb' by lia.
  rewrite (Hmiss b' Hb') in Heq'. by rewrite Heq', Hrep'.
Qed.

Lemma fifo_admission_away_from_home_misses_again_witness :
  ∃ c' c'',
    Cache.access fifo_full (at_time 0) 1 = Ok (c', -1)
    ∧ resident_at (Cache.blocks c') (Z.to_nat 0) (1 ÷ Cache.blockSize fifo_full)
    ∧ Cache.replace c' (at_time 0)
        (Z.rem (1 ÷ Cache.blockSize fifo_full) (Cache.numBlocks fifo_full))
        (1 ÷ Cache.blockSize fifo_full) = Ok c''
    ∧ Cache.access c' (at_time 0) 1 = Ok (c'', -1).
Proof.
  apply (fifo_admission_away_from_home_misses_again
           fifo_full (at_time 0) (at_time 0) 1 0 [0]).
  - unfold well_formed. vm_compute. repeat split; try done.
    repeat constructor; done.
  - lia.
  - reflexivity.
  - reflexivity.
  - reflexivity.
  - vm_compute. discriminate.
  - unfold resident_at. vm_compute. discriminate.
Defined.

(** ** Construction *)

(** X13: the constructor of Cache checks none of its arguments.  It returns
    exactly when the block size is not zero, the division s / bs does not
    overflow and the quotient is not negative; it divides by zero for a
    block size of zero and asks resize for a negative length when the
    quotient is negative.  A level it returns has s / bs blocks, all of
    them invalid, an empty queue and no stamps. *)
Theorem construction_returns_or_faults (s bs at_ : Z) (rp : ReplacementPolicy) :
  (bs = 0 → Cache.Cache s bs at_ rp = Err DivisionByZero)
  ∧ (s = INT_MIN → bs = -1 → Cache.Cache s bs at_ rp = Err SignedOverflow)
  ∧ (bs ≠ 0 → ¬ (s = INT_MIN ∧ bs = -1) → s ÷ bs < 0 →
     Cache.Cache s bs at_ rp = Err LengthError)
  ∧ (bs ≠ 0 → ¬ (s = INT_MIN ∧ bs = -1) → 0 ≤ s ÷ bs →
     ∃ c, Cache.Cache s bs at_ rp = Ok c
       ∧ Cache.numBlocks c = s ÷ bs
       ∧ Cache.blocks c = replicate (Z.to_nat (s ÷ bs)) empty_block
       ∧ Cache.fifoQueue c = [] ∧ Cache.lruMap c = ∅
       ∧ ∀ tg, ¬ resident (Cache.blocks c) tg).
Proof.
  unfold Cache.Cache, int_div. repeat split.
  - intros ->. by rewrite bool_decide_eq_true_2.
  - intros -> ->. done.
  - intros Hbs Hov Hneg. rewrite bool_decide_eq_false_2 by done.
    rewrite (bool_decide_eq_false_2 (s = INT_MIN ∧ bs = -1)) by done. simpl.
    unfold vec_resize. by rewrite bool_decide_eq_false_2 by lia.
  - intros Hbs Hov Hpos. rewrite bool_decide_eq_false_2 by done.
    rewrite (bool_decide_eq_false_2 (s = INT_MIN ∧ bs = -1)) by done. simpl.
    rewrite vec_resize_Ok by done. simpl. eexists. split; [done |]. simpl.
    repeat split. intros tg [i Hi]. unfold resident_at in Hi.
    apply lookup_replicate in Hi as [Hi _]. discriminate Hi.
Qed.

(** X14: the TLB is a cache of block size one.  Its constructor builds what
    the constructor of Cache builds for block size one, and a probe of a
    page does to the TLB what a probe of the address of that number does to
    the cache, with the same result. *)
Theorem TLB_is_a_cache_of_block_size_one
    (s at_ : Z) (rp : ReplacementPolicy) (t : TLB.t) (o : Oracle) (page : Z) :
  TLB.TLB s at_ rp = (c ← Cache.Cache s 1 at_ rp; Ok (cache_as_TLB c))
  ∧ Cache.blockSize (TLB_as_cache t) = 1
  ∧ cache_as_TLB (TLB_as_cache t) = t
  ∧ TLB.access t o page
    = ('(c, r) ← Cache.access (TLB_as_cache t) o page; Ok (cache_as_TLB c, r))
  ∧ ∀ t' r, TLB.access t o page = Ok (t', r)
            ↔ Cache.access (TLB_as_cache t) o page = Ok (TLB_as_cache t', r).
Proof.
  split.
  { unfold TLB.TLB, Cache.Cache, int_div.
    rewrite bool_decide_eq_false_2 by done.
    rewrite bool_decide_eq_false_2 by (intros [_ ?]; done).
    simpl. rewrite Z.quot_1_r. by destruct (vec_resize s empty_block). }
  split; [done |]. split; [apply cache_as_TLB_as_cache |].
  split; [apply TLB_access_as_cache |].
  intros t' r. rewrite TLB_access_as_cache. split.
  - destruct (Cache.access (TLB_as_cache t) o page) as [[c r'] |] eqn:Hacc;
      simpl; [| done].
    intros [= <- <-]. do 2 f_equal.
    apply access_same_shape in Hacc as (_ & Hbs & _). simpl in Hbs.
    destruct c; simpl in *. by subst.
  - intros ->. simpl. by rewrite cache_as_TLB_as_cache.
Qed.

(** ** The analyzer *)

Lemma replay_cons (e : AccessOutcome) (tr : list AccessOutcome)
    (a : PerformanceAnalyzer.t) :
  replay (e :: tr) a
  = replay tr (PerformanceAnalyzer.logAccess (hit e) (loggedAs e) a).
Proof. done. Qed.

Lemma logAccess_length_cacheMisses (hit : bool) (lvl : Z) (a : PerformanceAnalyzer.t) :
  length (PerformanceAnalyzer.cacheMisses (PerformanceAnalyzer.logAccess hit lvl a))
  = length (PerformanceAnalyzer.cacheMisses a).
Proof.
  unfold PerformanceAnalyzer.logAccess. destruct hit; simpl; [done |].
  case_bool_decide; [| done]. unfold incr. by rewrite length_alter.
Qed.

Lemma replay_length_cacheMisses (tr : list AccessOutcome) (a : PerformanceAnalyzer.t) :
  length (PerformanceAnalyzer.cacheMisses (replay tr a))
  = length (PerformanceAnalyzer.cacheMisses a).
Proof.
  revert a. induction tr as [| e tr IH]; intros a; [done |].
  rewrite replay_cons, IH. apply logAccess_length_cacheMisses.
Qed.

(** X15: logAccess counts every call once in totalAccesses and once in
    either hits or misses, whatever level it is given, and never changes
    the number of per-level counters: after any sequence of calls
    totalAccesses has grown by their number, hits + misses has grown by the
    same amount, and both counter vectors have the length they had. *)
Theorem logAccess_keeps_the_totals_in_step
    (tr : list AccessOutcome) (a : PerformanceAnalyzer.t) :
  PerformanceAnalyzer.totalAccesses (replay tr a)
  = PerformanceAnalyzer.totalAccesses a + Z.of_nat (length tr)
  ∧ PerformanceAnalyzer.hits (replay tr a) + PerformanceAnalyzer.misses (replay tr a)
    = PerformanceAnalyzer.hits a + PerformanceAnalyzer.misses a + Z.of_nat (length tr)
  ∧ PerformanceAnalyzer.hits a ≤ PerformanceAnalyzer.hits (replay tr a)
  ∧ PerformanceAnalyzer.misses a ≤ PerformanceAnalyzer.misses (replay tr a)
  ∧ length (PerformanceAnalyzer.cacheHits (replay tr a))
    = length (PerformanceAnalyzer.cacheHits a)
  ∧ length (PerformanceAnalyzer.cacheMisses (replay tr a))
    = length (PerformanceAnalyzer.cacheMisses a).
Proof.
  revert a. induction tr as [| e tr IH]; intros a.
  { simpl. repeat split; lia. }
  rewrite replay_cons.
  destruct (IH (PerformanceAnalyzer.logAccess (hit e) (loggedAs e) a))
    as (Htot & Hsum & Hh & Hm & Hlh & Hlm).
  rewrite Htot, Hsum, Hlh, Hlm, logAccess_length_cacheHits, logAccess_length_cacheMisses.
  simpl length.
  assert (PerformanceAnalyzer.totalAccesses
            (PerformanceAnalyzer.logAccess (hit e) (loggedAs e) a)
          = PerformanceAnalyzer.totalAccesses a + 1
          ∧ PerformanceAnalyzer.hits a
            ≤ PerformanceAnalyzer.hits
                (PerformanceAnalyzer.logAccess (hit e) (loggedAs e) a)
          ∧ PerformanceAnalyzer.misses a
            ≤ PerformanceAnalyzer.misses
                (PerformanceAnalyzer.logAccess (hit e) (loggedAs e) a)
          ∧ PerformanceAnalyzer.hits
              (PerformanceAnalyzer.logAccess (hit e) (loggedAs e) a)
            + PerformanceAnalyzer.misses
                (PerformanceAnalyzer.logAccess (hit e) (loggedAs e) a)
            = PerformanceAnalyzer.hits a + PerformanceAnalyzer.misses a + 1)
    as (H1 & H2 & H3 & H4).
  { unfold PerformanceAnalyzer.logAccess. destruct (hit e); simpl; lia. }
  repeat split; lia.
Qed.

Lemma count_nonneg (P : AccessOutcome → Prop) `{∀ e, Decision (P e)}
    (tr : list AccessOutcome) :
  0 ≤ count P tr.
Proof. unfold count. lia. Qed.

Lemma count_mono (P Q : AccessOutcome → Prop)
    `{∀ e, Decision (P e)} `{∀ e, Decision (Q e)} (tr : list AccessOutcome) :
  (∀ e, P e → Q e) → count P tr ≤ count Q tr.
Proof.
  intros HPQ. induction tr as [| e tr IH]; [done |].
  rewrite !count_cons. destruct (decide (P e)) as [HP | HP].
  - rewrite decide_True by auto. lia.
  - destruct (decide (Q e)); lia.
Qed.

(** X16: the per-level hit counters are cumulative.  Starting from a fresh
    analyzer, after any sequence of logAccess calls with levels in the
    range of a non-negative int, the counter at index l holds the number of
    hits logged with a level of at most l; so the counters never decrease
    along the vector, and none exceeds the total number of hits. *)
Theorem hit_counters_are_cumulative
    (numCaches : Z) (a0 : PerformanceAnalyzer.t) (tr : list AccessOutcome) :
  PerformanceAnalyzer.PerformanceAnalyzer numCaches = Ok a0 →
  Forall (λ e, 0 ≤ loggedAs e < 2 ^ 31) tr →
  (∀ l : nat, Z.of_nat l < numCaches →
     PerformanceAnalyzer.cacheHits (replay tr a0) !! l
     = Some (count (λ e, hit e = true ∧ loggedAs e ≤ Z.of_nat l) tr))
  ∧ (∀ (l l' : nat) (x x' : Z),
       (l ≤ l')%nat →
       PerformanceAnalyzer.cacheHits (replay tr a0) !! l = Some x →
       PerformanceAnalyzer.cacheHits (replay tr a0) !! l' = Some x' →
       0 ≤ x ∧ x ≤ x' ∧ x' ≤ PerformanceAnalyzer.hits (replay tr a0)).
Proof.
  intros Hnew Hlog. unfold PerformanceAnalyzer.PerformanceAnalyzer, vec_resize in Hnew.
  case_bool_decide as Hn; [| done]. simpl in Hnew. injection Hnew as <-.
  set (a0 := PerformanceAnalyzer.mk _ _ _ _ _).
  destruct (replay_counters tr a0 Hlog) as (_ & Hhits & _ & _ & Hch).
  assert (∀ l : nat, Z.of_nat l < numCaches →
     PerformanceAnalyzer.cacheHits (replay tr a0) !! l
     = Some (count (λ e, hit e = true ∧ loggedAs e ≤ Z.of_nat l) tr)) as Hat.
  { intros l Hl. rewrite (Hch l 0); [f_equal; lia |].
    simpl. apply lookup_replicate. split; [done | lia]. }
  split; [done |].
  intros l l' x x' Hle Hx Hx'.
  assert (Z.of_nat l' < numCaches) as Hl'.
  { apply lookup_lt_Some in Hx'. rewrite replay_length_cacheHits in Hx'.
    simpl in Hx'. rewrite length_replicate in Hx'. lia. }
  rewrite Hat in Hx by lia. rewrite Hat in Hx' by lia.
  injection Hx as <-. injection Hx' as <-. rewrite Hhits. simpl.
  split; [apply count_nonneg |]. split.
  - apply count_mono. intros e [? ?]. split; [done | lia].
  - pose proof (count_mono (λ e, hit e = true ∧ loggedAs e ≤ Z.of_nat l')
                  (λ e, hit e = true) tr) as Hmono.
    specialize (Hmono ltac:(by intros e [? _])). lia.
Qed.

Lemma hit_counters_are_cumulative_witness :
  (∀ l : nat, Z.of_nat l < 3 →
     PerformanceAnalyzer.cacheHits
       (replay [mkOutcome AtTLB true 0; mkOutcome (AtCache 0) false 1;
                mkOutcome (AtCache 1) true 2]
          (PerformanceAnalyzer.mk 0 0 0 [0; 0; 0] [0; 0; 0])) !! l
     = Some (count (λ e, hit e = true ∧ loggedAs e ≤ Z.of_nat l)
               [mkOutcome AtTLB true 0; mkOutcome (AtCache 0) false 1;
                mkOutcome (AtCache 1) true 2]))
  ∧ (∀ (l l' : nat) (x x' : Z),
       (l ≤ l')%nat →
       PerformanceAnalyzer.cacheHits
         (replay [mkOutcome AtTLB true 0; mkOutcome (AtCache 0) false 1;
                  mkOutcome (AtCache 1) true 2]
            (PerformanceAnalyzer.mk 0 0 0 [0; 0; 0] [0; 0; 0])) !! l = Some x →
       PerformanceAnalyzer.cacheHits
         (replay [mkOutcome AtTLB true 0; mkOutcome (AtCache 0) false 1;
                  mkOutcome (AtCache 1) true 2]
            (PerformanceAnalyzer.mk 0 0 0 [0; 0; 0] [0; 0; 0])) !! l' = Some x' →
       0 ≤ x ∧ x ≤ x'
       ∧ x' ≤ PerformanceAnalyzer.hits
                (replay [mkOutcome AtTLB true 0; mkOutcome (AtCache 0) false 1;
                         mkOutcome (AtCache 1) true 2]
                   (PerformanceAnalyzer.mk 0 0 0 [0; 0; 0] [0; 0; 0]))).
Proof.
  apply (hit_counters_are_cumulative 3).
  - reflexivity.
  - repeat constructor; simpl; lia.
Defined.

(** [report] returns exactly when there are three hit counters to read. *)
Lemma report_Ok_iff (a : PerformanceAnalyzer.t) :
  (PerformanceAnalyzer.report a = Err OutOfRange
   ↔ (length (PerformanceAnalyzer.cacheHits a) < 3)%nat)
  ∧ ((∃ r, PerformanceAnalyzer.report a = Ok r)
     ↔ (3 ≤ length (PerformanceAnalyzer.cacheHits a))%nat).
Proof.
  unfold PerformanceAnalyzer.report.
  destruct (PerformanceAnalyzer.cacheHits a) as [| x [| y [| z l]]]; simpl.
  - split; [split; [lia | done] |]. split; [by intros [r Hr] | lia].
  - split; [split; [lia | done] |]. split; [by intros [r Hr] | lia].
  - split; [split; [lia | done] |]. split; [by intros [r Hr] | lia].
  - split; [split; [done | lia] |]. split; [lia | by eexists].
Qed.

(** X17: report reads cacheHits[0], cacheHits[1] and cacheHits[2] whatever
    the number of cache levels.  It faults exactly when the analyzer has
    fewer than three counters; with three or more it shows the totals as
    they are, the rates of the first three counters and nothing of the
    others. *)
Theorem report_returns_iff_there_are_three_counters (a : PerformanceAnalyzer.t) :
  (PerformanceAnalyzer.report a = Err OutOfRange
   ↔ (length (PerformanceAnalyzer.cacheHits a) < 3)%nat)
  ∧ ((∃ r, PerformanceAnalyzer.report a = Ok r)
     ↔ (3 ≤ length (PerformanceAnalyzer.cacheHits a))%nat)
  ∧ ∀ r, PerformanceAnalyzer.report a = Ok r →
      PerformanceAnalyzer.shownTotalAccesses r = PerformanceAnalyzer.totalAccesses a
      ∧ PerformanceAnalyzer.shownHits r = PerformanceAnalyzer.hits a
      ∧ PerformanceAnalyzer.shownMisses r = PerformanceAnalyzer.misses a
      ∧ PerformanceAnalyzer.levelRates r
        = (λ h, (PerformanceAnalyzer.percentage h (PerformanceAnalyzer.totalAccesses a),
                 PerformanceAnalyzer.complement_percentage h
                   (PerformanceAnalyzer.totalAccesses a)))
            <$> take 3 (PerformanceAnalyzer.cacheHits a).
Proof.
  destruct (report_Ok_iff a) as [Herr Hok].
  split; [done |]. split; [done |].
  intros r Hr. pose proof (proj1 Hok (ex_intro _ r Hr)) as Hlen.
  unfold PerformanceAnalyzer.report in Hr.
  destruct (PerformanceAnalyzer.cacheHits a) as [| x [| y [| z l]]];
    simpl in Hlen; try lia.
  simpl in Hr. by injection Hr as <-.
Qed.

(** ** Accesses *)

Lemma count_app (P : AccessOutcome → Prop) `{∀ e, Decision (P e)}
    (tr1 tr2 : list AccessOutcome) :
  count P (tr1 ++ tr2) = count P tr1 + count P tr2.
Proof. unfold count. rewrite filter_app, length_app. lia. Qed.

Lemma count_misses (tr : list AccessOutcome) :
  Forall (λ e, hit e = false) tr → count (λ e, hit e = true) tr = 0.
Proof.
  induction 1 as [| e tr He _ IH]; [done |].
  rewrite count_cons, IH. rewrite decide_False; [done | congruence].
Qed.

(** The cache loop logs misses only, until the hit that ends it. *)
Lemma probe_caches_hits (oc : nat → Oracle) (address : Z) (cs : list Cache.t) :
  ∀ (i : nat) (an : PerformanceAnalyzer.t) cs' an' tr (found : bool),
  MemoryHierarchy.probe_caches oc address i cs an = Ok (cs', an', tr, found) →
  Forall2 same_shape cs cs'
  ∧ if found then
      ∃ misses final, tr = misses ++ [final]
        ∧ Forall (λ e, hit e = false) misses
        ∧ hit final = true ∧ level final ≠ AtTLB
    else Forall (λ e, hit e = false) tr.
Proof.
  induction cs as [| c rest IH]; intros i an cs' an' tr found; simpl.
  { intros [= <- <- <- <-]. split; constructor. }
  intros H. apply bind_Ok in H as ([c1 time] & Hacc & H).
  apply access_same_shape in Hacc.
  case_bool_decide as Hhit.
  - injection H as <- <- <- <-. split.
    + constructor; [done |]. apply Forall2_same_length_lookup_2; [done |].
      intros j x y Hx Hy. rewrite Hx in Hy. injection Hy as <-.
      apply same_shape_refl.
    + by exists [], (mkOutcome (AtCache i) true (Z.of_nat i + 1)).
  - apply bind_Ok in H as ([[[rest' an1] tr1] h1] & Hrec & H).
    injection H as <- <- <- <-.
    apply IH in Hrec as [Hshapes Hhits]. split; [by constructor |].
    destruct h1.
    + destruct Hhits as (misses & final & -> & Hmisses & Hfinal).
      exists (mkOutcome (AtCache i) false (Z.of_nat i + 1) :: misses), final.
      split; [done |]. split; [by constructor | done].
    + by constructor.
Qed.

(** The data path ends in a hit, after misses only. *)
Lemma data_path_hits (h h' : MemoryHierarchy.t) (os : AccessOracles)
    (address : Z) (tr : list AccessOutcome) :
  MemoryHierarchy.data_path h os address = Ok (h', tr) →
  (∃ misses final, tr = misses ++ [final]
     ∧ Forall (λ e, hit e = false) misses
     ∧ hit final = true ∧ level final ≠ AtTLB)
  ∧ Forall2 same_shape (MemoryHierarchy.caches h) (MemoryHierarchy.caches h')
  ∧ same_shape (MemoryHierarchy.ram h) (MemoryHierarchy.ram h')
  ∧ MemoryHierarchy.tlb h' = MemoryHierarchy.tlb h
  ∧ MemoryHierarchy.diskAccessTime h' = MemoryHierarchy.diskAccessTime h.
Proof.
  unfold MemoryHierarchy.data_path. intros H.
  apply bind_Ok in H as ([[[cs an] tr1] found] & Hprobe & H).
  apply probe_caches_hits in Hprobe as [Hshapes Hhits].
  destruct found.
  { injection H as <- <-. simpl. split; [done |]. split; [done |].
    split; [apply same_shape_refl | done]. }
  apply bind_Ok in H as ([r time] & Hram & H).
  apply access_same_shape in Hram.
  case_bool_decide as Hhit; injection H as <- <-; simpl.
  - split; [| done].
    by exists tr1, (mkOutcome AtRAM true (Z.of_nat (length cs))).
  - split; [| done].
    exists (tr1 ++ [mkOutcome AtRAM false (Z.of_nat (length cs));
                    mkOutcome AtDISK false (Z.of_nat (length cs) + 1)]),
           (mkOutcome AtDISK true (Z.of_nat (length cs) + 1)).
    split; [by rewrite <- app_assoc |]. split; [| done].
    apply Forall_app. split; [done |]. by repeat constructor.
Qed.

(** A translation logs one, two or three outcomes, at most one of them a
    hit. *)
Lemma translation_outcomes (translation : list AccessOutcome) :
  hit <$> translation = [true] ∨ hit <$> translation = [false; true]
  ∨ hit <$> translation = [false; false; false] →
  (1 ≤ length translation)%nat
  ∧ 0 ≤ count (λ e, hit e = true) translation ≤ 1.
Proof.
  intros [Htr | [Htr | Htr]].
  - destruct translation as [| e1 [| e2 l]]; try discriminate Htr.
    injection Htr as He1. rewrite count_cons, decide_True by done.
    simpl. unfold count. simpl. lia.
  - destruct translation as [| e1 [| e2 [| e3 l]]]; try discriminate Htr.
    injection Htr as He1 He2. rewrite !count_cons.
    rewrite decide_False by congruence. rewrite decide_True by done.
    simpl. unfold count. simpl. lia.
  - destruct translation as [| e1 [| e2 [| e3 [| e4 l]]]]; try discriminate Htr.
    injection Htr as He1 He2 He3. rewrite !count_cons.
    rewrite !decide_False by congruence. simpl. unfold count. simpl. lia.
Qed.

(** The hits and misses an access logs. *)
Lemma simulateAccess_hits
    (h h' : MemoryHierarchy.t) (os : AccessOracles) (address : Z)
    (tr : list AccessOutcome) :
  MemoryHierarchy.simulateAccess h os address = Ok (h', tr) →
  ∃ translation misses final,
    tr = translation ++ misses ++ [final]
    ∧ (hit <$> translation = [true] ∨ hit <$> translation = [false; true]
       ∨ hit <$> translation = [false; false; false])
    ∧ Forall (λ e, hit e = false) misses
    ∧ hit final = true ∧ level final ≠ AtTLB.
Proof.
  unfold MemoryHierarchy.simulateAccess. intros H.
  apply bind_Ok in H as (page & _ & H).
  apply bind_Ok in H as ([tl time] & _ & H).
  case_bool_decide as Htlb.
  - apply bind_Ok in H as ([h1 tr1] & Hdata & H). injection H as <- <-.
    apply data_path_hits in Hdata as [(misses & final & -> & Hhits) _].
    exists [mkOutcome AtTLB true 0], misses, final.
    split; [done |]. split; [by left | done].
  - apply bind_Ok in H as ([r time'] & _ & H).
    case_bool_decide as Hram.
    + apply bind_Ok in H as ([h1 tr1] & Hdata & H). injection H as <- <-.
      apply data_path_hits in Hdata as [(misses & final & -> & Hhits) _].
      eexists [mkOutcome AtTLB false 0; mkOutcome AtRAM true _], misses, final.
      split; [done |]. split; [by right; left | done].
    + apply bind_Ok in H as ([h1 tr1] & Hdata & H). injection H as <- <-.
      apply data_path_hits in Hdata as [(misses & final & -> & Hhits) _].
      eexists [mkOutcome AtTLB false 0; mkOutcome AtRAM false _;
               mkOutcome AtDISK false _], misses, final.
      split; [done |]. split; [by right; right | done].
Qed.

(** X18: every access that returns has logged its translation (a TLB hit,
    or a TLB miss followed by a RAM hit, or a TLB miss followed by a RAM
    miss and a disk miss), then misses only, and last a hit below the TLB.
    So it logs at least two outcomes, and one or two of them are hits,
    whatever the address finds on its way. *)
Theorem every_access_ends_in_a_hit
    (h h' : MemoryHierarchy.t) (os : AccessOracles) (address : Z)
    (tr : list AccessOutcome) :
  MemoryHierarchy.simulateAccess h os address = Ok (h', tr) →
  ∃ translation misses final,
    tr = translation ++ misses ++ [final]
    ∧ (hit <$> translation = [true] ∨ hit <$> translation = [false; true]
       ∨ hit <$> translation = [false; false; false])
    ∧ Forall (λ e, hit e = false) misses
    ∧ hit final = true ∧ level final ≠ AtTLB
    ∧ (2 ≤ length tr)%nat
    ∧ 1 ≤ count (λ e, hit e = true) tr ≤ 2.
Proof.
  intros H.
  destruct (simulateAccess_hits _ _ _ _ _ H)
    as (translation & misses & final & -> & Htr & Hmisses & Hfinal & Hlevel).
  exists translation, misses, final.
  split; [done |]. split; [done |]. split; [done |]. split; [done |].
  split; [done |].
  destruct (translation_outcomes translation Htr) as [Hlen Hcount].
  rewrite !count_app, (count_misses misses Hmisses), !length_app. simpl.
  assert (count (λ e, hit e = true) [final] = 1) as ->.
  { by rewrite count_cons, decide_True by done. }
  lia.
Qed.

Lemma every_access_ends_in_a_hit_witness :
  ∃ translation misses final,
    [mkOutcome AtTLB true 0; mkOutcome (AtCache 0) true 1]
    = translation ++ misses ++ [final]
    ∧ (hit <$> translation = [true] ∨ hit <$> translation = [false; true]
       ∨ hit <$> translation = [false; false; false])
    ∧ Forall (λ e, hit e = false) misses
    ∧ hit final = true ∧ level final ≠ AtTLB
    ∧ (2 ≤ length [mkOutcome AtTLB true 0; mkOutcome (AtCache 0) true 1])%nat
    ∧ 1 ≤ count (λ e, hit e = true)
            [mkOutcome AtTLB true 0; mkOutcome (AtCache 0) true 1] ≤ 2.
Proof.
  apply (every_access_ends_in_a_hit warmed_up
           (unwrap no_hierarchy
              ('(h, _) ← MemoryHierarchy.simulateAccess warmed_up (steady 2) 0; Ok h))
           (steady 2) 0).
  by vm_compute.
Defined.

(** An access changes the configuration of no level. *)
Lemma simulateAccess_same_shape
    (h h' : MemoryHierarchy.t) (os : AccessOracles) (address : Z)
    (tr : list AccessOutcome) :
  MemoryHierarchy.simulateAccess h os address = Ok (h', tr) →
  Forall2 same_shape (MemoryHierarchy.caches h) (MemoryHierarchy.caches h')
  ∧ same_shape (MemoryHierarchy.ram h) (MemoryHierarchy.ram h')
  ∧ same_shape (TLB_as_cache (MemoryHierarchy.tlb h))
               (TLB_as_cache (MemoryHierarchy.tlb h'))
  ∧ MemoryHierarchy.diskAccessTime h' = MemoryHierarchy.diskAccessTime h.
Proof.
  unfold MemoryHierarchy.simulateAccess. intros H.
  apply bind_Ok in H as (page & _ & H).
  apply bind_Ok in H as ([tl time] & Htl & H).
  rewrite TLB_access_as_cache in Htl.
  apply bind_Ok in Htl as ([c time0] & Hc & Htl). injection Htl as <- <-.
  apply access_same_shape in Hc.
  assert (same_shape (TLB_as_cache (MemoryHierarchy.tlb h))
                     (TLB_as_cache (cache_as_TLB c))) as Htlb'.
  { destruct Hc as (? & ? & ? & ? & ?). by repeat split. }
  case_bool_decide as Htlb.
  - apply bind_Ok in H as ([h1 tr1] & Hdata & H). injection H as <- <-.
    apply data_path_hits in Hdata as (_ & Hcs & Hram & Htl & Hdisk).
    simpl in *. by rewrite Htl.
  - apply bind_Ok in H as ([r time'] & Hr & H).
    apply access_same_shape in Hr. simpl in Hr.
    case_bool_decide as Hramhit.
    + apply bind_Ok in H as ([h1 tr1] & Hdata & H). injection H as <- <-.
      apply data_path_hits in Hdata as (_ & Hcs & Hram & Htl & Hdisk).
      simpl in *. rewrite Htl. split; [done |].
      split; [by eapply same_shape_trans | done].
    + apply bind_Ok in H as ([h1 tr1] & Hdata & H). injection H as <- <-.
      apply data_path_hits in Hdata as (_ & Hcs & Hram & Htl & Hdisk).
      simpl in *. rewrite Htl. split; [done |].
      split; [by eapply same_shape_trans | done].
Qed.

(** X19: an access that returns has changed no configuration: every cache,
    the RAM and the TLB keep their size, block size, number of blocks,
    policy and access time, the disk access time and the number of caches
    stay, and so does the number of per-level counters. *)
Theorem an_access_keeps_the_configuration
    (h h' : MemoryHierarchy.t) (os : AccessOracles) (address : Z)
    (tr : list AccessOutcome) :
  MemoryHierarchy.simulateAccess h os address = Ok (h', tr) →
  Forall2 same_shape (MemoryHierarchy.caches h) (MemoryHierarchy.caches h')
  ∧ length (MemoryHierarchy.caches h') = length (MemoryHierarchy.caches h)
  ∧ same_shape (MemoryHierarchy.ram h) (MemoryHierarchy.ram h')
  ∧ same_shape (TLB_as_cache (MemoryHierarchy.tlb h))
               (TLB_as_cache (MemoryHierarchy.tlb h'))
  ∧ MemoryHierarchy.diskAccessTime h' = MemoryHierarchy.diskAccessTime h
  ∧ length (PerformanceAnalyzer.cacheHits (MemoryHierarchy.analyzer h'))
    = length (PerformanceAnalyzer.cacheHits (MemoryHierarchy.analyzer h))
  ∧ length (PerformanceAnalyzer.cacheMisses (MemoryHierarchy.analyzer h'))
    = length (PerformanceAnalyzer.cacheMisses (MemoryHierarchy.analyzer h)).
Proof.
  intros H.
  destruct (simulateAccess_same_shape _ _ _ _ _ H) as (Hcs & Hram & Htlb & Hdisk).
  pose proof (simulateAccess_trace _ _ _ _ _ H) as (Han & _ & _).
  split; [done |]. split; [symmetry; by eapply Forall2_length |].
  split; [done |]. split; [done |]. split; [done |].
  rewrite Han. split.
  - apply replay_length_cacheHits.
  - apply replay_length_cacheMisses.
Qed.

Lemma an_access_keeps_the_configuration_witness :
  Forall2 same_shape (MemoryHierarchy.caches one_level_demo)
                     (MemoryHierarchy.caches warmed_up)
  ∧ length (MemoryHierarchy.caches warmed_up)
    = length (MemoryHierarchy.caches one_level_demo)
  ∧ same_shape (MemoryHierarchy.ram one_level_demo) (MemoryHierarchy.ram warmed_up)
  ∧ same_shape (TLB_as_cache (MemoryHierarchy.tlb one_level_demo))
               (TLB_as_cache (MemoryHierarchy.tlb warmed_up))
  ∧ MemoryHierarchy.diskAccessTime warmed_up
    = MemoryHierarchy.diskAccessTime one_level_demo
  ∧ length (PerformanceAnalyzer.cacheHits (MemoryHierarchy.analyzer warmed_up))
    = length (PerformanceAnalyzer.cacheHits (MemoryHierarchy.analyzer one_level_demo))
  ∧ length (PerformanceAnalyzer.cacheMisses (MemoryHierarchy.analyzer warmed_up))
    = length (PerformanceAnalyzer.cacheMisses (MemoryHierarchy.analyzer one_level_demo)).
Proof.
  apply (an_access_keeps_the_configuration one_level_demo warmed_up (steady 1) 0
           (unwrap []
              ('(_, tr) ← MemoryHierarchy.simulateAccess one_level_demo (steady 1) 0;
               Ok tr))).
  by vm_compute.
Defined.

(** ** Runs *)









(** ** Constructed hierarchies *)

Lemma emplace_caches_well_formed
    (cacheSizes blockSizes accessTimes : list Z) (policies : list ReplacementPolicy)
    (idx : list Z) :
  length blockSizes = length cacheSizes →
  length accessTimes = length cacheSizes →
  length policies = length cacheSizes →
  Forall2 (λ s bs, 0 < bs ≤ s) cacheSizes blockSizes →
  Forall (λ i, 0 ≤ i < Z.of_nat (length cacheSizes)) idx →
  ∃ cs, MemoryHierarchy.emplace_caches cacheSizes blockSizes accessTimes policies idx
        = Ok cs
    ∧ Forall well_formed cs ∧ Forall at_home cs ∧ length cs = length idx.
Proof.
  intros Hbs Hat Hrp Hsizes Hidx.
  induction Hidx as [| i idx Hi _ IH]; simpl.
  { by exists []. }
  simpl in Hi.
  destruct (lookup_lt_is_Some_2 cacheSizes (Z.to_nat i)) as [s Hs]; [lia |].
  destruct (lookup_lt_is_Some_2 blockSizes (Z.to_nat i)) as [bs Hb]; [lia |].
  destruct (lookup_lt_is_Some_2 accessTimes (Z.to_nat i)) as [at_ Ha]; [lia |].
  destruct (lookup_lt_is_Some_2 policies (Z.to_nat i)) as [rp Hp]; [lia |].
  rewrite (proj2 (vec_get_Ok cacheSizes i s)) by (split; [lia | done]). simpl.
  rewrite (proj2 (vec_get_Ok blockSizes i bs)) by (split; [lia | done]). simpl.
  rewrite (proj2 (vec_get_Ok accessTimes i at_)) by (split; [lia | done]). simpl.
  rewrite (proj2 (vec_get_Ok policies i rp)) by (split; [lia | done]). simpl.
  pose proof (Forall2_lookup_lr _ _ _ _ _ _ Hsizes Hs Hb) as Hrange.
  simpl in Hrange.
  destruct (fresh_well_formed s bs at_ rp) as (c & Hc & Hwf & _); [lia | lia |].
  rewrite Hc. simpl.
  destruct IH as (cs & -> & Hwfs & Hhome & Hlen). simpl.
  exists (c :: cs). split; [done |]. split; [by constructor |].
  split; [| by rewrite <- Hlen].
  constructor; [| done]. by eapply fresh_at_home.
Qed.

(** X21: given as many block sizes, access times and policies as cache
    sizes, every block size positive and not above its cache size, a RAM
    block size positive and not above the RAM size and a positive TLB size,
    the constructor of MemoryHierarchy returns a well-formed hierarchy: one
    cache per size, every level with at least one block and no block
    occupied away from its home slot, the disk access time as given (the
    disk size is not kept), and one counter more than there are caches. *)
Theorem constructed_hierarchy_is_well_formed
    (cacheSizes blockSizes accessTimes : list Z) (policies : list ReplacementPolicy)
    (ramSize ramBlockSize ramAt : Z) (ramPolicy : ReplacementPolicy)
    (diskSize diskAt tlbSize tlbAt : Z) (tlbPolicy : ReplacementPolicy) :
  length blockSizes = length cacheSizes →
  length accessTimes = length cacheSizes →
  length policies = length cacheSizes →
  Forall2 (λ s bs, 0 < bs ≤ s) cacheSizes blockSizes →
  0 < ramBlockSize ≤ ramSize → 0 < tlbSize →
  ∃ h, MemoryHierarchy.MemoryHierarchy cacheSizes blockSizes accessTimes policies
         ramSize ramBlockSize ramAt ramPolicy diskSize diskAt tlbSize tlbAt tlbPolicy
       = Ok h
    ∧ hierarchy_well_formed h
    ∧ length (MemoryHierarchy.caches h) = length cacheSizes
    ∧ Forall at_home (MemoryHierarchy.caches h)
    ∧ at_home (MemoryHierarchy.ram h)
    ∧ at_home (TLB_as_cache (MemoryHierarchy.tlb h))
    ∧ MemoryHierarchy.diskAccessTime h = diskAt
    ∧ length (PerformanceAnalyzer.cacheHits (MemoryHierarchy.analyzer h))
      = S (length cacheSizes)
    ∧ length (PerformanceAnalyzer.cacheMisses (MemoryHierarchy.analyzer h))
      = S (length cacheSizes).
Proof.
  intros Hbs Hat Hrp Hsizes Hram Htlb. unfold MemoryHierarchy.MemoryHierarchy.
  destruct (fresh_well_formed ramSize ramBlockSize ramAt ramPolicy)
    as (r & Hr & Hwfr & _); [lia | lia |].
  rewrite Hr. simpl.
  unfold PerformanceAnalyzer.PerformanceAnalyzer.
  rewrite vec_resize_Ok by lia. simpl.
  destruct (emplace_caches_well_formed cacheSizes blockSizes accessTimes policies
              (seqZ 0 (Z.of_nat (length cacheSizes))))
    as (cs & -> & Hwfs & Hhome & Hlen); try done.
  { apply Forall_forall. intros i Hi. by apply elem_of_seqZ_bounds in Hi. }
  simpl. unfold TLB.TLB. rewrite vec_resize_Ok by lia. simpl.
  eexists. split; [done |]. simpl.
  rewrite length_seqZ, Nat2Z.id in Hlen.
  replace (Z.to_nat (Z.of_nat (length cacheSizes) + 1))
    with (S (length cacheSizes)) by lia.
  split; [| split; [done |]; split; [done |]; split; [by eapply fresh_at_home |];
            split; [| by rewrite !length_replicate]].
  - split; [done |]. split; [done |]. split; [| done].
    unfold well_formed. simpl. rewrite length_replicate.
    repeat split; try lia; try done.
    intros ->. by rewrite decide_True.
  - intros i b Hb Hv. simpl in Hb.
    apply lookup_replicate in Hb as [-> _]. done.
Qed.

Lemma constructed_hierarchy_is_well_formed_witness :
  ∃ h, MemoryHierarchy.MemoryHierarchy [4; 8] [1; 2] [1; 2] [FIFO; RANDOM]
         32 4 5 LRU 100 9 2 1 RANDOM
       = Ok h
    ∧ hierarchy_well_formed h
    ∧ length (MemoryHierarchy.caches h) = length [4; 8]
    ∧ Forall at_home (MemoryHierarchy.caches h)
    ∧ at_home (MemoryHierarchy.ram h)
    ∧ at_home (TLB_as_cache (MemoryHierarchy.tlb h))
    ∧ MemoryHierarchy.diskAccessTime h = 9
    ∧ length (PerformanceAnalyzer.cacheHits (MemoryHierarchy.analyzer h))
      = S (length [4; 8])
    ∧ length (PerformanceAnalyzer.cacheMisses (MemoryHierarchy.analyzer h))
      = S (length [4; 8]).
Proof.
  apply (constructed_hierarchy_is_well_formed [4; 8] [1; 2] [1; 2] [FIFO; RANDOM]
           32 4 5 LRU 100 9 2 1 RANDOM); try reflexivity; try lia.
  repeat constructor; lia.
Defined.

(** ** Whole runs *)



(** ** The miss sentinel *)

(** With an access time of -1 every probe returns -1, hit or miss. *)
Lemma access_time_minus_one (c c' : Cache.t) (o : Oracle) (address r : Z) :
  Cache.accessTime c = -1 → Cache.access c o address = Ok (c', r) → r = -1.
Proof.
  intros Hat. unfold Cache.access. intros H. inv_bind H.
  destruct (valid x1 && bool_decide (tag x1 = x0)).
  - injection H as _ <-. done.
  - inv_bind H. by injection H as _ <-.
Qed.

Lemma probe_caches_minus_one (oc : nat → Oracle) (address : Z) (cs : list Cache.t) :
  ∀ (i : nat) (an : PerformanceAnalyzer.t) cs' an' tr (found : bool),
  Forall (λ c, Cache.accessTime c = -1) cs →
  MemoryHierarchy.probe_caches oc address i cs an = Ok (cs', an', tr, found) →
  found = false ∧ Forall (λ e, hit e = false) tr.
Proof.
  induction cs as [| c rest IH]; intros i an cs' an' tr found Hat; simpl.
  { by intros [= <- <- <- <-]. }
  apply Forall_cons in Hat as [Hc Hrest].
  intros H. apply bind_Ok in H as ([c1 time] & Hacc & H).
  apply (access_time_minus_one _ _ _ _ _ Hc) in Hacc as ->.
  rewrite bool_decide_eq_false_2 in H by (intros ?; done).
  apply bind_Ok in H as ([[[rest' an1] tr1] h1] & Hrec & H).
  injection H as <- <- <- <-.
  apply IH in Hrec as [-> Hall]; [| done]. split; [done |]. by constructor.
Qed.

(** X23: -1 is both the value access returns on a miss and a value the
    access time may have.  A TLB whose access time is -1 never counts as
    hit: every access that returns logs a TLB miss first and goes to RAM
    for the translation, whether or not the page is in the TLB.  Likewise,
    when every cache has access time -1, no cache hit is ever logged. *)
Theorem an_access_time_of_minus_one_hides_every_hit
    (h h' : MemoryHierarchy.t) (os : AccessOracles) (address : Z)
    (tr : list AccessOutcome) :
  MemoryHierarchy.simulateAccess h os address = Ok (h', tr) →
  (TLB.accessTime (MemoryHierarchy.tlb h) = -1 →
   ∃ translated rest,
     tr = mkOutcome AtTLB false 0 :: translated :: rest ∧ level translated = AtRAM)
  ∧ (Forall (λ c, Cache.accessTime c = -1) (MemoryHierarchy.caches h) →
     Forall (λ e, ∀ i, level e = AtCache i → hit e = false) tr).
Proof.
  unfold MemoryHierarchy.simulateAccess. intros H.
  apply bind_Ok in H as (page & _ & H).
  apply bind_Ok in H as ([tl time] & Htl & H).
  assert (∀ h0 h1 tr1,
    MemoryHierarchy.caches h0 = MemoryHierarchy.caches h →
    MemoryHierarchy.data_path h0 os address = Ok (h1, tr1) →
    Forall (λ c, Cache.accessTime c = -1) (MemoryHierarchy.caches h) →
    Forall (λ e, ∀ i, level e = AtCache i → hit e = false) tr1) as Hdata.
  { intros h0 h1 tr1 Hcs Hpath Hat. unfold MemoryHierarchy.data_path in Hpath.
    rewrite Hcs in Hpath.
    apply bind_Ok in Hpath as ([[[cs an] tr0] found] & Hprobe & Hpath).
    apply probe_caches_minus_one in Hprobe as [-> Hall]; [| done].
    apply bind_Ok in Hpath as ([r time0] & _ & Hpath).
    assert (Forall (λ e, ∀ i, level e = AtCache i → hit e = false) tr0) as Hall'.
    { eapply Forall_impl; [done |]. by intros e He i _. }
    case_bool_decide; injection Hpath as <- <-;
      (apply Forall_app; split; [done |]);
      repeat (constructor; [intros i Hl; discriminate Hl |]); constructor. }
  split.
  - intros Hat. rewrite TLB_access_as_cache in Htl.
    apply bind_Ok in Htl as ([c time0] & Hc & Htl). injection Htl as <- <-.
    apply (access_time_minus_one (TLB_as_cache (MemoryHierarchy.tlb h))) in Hc as ->;
      [| done].
    rewrite bool_decide_eq_false_2 in H by (intros ?; done).
    apply bind_Ok in H as ([r time'] & _ & H).
    case_bool_decide; apply bind_Ok in H as ([h1 tr1] & _ & H);
      injection H as <- <-; by eexists _, _.
  - intros Hat. case_bool_decide as Htlb.
    + apply bind_Ok in H as ([h1 tr1] & Hpath & H). injection H as <- <-.
      constructor; [intros i Hl; discriminate Hl |]. (eapply Hdata; [| exact Hpath | exact Hat]; reflexivity).
    + apply bind_Ok in H as ([r time'] & _ & H).
      case_bool_decide; apply bind_Ok in H as ([h1 tr1] & Hpath & H);
        injection H as <- <-;
        repeat (constructor; [intros i Hl; discriminate Hl |]); (eapply Hdata; [| exact Hpath | exact Hat]; reflexivity).
Qed.

Lemma an_access_time_of_minus_one_hides_every_hit_witness :
  resident (TLB.blocks (MemoryHierarchy.tlb silent_warmed)) 0
  ∧ (TLB.accessTime (MemoryHierarchy.tlb silent_warmed) = -1 →
     ∃ translated rest,
       [mkOutcome AtTLB false 0; mkOutcome AtRAM true 1;
        mkOutcome (AtCache 0) false 1; mkOutcome AtRAM true 1]
       = mkOutcome AtTLB false 0 :: translated :: rest
       ∧ level translated = AtRAM)
  ∧ (Forall (λ c, Cache.accessTime c = -1) (MemoryHierarchy.caches silent_warmed) →
     Forall (λ e, ∀ i, level e = AtCache i → hit e = false)
       [mkOutcome AtTLB false 0; mkOutcome AtRAM true 1;
        mkOutcome (AtCache 0) false 1; mkOutcome AtRAM true 1]).
Proof.
  split; [by exists 0%nat |].
  apply (an_access_time_of_minus_one_hides_every_hit silent_warmed
           (unwrap no_hierarchy
              ('(h, _) ← MemoryHierarchy.simulateAccess silent_warmed (steady 2) 0;
               Ok h))
           (steady 2) 0).
  by vm_compute.
Defined.

(** ** The translation probe of RAM *)

(** With the address in its home slot of RAM, the data path ends at RAM at
    the latest. *)
Lemma data_path_stops_at_RAM (h h' : MemoryHierarchy.t) (os : AccessOracles)
    (address : Z) (tr : list AccessOutcome) :
  well_formed (MemoryHierarchy.ram h) → 0 ≤ address →
  Cache.accessTime (MemoryHierarchy.ram h) ≠ -1 →
  resident_at (Cache.blocks (MemoryHierarchy.ram h))
    (Z.to_nat (Z.rem (address ÷ Cache.blockSize (MemoryHierarchy.ram h))
                     (Cache.numBlocks (MemoryHierarchy.ram h))))
    (address ÷ Cache.blockSize (MemoryHierarchy.ram h)) →
  MemoryHierarchy.data_path h os address = Ok (h', tr) →
  Forall (λ e, level e ≠ AtDISK) tr.
Proof.
  intros Hwf Ha Hat Hres. unfold MemoryHierarchy.data_path. intros H.
  apply bind_Ok in H as ([[[cs an] tr1] found] & Hprobe & H).
  apply probe_caches_trace in Hprobe as (_ & _ & Hpre & _ & _).
  assert (Forall (λ e, level e ≠ AtDISK) tr1) as Hcaches.
  { apply Forall_forall. intros e He Hlevel.
    assert (level e ∈ level <$> tr1) as Hin by (by apply list_elem_of_fmap_2).
    destruct Hpre as [k Hk]. 
    assert (level e ∈ AtCache <$> seq 0 (length (MemoryHierarchy.caches h))) as Hin'.
    { rewrite Hk. apply elem_of_app. by left. }
    apply list_elem_of_fmap in Hin' as (i & Hi & _). congruence. }
  destruct found.
  { by injection H as <- <-. }
  destruct (resident_at_home_hits (MemoryHierarchy.ram h) (for_ram os) address)
    as (r & Hr & _); [done | done | done |].
  rewrite Hr in H. simpl in H.
  rewrite bool_decide_eq_true_2 in H by done. injection H as <- <-.
  apply Forall_app. split; [done |]. by repeat constructor.
Qed.

(** X24: after a TLB miss RAM is probed for the translation, and that
    probe loads the address into RAM.  When it hits, or misses while
    replace still writes the home slot, and the access time of RAM is not
    the miss value -1, the probe of RAM that follows the caches hits: the
    access logs no disk hit, and its last outcome is a hit in a cache or in
    RAM. *)
Theorem a_translation_loads_the_address_into_RAM
    (h h' : MemoryHierarchy.t) (os : AccessOracles) (address : Z)
    (tr : list AccessOutcome) :
  well_formed (MemoryHierarchy.ram h) → 0 ≤ address →
  Cache.accessTime (MemoryHierarchy.ram h) ≠ -1 →
  fills_home_slot (MemoryHierarchy.ram h)
  ∨ resident_at (Cache.blocks (MemoryHierarchy.ram h))
      (Z.to_nat (Z.rem (address ÷ Cache.blockSize (MemoryHierarchy.ram h))
                       (Cache.numBlocks (MemoryHierarchy.ram h))))
      (address ÷ Cache.blockSize (MemoryHierarchy.ram h)) →
  MemoryHierarchy.simulateAccess h os address = Ok (h', mkOutcome AtTLB false 0 :: tr) →
  Forall (λ e, level e = AtDISK → hit e = false) tr
  ∧ ∃ tr0 final, tr = tr0 ++ [final] ∧ hit final = true
      ∧ (level final = AtRAM ∨ ∃ i, level final = AtCache i).
Proof.
  intros Hwf Ha Hat Hhome H.
  assert (∀ pre h0 tr1,
    Forall (λ e, level e = AtDISK → hit e = false) pre →
    MemoryHierarchy.data_path h0 os address = Ok (h', tr1) →
    Forall (λ e, level e ≠ AtDISK) tr1 →
    Forall (λ e, level e = AtDISK → hit e = false) (pre ++ tr1)
    ∧ ∃ tr0 final, pre ++ tr1 = tr0 ++ [final] ∧ hit final = true
        ∧ (level final = AtRAM ∨ ∃ i, level final = AtCache i)) as Hfinish.
  { intros pre h0 tr1 Hpre Hpath Hall. split.
    - apply Forall_app. split; [done |].
      eapply Forall_impl; [done |]. by intros e He ?.
    - apply data_path_hits in Hpath as [(misses & final & -> & _ & Hfinal & Hlevel) _].
      exists (pre ++ misses), final. split; [by rewrite <- app_assoc |].
      split; [done |].
      apply Forall_app in Hall as [_ Hlast].
      apply (proj1 (Forall_singleton _ _)) in Hlast.
      destruct (level final) as [| i | |] eqn:Hl;
        [done | right; by exists i | by left | done]. }
  revert H. unfold MemoryHierarchy.simulateAccess. intros H.
  apply bind_Ok in H as (page & _ & H).
  apply bind_Ok in H as ([tl time] & _ & H).
  case_bool_decide as Htlb.
  { apply bind_Ok in H as ([h1 tr1] & _ & H). by injection H. }
  apply bind_Ok in H as ([r time'] & Hr & H). simpl in Hr.
  assert (time' ≠ -1 ∨ fills_home_slot (MemoryHierarchy.ram h)) as Hhome'.
  { destruct Hhome as [Hfill | Hres]; [by right | left].
    destruct (resident_at_home_hits (MemoryHierarchy.ram h)
                (for_translation os) address) as (r' & Hr' & _); try done.
    rewrite Hr' in Hr. by injection Hr as _ <-. }
  destruct (access_leaves_tag_at_home _ _ _ _ _ Hwf Ha Hhome' Hr) as [Hwfr Hres].
  apply access_same_shape in Hr as (_ & Hbs & Hn & _ & Hat').
  rewrite <- Hbs, <- Hn in Hres. rewrite <- Hat' in Hat.
  case_bool_decide as Hram.
  - apply bind_Ok in H as ([h1 tr1] & Hpath & H). injection H as <- <-.
    eapply (Hfinish [mkOutcome AtRAM true _] _ tr1); [| exact Hpath |].
    + constructor; [by intros [=] | constructor].
    + eapply data_path_stops_at_RAM; [| | | | exact Hpath]; done.
  - apply bind_Ok in H as ([h1 tr1] & Hpath & H). injection H as <- <-.
    eapply (Hfinish [mkOutcome AtRAM false _; mkOutcome AtDISK false _] _ tr1);
      [| exact Hpath |].
    + constructor; [done |]. constructor; [done | constructor].
    + eapply data_path_stops_at_RAM; [| | | | exact Hpath]; done.
Qed.

Lemma one_level_demo_well_formed : hierarchy_well_formed one_level_demo.
Proof.
  split; [| split; [| split]].
  - constructor; [solve_well_formed | constructor].
  - solve_well_formed.
  - solve_well_formed.
  - simpl. lia.
Qed.

Lemma a_translation_loads_the_address_into_RAM_witness :
  Forall (λ e, level e = AtDISK → hit e = false)
    [mkOutcome AtRAM false 1; mkOutcome AtDISK false 2;
     mkOutcome (AtCache 0) false 1; mkOutcome AtRAM true 1]
  ∧ ∃ tr0 final,
      [mkOutcome AtRAM false 1; mkOutcome AtDISK false 2;
       mkOutcome (AtCache 0) false 1; mkOutcome AtRAM true 1] = tr0 ++ [final]
      ∧ hit final = true
      ∧ (level final = AtRAM ∨ ∃ i, level final = AtCache i).
Proof.
  apply (a_translation_loads_the_address_into_RAM one_level_demo warmed_up
           (steady 1) 0).
  - apply one_level_demo_well_formed.
  - lia.
  - vm_compute. discriminate.
  - left. vm_compute. discriminate.
  - by vm_compute.
Defined.

(** ** Random eviction *)



(** ** Counter indices *)

Lemma probe_caches_indices (oc : nat → Oracle) (address : Z) (cs : list Cache.t) :
  ∀ (i : nat) (an : PerformanceAnalyzer.t) cs' an' tr (found : bool),
  MemoryHierarchy.probe_caches oc address i cs an = Ok (cs', an', tr, found) →
  Forall (logged_at (i + length cs)) tr ∧ length cs' = length cs.
Proof.
  induction cs as [| c rest IH]; intros i an cs' an' tr found; simpl.
  { intros [= <- <- <- <-]. split; [constructor | done]. }
  intros H. apply bind_Ok in H as ([c1 time] & _ & H).
  assert (logged_at (i + S (length rest)) (mkOutcome (AtCache i) true (Z.of_nat i + 1))
          ∧ logged_at (i + S (length rest))
              (mkOutcome (AtCache i) false (Z.of_nat i + 1))) as [Hhit Hmiss].
  { split; (split; [done |]); simpl; intros j [= <-]; lia. }
  case_bool_decide.
  - injection H as <- <- <- <-. split; [| done].
    constructor; [done | constructor].
  - apply bind_Ok in H as ([[[rest' an1] tr1] h1] & Hrec & H).
    injection H as <- <- <- <-.
    apply IH in Hrec as [Hall Hlen]. split; [| simpl; by rewrite Hlen].
    constructor; [done |].
    by replace (i + S (length rest))%nat with (S i + length rest)%nat by lia.
Qed.

Lemma data_path_indices (h h' : MemoryHierarchy.t) (os : AccessOracles)
    (address : Z) (tr : list AccessOutcome) :
  MemoryHierarchy.data_path h os address = Ok (h', tr) →
  Forall (logged_at (length (MemoryHierarchy.caches h))) tr.
Proof.
  unfold MemoryHierarchy.data_path. intros H.
  apply bind_Ok in H as ([[[cs an] tr1] found] & Hprobe & H).
  apply probe_caches_indices in Hprobe as [Hall Hlen]. simpl in Hall.
  destruct found.
  { by injection H as <- <-. }
  apply bind_Ok in H as ([r time] & _ & H). rewrite Hlen in H.
  case_bool_decide; injection H as <- <-;
    (apply Forall_app; split; [done |]);
    repeat (constructor; [split; [done | intros j Hl; discriminate Hl] |]);
    constructor.
Qed.

(** A level at or beyond the number of counters reaches no counter. *)
Lemma logAccess_beyond_the_counters (hit : bool) (lvl : Z) (a : PerformanceAnalyzer.t) :
  Z.of_nat (length (PerformanceAnalyzer.cacheHits a)) ≤ lvl →
  Z.of_nat (length (PerformanceAnalyzer.cacheMisses a)) ≤ lvl →
  0 ≤ lvl < 2 ^ 31 →
  PerformanceAnalyzer.cacheHits (PerformanceAnalyzer.logAccess hit lvl a)
  = PerformanceAnalyzer.cacheHits a
  ∧ PerformanceAnalyzer.cacheMisses (PerformanceAnalyzer.logAccess hit lvl a)
    = PerformanceAnalyzer.cacheMisses a.
Proof.
  intros Hh Hm Hlvl. unfold PerformanceAnalyzer.logAccess.
  rewrite size_t_of_int_small by done.
  destruct hit; simpl; by rewrite bool_decide_eq_false_2 by lia.
Qed.

(** The per-level counters after a call depend on the per-level counters
    before it only. *)
Lemma logAccess_counters_ext (hit : bool) (lvl : Z) (a a' : PerformanceAnalyzer.t) :
  PerformanceAnalyzer.cacheHits a = PerformanceAnalyzer.cacheHits a' →
  PerformanceAnalyzer.cacheMisses a = PerformanceAnalyzer.cacheMisses a' →
  PerformanceAnalyzer.cacheHits (PerformanceAnalyzer.logAccess hit lvl a)
  = PerformanceAnalyzer.cacheHits (PerformanceAnalyzer.logAccess hit lvl a')
  ∧ PerformanceAnalyzer.cacheMisses (PerformanceAnalyzer.logAccess hit lvl a)
    = PerformanceAnalyzer.cacheMisses (PerformanceAnalyzer.logAccess hit lvl a').
Proof.
  intros Hh Hm. unfold PerformanceAnalyzer.logAccess.
  destruct hit; simpl; by rewrite Hh, Hm.
Qed.

Lemma replay_without_the_disk (n : nat) (tr : list AccessOutcome) :
  ∀ a a' : PerformanceAnalyzer.t,
  Forall (logged_at n) tr → Z.of_nat n + 1 < 2 ^ 31 →
  (length (PerformanceAnalyzer.cacheHits a) ≤ S n)%nat →
  (length (PerformanceAnalyzer.cacheMisses a) ≤ S n)%nat →
  PerformanceAnalyzer.cacheHits a = PerformanceAnalyzer.cacheHits a' →
  PerformanceAnalyzer.cacheMisses a = PerformanceAnalyzer.cacheMisses a' →
  PerformanceAnalyzer.cacheHits (replay tr a)
  = PerformanceAnalyzer.cacheHits (replay (filter (λ e, level e ≠ AtDISK) tr) a')
  ∧ PerformanceAnalyzer.cacheMisses (replay tr a)
    = PerformanceAnalyzer.cacheMisses (replay (filter (λ e, level e ≠ AtDISK) tr) a').
Proof.
  induction tr as [| e tr IH]; intros a a' Hlog Hn Hlh Hlm Hh Hm; [done |].
  apply Forall_cons in Hlog as [[He _] Hlog].
  rewrite replay_cons, filter_cons.
  assert (length (PerformanceAnalyzer.cacheHits
                    (PerformanceAnalyzer.logAccess (hit e) (loggedAs e) a)) ≤ S n)%nat
    as Hlh' by (by rewrite logAccess_length_cacheHits).
  assert (length (PerformanceAnalyzer.cacheMisses
                    (PerformanceAnalyzer.logAccess (hit e) (loggedAs e) a)) ≤ S n)%nat
    as Hlm' by (by rewrite logAccess_length_cacheMisses).
  destruct (decide (level e ≠ AtDISK)) as [Hlevel | Hlevel].
  - rewrite replay_cons.
    destruct (logAccess_counters_ext (hit e) (loggedAs e) a a' Hh Hm) as [Hh' Hm'].
    by apply IH.
  - apply dec_stable in Hlevel. rewrite Hlevel in He. simpl in He.
    destruct (logAccess_beyond_the_counters (hit e) (loggedAs e) a) as [Hh' Hm'];
      [lia | lia | lia |].
    apply IH; try done; congruence.
Qed.

(** X26: simulateAccess logs every level with a fixed counter index: the
    TLB with 0, cache i with i + 1, RAM with caches.size() and the disk
    with caches.size() + 1.  So RAM shares its counter with the last cache,
    and with the caches.size() + 1 counters the constructor provides the
    disk has none: its outcomes are counted in the totals only, and the
    per-level counters after an access are those of the same outcomes with
    the disk left out. *)
Theorem the_disk_has_no_counter
    (h h' : MemoryHierarchy.t) (os : AccessOracles) (address : Z)
    (tr : list AccessOutcome) :
  MemoryHierarchy.simulateAccess h os address = Ok (h', tr) →
  Z.of_nat (length (MemoryHierarchy.caches h)) + 1 < 2 ^ 31 →
  (length (PerformanceAnalyzer.cacheHits (MemoryHierarchy.analyzer h))
   ≤ S (length (MemoryHierarchy.caches h)))%nat →
  (length (PerformanceAnalyzer.cacheMisses (MemoryHierarchy.analyzer h))
   ≤ S (length (MemoryHierarchy.caches h)))%nat →
  Forall (logged_at (length (MemoryHierarchy.caches h))) tr
  ∧ PerformanceAnalyzer.cacheHits (MemoryHierarchy.analyzer h')
    = PerformanceAnalyzer.cacheHits
        (replay (filter (λ e, level e ≠ AtDISK) tr) (MemoryHierarchy.analyzer h))
  ∧ PerformanceAnalyzer.cacheMisses (MemoryHierarchy.analyzer h')
    = PerformanceAnalyzer.cacheMisses
        (replay (filter (λ e, level e ≠ AtDISK) tr) (MemoryHierarchy.analyzer h)).
Proof.
  intros H Hn Hlh Hlm.
  pose proof (simulateAccess_trace _ _ _ _ _ H) as (Han & _ & _).
  assert (Forall (logged_at (length (MemoryHierarchy.caches h))) tr) as Hlog.
  { revert H. unfold MemoryHierarchy.simulateAccess. intros H.
    apply bind_Ok in H as (page & _ & H).
    apply bind_Ok in H as ([tl time] & _ & H).
    case_bool_decide.
    - apply bind_Ok in H as ([h1 tr1] & Hpath & H). injection H as <- <-.
      apply data_path_indices in Hpath.
      constructor; [split; [done | intros j Hl; discriminate Hl] | done].
    - apply bind_Ok in H as ([r time'] & _ & H).
      case_bool_decide; apply bind_Ok in H as ([h1 tr1] & Hpath & H);
        injection H as <- <-; apply data_path_indices in Hpath;
        repeat (constructor; [split; [done | intros j Hl; discriminate Hl] |]);
        done. }
  split; [done |]. rewrite Han.
  by apply (replay_without_the_disk (length (MemoryHierarchy.caches h))).
Qed.

Lemma the_disk_has_no_counter_witness :
  Forall (logged_at (length (MemoryHierarchy.caches one_level_demo)))
    [mkOutcome AtTLB false 0; mkOutcome AtRAM false 1; mkOutcome AtDISK false 2;
     mkOutcome (AtCache 0) false 1; mkOutcome AtRAM true 1]
  ∧ PerformanceAnalyzer.cacheHits (MemoryHierarchy.analyzer warmed_up)
    = PerformanceAnalyzer.cacheHits
        (replay (filter (λ e, level e ≠ AtDISK)
                   [mkOutcome AtTLB false 0; mkOutcome AtRAM false 1;
                    mkOutcome AtDISK false 2; mkOutcome (AtCache 0) false 1;
                    mkOutcome AtRAM true 1])
           (MemoryHierarchy.analyzer one_level_demo))
  ∧ PerformanceAnalyzer.cacheMisses (MemoryHierarchy.analyzer warmed_up)
    = PerformanceAnalyzer.cacheMisses
        (replay (filter (λ e, level e ≠ AtDISK)
                   [mkOutcome AtTLB false 0; mkOutcome AtRAM false 1;
                    mkOutcome AtDISK false 2; mkOutcome (AtCache 0) false 1;
                    mkOutcome AtRAM true 1])
           (MemoryHierarchy.analyzer one_level_demo)).
Proof.
  apply (the_disk_has_no_counter one_level_demo warmed_up (steady 1) 0).
  - by vm_compute.
  - vm_compute. reflexivity.
  - vm_compute. lia.
  - vm_compute. lia.
Defined.
